(** * Vue runtime: scheduler, keep-alive cache, createElement, v-model
      desugaring, static-root optimizer and HTML tokenizer.

    Shallow embedding of the JavaScript sources and verification of their
    specification. *)

From Stdlib Require Import ZArith Lia String Ascii.
From stdpp Require Import base option list gmap strings sorting pretty.

Set Warnings "-register-all".
Local Open Scope Z_scope.
Local Open Scope nat_scope.

(** The double-quote character, used when building diagnostics. *)
Definition dquote : string := String (ascii_of_nat 34) EmptyString.

(** Result of running a JavaScript computation with bounded fuel: either the
    call returned ([Done]) or the budget ran out before it returned. *)
Inductive Outcome := Done | OutOfFuel.

(* ===================================================================== *)
(** * core/observer/scheduler.js *)
(* ===================================================================== *)

Module Scheduler.

Definition MAX_UPDATE_COUNT : nat := 100.

(** Component instances are references; they are identified by a number. *)
Definition Component := nat.

(** The fields of a Watcher object that the scheduler reads.  The behaviour
    of [watcher.before] and [watcher.run] is attached to the watcher by the
    tables [before_of] and [run_of] below, so that a watcher may invalidate
    any watcher, itself included. *)
Record Watcher := mkWatcher {
  id : nat;
  user : bool;
  expression : string;
  vm : Component }.

(** What user code does to the scheduler while it runs: the two exported
    entry points. *)
Inductive Call :=
| QueueWatcher (w : Watcher)
| QueueActivatedComponent (c : Component).

(** Values stored in [has]: [has[id] = true] and [has[id] = null]; a missing
    key reads as [undefined]. *)
Inductive HasFlag := HasNull | HasTrue.

Inductive Event :=
| EvBefore (w : Watcher)
| EvRun (w : Watcher)
| EvWarn (msg : string) (c : Component)
| EvNextTick
| EvActivate (c : Component)
| EvHook (c : Component) (name : string)
| EvDevtoolsFlush.

(** [has[id] == null] holds for [null] and for [undefined]. *)
Definition has_null (h : gmap nat HasFlag) (i : nat) : bool :=
  match h !! i with
  | Some HasTrue => false
  | _ => true
  end.

(** [queue.sort((a, b) => a.id - b.id)]: Array.prototype.sort is stable, so
    the result is the stable ordering by id. *)
Fixpoint insert_by_id (w : Watcher) (l : list Watcher) : list Watcher :=
  match l with
  | [] => [w]
  | y :: l' => if id w <=? id y then w :: l else y :: insert_by_id w l'
  end.

Definition sort_by_id (l : list Watcher) : list Watcher :=
  foldr insert_by_id [] l.

(** [let i = queue.length - 1
     while (i > index && queue[i].id > watcher.id) i--]
    The counter is a JavaScript number that reaches -1 on an empty queue. *)
Fixpoint splice_scan (q : list Watcher) (index : nat) (wid : nat)
    (n : nat) (i : Z) : Z :=
  match n with
  | 0 => i
  | S n' =>
      if (Z.of_nat index <? i)%Z &&
         match q !! Z.to_nat i with
         | Some w => wid <? id w
         | None => false
         end
      then splice_scan q index wid n' (i - 1)%Z
      else i
  end.

Definition splice_index (q : list Watcher) (index : nat) (wid : nat) : nat :=
  Z.to_nat (splice_scan q index wid (length q) (Z.of_nat (length q) - 1)%Z + 1)%Z.

(** [arr.splice(p, 0, x)] *)
Definition splice_in {A} (p : nat) (x : A) (l : list A) : list A :=
  take p l ++ x :: drop p l.

Definition infinite_loop_message (w : Watcher) : string :=
  "You may have an infinite update loop " +:+
  (if user w
   then "in watcher with expression " +:+ dquote +:+ expression w +:+ dquote
   else "in a component render function.").

Section Flush.
(** The application state that watchers, hooks and the clock act on. *)
Context {U : Type}.

(** [process.env.NODE_ENV === 'production'] *)
Variable production : bool.
(** [config.async] *)
Variable async : bool.
(** [devtools && config.devtools] *)
Variable devtools : bool.
Variable getNow : U -> Z.

(** User code reached from the scheduler.  Each piece of user code changes
    the application state and invalidates watchers / activates components
    through the exported entry points, in the listed order. *)
Definition Effect := U -> U * list Call.
Variable before_of : Watcher -> option Effect.
Variable run_of : Watcher -> Effect.
Variable callHook : Component -> string -> Effect.
Variable activateChildComponent : Component -> Effect.
(** Fields of component instances read by [callUpdatedHooks]. *)
Variable vm_watcher : U -> Component -> option nat.
Variable vm_isMounted : U -> Component -> bool.
Variable vm_isDestroyed : U -> Component -> bool.

Record World := mkWorld {
  queue : list Watcher;
  activatedChildren : list Component;
  has : gmap nat HasFlag;
  circular : gmap nat nat;
  waiting : bool;
  flushing : bool;
  index : nat;
  currentFlushTimestamp : Z;
  inactive : gmap Component bool;
  store : U;
  trace : list Event }.

Definition set_queue (q : list Watcher) (s : World) : World :=
  mkWorld q (activatedChildren s) (has s) (circular s) (waiting s)
    (flushing s) (index s) (currentFlushTimestamp s) (inactive s)
    (store s) (trace s).
Definition set_activatedChildren (a : list Component) (s : World) : World :=
  mkWorld (queue s) a (has s) (circular s) (waiting s)
    (flushing s) (index s) (currentFlushTimestamp s) (inactive s)
    (store s) (trace s).
Definition set_has (h : gmap nat HasFlag) (s : World) : World :=
  mkWorld (queue s) (activatedChildren s) h (circular s) (waiting s)
    (flushing s) (index s) (currentFlushTimestamp s) (inactive s)
    (store s) (trace s).
Definition set_circular (c : gmap nat nat) (s : World) : World :=
  mkWorld (queue s) (activatedChildren s) (has s) c (waiting s)
    (flushing s) (index s) (currentFlushTimestamp s) (inactive s)
    (store s) (trace s).
Definition set_waiting (b : bool) (s : World) : World :=
  mkWorld (queue s) (activatedChildren s) (has s) (circular s) b
    (flushing s) (index s) (currentFlushTimestamp s) (inactive s)
    (store s) (trace s).
Definition set_flushing (b : bool) (s : World) : World :=
  mkWorld (queue s) (activatedChildren s) (has s) (circular s) (waiting s)
    b (index s) (currentFlushTimestamp s) (inactive s)
    (store s) (trace s).
Definition set_index (i : nat) (s : World) : World :=
  mkWorld (queue s) (activatedChildren s) (has s) (circular s) (waiting s)
    (flushing s) i (currentFlushTimestamp s) (inactive s)
    (store s) (trace s).
Definition set_timestamp (t : Z) (s : World) : World :=
  mkWorld (queue s) (activatedChildren s) (has s) (circular s) (waiting s)
    (flushing s) (index s) t (inactive s) (store s) (trace s).
Definition set_inactive (c : Component) (b : bool) (s : World) : World :=
  mkWorld (queue s) (activatedChildren s) (has s) (circular s) (waiting s)
    (flushing s) (index s) (currentFlushTimestamp s)
    (<[c := b]> (inactive s)) (store s) (trace s).
Definition set_store (u : U) (s : World) : World :=
  mkWorld (queue s) (activatedChildren s) (has s) (circular s) (waiting s)
    (flushing s) (index s) (currentFlushTimestamp s) (inactive s)
    u (trace s).
Definition emit (e : Event) (s : World) : World :=
  mkWorld (queue s) (activatedChildren s) (has s) (circular s) (waiting s)
    (flushing s) (index s) (currentFlushTimestamp s) (inactive s)
    (store s) (trace s ++ [e]).

(** The module state when the script is loaded. *)
Definition initial_world (u : U) : World :=
  mkWorld [] [] ∅ ∅ false false 0 0%Z ∅ u [].

Definition resetSchedulerState (s : World) : World :=
  let s := set_index 0 (set_queue [] (set_activatedChildren [] s)) in
  let s := set_has ∅ s in
  let s := if negb production then set_circular ∅ s else s in
  set_flushing false (set_waiting false s).

Definition queueActivatedComponent (c : Component) (s : World) : World :=
  let s := set_inactive c false s in
  set_activatedChildren (activatedChildren s ++ [c]) s.

(** [queueWatcher], with the function it reaches through
    [flushSchedulerQueue()] passed in as [flush]. *)
Definition queueWatcher (flush : World -> World * Outcome)
    (watcher : Watcher) (s : World) : World * Outcome :=
  let i := id watcher in
  if has_null (has s) i then
    let s := set_has (<[i := HasTrue]> (has s)) s in
    let s :=
      if negb (flushing s) then set_queue (queue s ++ [watcher]) s
      else set_queue
             (splice_in (splice_index (queue s) (index s) (id watcher))
                        watcher (queue s)) s in
    if negb (waiting s) then
      let s := set_waiting true s in
      if negb production && negb async then flush s
      else (emit EvNextTick s, Done)
    else (s, Done)
  else (s, Done).

Definition call (flush : World -> World * Outcome) (c : Call) (s : World)
    : World * Outcome :=
  match c with
  | QueueWatcher w => queueWatcher flush w s
  | QueueActivatedComponent c => (queueActivatedComponent c s, Done)
  end.

Fixpoint calls (flush : World -> World * Outcome) (cs : list Call)
    (s : World) : World * Outcome :=
  match cs with
  | [] => (s, Done)
  | c :: cs' =>
      match call flush c s with
      | (s', Done) => calls flush cs' s'
      | r => r
      end
  end.

(** Run a piece of user code: update the application state, then replay
    its scheduler calls. *)
Definition perform (flush : World -> World * Outcome) (e : Effect)
    (s : World) : World * Outcome :=
  let '(u, cs) := e (store s) in
  calls flush cs (set_store u s).

Inductive LoopCtl := Continue | Break.

(** Body of the [for] loop of [flushSchedulerQueue] for [watcher =
    queue[index]]. *)
Definition flush_body (flush : World -> World * Outcome)
    (watcher : Watcher) (s : World) : World * Outcome * LoopCtl :=
  match
    match before_of watcher with
    | Some b => perform flush b (emit (EvBefore watcher) s)
    | None => (s, Done)
    end
  with
  | (s, OutOfFuel) => (s, OutOfFuel, Continue)
  | (s, Done) =>
      let i := id watcher in
      let s := set_has (<[i := HasNull]> (has s)) s in
      match perform flush (run_of watcher) (emit (EvRun watcher) s) with
      | (s, OutOfFuel) => (s, OutOfFuel, Continue)
      | (s, Done) =>
          if negb production && negb (has_null (has s) i) then
            let c := default 0 (circular s !! i) + 1 in
            let s := set_circular (<[i := c]> (circular s)) s in
            if MAX_UPDATE_COUNT <? c then
              (emit (EvWarn (infinite_loop_message watcher) (vm watcher)) s,
               Done, Break)
            else (s, Done, Continue)
          else (s, Done, Continue)
      end
  end.

(** [for (index = 0; index < queue.length; index++) { ... }], entered
    after [index = 0]. *)
Fixpoint flush_loop (flush : World -> World * Outcome) (fuel : nat)
    (s : World) : World * Outcome :=
  match queue s !! index s with
  | None => (s, Done)
  | Some watcher =>
      match fuel with
      | 0 => (s, OutOfFuel)
      | S fuel' =>
          match flush_body flush watcher s with
          | (s', OutOfFuel, _) => (s', OutOfFuel)
          | (s', Done, Break) => (s', Done)
          | (s', Done, Continue) =>
              flush_loop flush fuel' (set_index (index s' + 1) s')
          end
      end
  end.

(** First part of [flushSchedulerQueue]: up to the end of the loop. *)
Definition flush_start (s : World) : World :=
  let s := set_timestamp (getNow (store s)) s in
  let s := set_flushing true s in
  let s := set_queue (sort_by_id (queue s)) s in
  set_index 0 s.

Fixpoint callActivatedHooks (flush : World -> World * Outcome)
    (q : list Component) (s : World) : World * Outcome :=
  match q with
  | [] => (s, Done)
  | c :: q' =>
      let s := set_inactive c true s in
      match perform flush (activateChildComponent c)
              (emit (EvActivate c) s) with
      | (s', Done) => callActivatedHooks flush q' s'
      | r => r
      end
  end.

(** [let i = queue.length; while (i--) { ... }]: walks [queue] from its
    last element to its first; [rq] is the reversed queue. *)
Fixpoint callUpdatedHooks_rev (flush : World -> World * Outcome)
    (rq : list Watcher) (s : World) : World * Outcome :=
  match rq with
  | [] => (s, Done)
  | watcher :: rq' =>
      let c := vm watcher in
      if bool_decide (vm_watcher (store s) c = Some (id watcher))
         && vm_isMounted (store s) c && negb (vm_isDestroyed (store s) c)
      then
        match perform flush (callHook c "updated")
                (emit (EvHook c "updated") s) with
        | (s', Done) => callUpdatedHooks_rev flush rq' s'
        | r => r
        end
      else callUpdatedHooks_rev flush rq' s
  end.

Definition callUpdatedHooks (flush : World -> World * Outcome)
    (q : list Watcher) (s : World) : World * Outcome :=
  callUpdatedHooks_rev flush (reverse q) s.

(** Second part of [flushSchedulerQueue]: after the loop. *)
Definition flush_finish (flush : World -> World * Outcome) (s : World)
    : World * Outcome :=
  let activatedQueue := activatedChildren s in
  let updatedQueue := queue s in
  let s := resetSchedulerState s in
  match callActivatedHooks flush activatedQueue s with
  | (s, OutOfFuel) => (s, OutOfFuel)
  | (s, Done) =>
      match callUpdatedHooks flush updatedQueue s with
      | (s, OutOfFuel) => (s, OutOfFuel)
      | (s, Done) =>
          if devtools then (emit EvDevtoolsFlush s, Done) else (s, Done)
      end
  end.

(** [flushSchedulerQueue].  The fuel bounds the nesting of flushes and the
    number of loop iterations of each. *)
Fixpoint flushSchedulerQueue (fuel : nat) (s : World) : World * Outcome :=
  match fuel with
  | 0 => (s, OutOfFuel)
  | S fuel' =>
      match flush_loop (flushSchedulerQueue fuel') fuel' (flush_start s) with
      | (s', OutOfFuel) => (s', OutOfFuel)
      | (s', Done) => flush_finish (flushSchedulerQueue fuel') s'
      end
  end.

(* ------------------------------------------------------------------- *)
(** ** Facts about the queue operations *)

Definition occurrences (i : nat) (l : list nat) : nat :=
  length (filter (λ j, j = i) l).

(** Ids of the watchers whose [run] was called, in call order. *)
Definition run_ids (tr : list Event) : list nat :=
  omap (λ e, match e with EvRun w => Some (id w) | _ => None end) tr.

Lemma occurrences_app i l k :
  occurrences i (l ++ k) = occurrences i l + occurrences i k.
Proof. unfold occurrences. by rewrite filter_app, length_app. Qed.

Lemma occurrences_cons i j l :
  occurrences i (j :: l) = (if decide (j = i) then 1 else 0) + occurrences i l.
Proof.
  unfold occurrences. rewrite filter_cons. by destruct (decide (j = i)).
Qed.

Lemma occurrences_not_in i l : i ∉ l → occurrences i l = 0.
Proof.
  induction l as [|j l IH]; [done|]. intros Hn.
  rewrite occurrences_cons. apply not_elem_of_cons in Hn as [Hne Hn].
  rewrite decide_False by done. by rewrite IH.
Qed.

Lemma occurrences_in i l : i ∈ l → 1 ≤ occurrences i l.
Proof.
  induction l as [|j l IH]; [by intros ?%elem_of_nil|].
  rewrite occurrences_cons. intros [->|Hin]%elem_of_cons.
  - rewrite decide_True by done. lia.
  - specialize (IH Hin). lia.
Qed.

Lemma occurrences_NoDup i l : NoDup l → occurrences i l ≤ 1.
Proof.
  induction 1 as [|j l Hj _ IH]; [unfold occurrences; simpl; lia|].
  rewrite occurrences_cons. destruct (decide (j = i)) as [->|]; [|lia].
  rewrite occurrences_not_in by done. lia.
Qed.

Lemma run_ids_app tr1 tr2 : run_ids (tr1 ++ tr2) = run_ids tr1 ++ run_ids tr2.
Proof. unfold run_ids. apply omap_app. Qed.

(** *** The scan that finds the splice position *)

Lemma splice_scan_spec q idx wid n i :
  (-1 ≤ i < Z.of_nat (length q))%Z → (i < Z.of_nat n)%Z →
  let r := splice_scan q idx wid n i in
  (r ≤ i)%Z ∧ (Z.min (Z.of_nat idx) i ≤ r)%Z ∧
  (∀ j w, (r < Z.of_nat j ≤ i)%Z → q !! j = Some w → wid < id w) ∧
  ((r ≤ Z.of_nat idx)%Z ∨ ∃ w, q !! Z.to_nat r = Some w ∧ id w ≤ wid).
Proof.
  revert i. induction n as [|n IH]; intros i Hi Hn; simpl.
  { split_and!; [lia|lia|intros; lia|left; lia]. }
  destruct (Z.ltb_spec (Z.of_nat idx) i) as [Hlt|Hge]; simpl.
  - destruct (q !! Z.to_nat i) as [w|] eqn:Hw.
    + destruct (Nat.ltb_spec wid (id w)) as [Hid|Hid].
      * destruct (IH (i - 1)%Z) as (H1 & H2 & H3 & H4); [lia|lia|].
        split_and!; [lia|lia| |done].
        intros j w' Hj Hq. destruct (decide (Z.of_nat j = i)) as [<-|].
        -- rewrite Nat2Z.id in Hw. congruence.
        -- apply (H3 j w'); [lia|done].
      * split_and!; [lia|lia|intros; lia|right; eauto].
    + apply lookup_ge_None in Hw. lia.
  - split_and!; [lia|lia|intros; lia|left; lia].
Qed.

Lemma splice_index_le q idx wid : splice_index q idx wid ≤ length q.
Proof.
  unfold splice_index.
  destruct (splice_scan_spec q idx wid (length q) (Z.of_nat (length q) - 1))
    as (H1 & _); lia.
Qed.

Lemma splice_index_gt q idx wid :
  idx < length q → idx < splice_index q idx wid.
Proof.
  intros Hlt. unfold splice_index.
  destruct (splice_scan_spec q idx wid (length q) (Z.of_nat (length q) - 1))
    as (_ & H2 & _); lia.
Qed.

Lemma splice_index_after q idx wid j w :
  splice_index q idx wid ≤ j → q !! j = Some w → wid < id w.
Proof.
  unfold splice_index. intros Hj Hq.
  destruct (splice_scan_spec q idx wid (length q) (Z.of_nat (length q) - 1))
    as (H1 & H2 & H3 & _); [lia|lia|].
  apply lookup_lt_Some in Hq as Hlen.
  apply (H3 j w); [lia|done].
Qed.

Lemma splice_index_before q idx wid :
  idx + 1 < splice_index q idx wid →
  ∃ w, q !! (splice_index q idx wid - 1) = Some w ∧ id w ≤ wid.
Proof.
  unfold splice_index. intros Hp.
  destruct (splice_scan_spec q idx wid (length q) (Z.of_nat (length q) - 1))
    as (H1 & H2 & _ & [H4|(w & Hw & Hid)]); [lia|lia|lia|].
  exists w. split; [|done]. rewrite <- Hw. f_equal. lia.
Qed.

Lemma splice_in_length {A} p (x : A) l :
  length (splice_in p x l) = S (length l).
Proof.
  unfold splice_in. rewrite length_app. simpl.
  rewrite <- Nat.add_succ_comm. simpl. f_equal.
  rewrite <- length_app. by rewrite take_drop.
Qed.

Lemma splice_in_take {A} p k (x : A) l :
  k ≤ p → p ≤ length l → take k (splice_in p x l) = take k l.
Proof.
  intros Hk Hp. unfold splice_in.
  rewrite take_app_le by (rewrite length_take; lia).
  rewrite take_take. f_equal. lia.
Qed.

Lemma splice_in_drop {A} p k (x : A) l :
  k ≤ p → p ≤ length l →
  drop k (splice_in p x l) = drop k (take p l) ++ x :: drop p l.
Proof.
  intros Hk Hp. unfold splice_in.
  rewrite drop_app_le by (rewrite length_take; lia). done.
Qed.

Lemma drop_take_drop {A} p k (l : list A) :
  k ≤ p → drop k l = drop k (take p l) ++ drop p l.
Proof.
  intros Hk. rewrite <- (take_drop p l) at 1.
  destruct (decide (p ≤ length l)).
  - rewrite drop_app_le by (rewrite length_take; lia). done.
  - rewrite (take_ge l p) by lia. rewrite (drop_ge l p) by lia.
    by rewrite !app_nil_r.
Qed.

(** *** [queueWatcher] while a flush is running *)

Definition enqueue_flushing (w : Watcher) (s : World) : World :=
  set_queue
    (splice_in (splice_index (queue s) (index s) (id w)) w (queue s))
    (set_has (<[id w := HasTrue]> (has s)) s).

Lemma queueWatcher_flushing flush w s :
  flushing s = true → waiting s = true →
  queueWatcher flush w s =
    (if has_null (has s) (id w) then enqueue_flushing w s else s, Done).
Proof.
  intros Hf Hw. unfold queueWatcher, enqueue_flushing.
  destruct (has_null (has s) (id w)); [|done]. simpl.
  rewrite Hf. simpl. rewrite Hw. done.
Qed.

(** Replaying scheduler calls during a flush: every call returns, and any
    property kept by an enqueue and by [queueActivatedComponent] is kept. *)
Lemma calls_flushing_ind (P : World → Prop) flush cs s :
  flushing s = true → waiting s = true → index s < length (queue s) →
  (∀ w s, QueueWatcher w ∈ cs → has_null (has s) (id w) = true →
     flushing s = true → waiting s = true → index s < length (queue s) →
     P s → P (enqueue_flushing w s)) →
  (∀ c s, P s → P (queueActivatedComponent c s)) →
  P s →
  ∃ s', calls flush cs s = (s', Done) ∧ flushing s' = true ∧
        waiting s' = true ∧ index s' < length (queue s') ∧ P s'.
Proof.
  intros Hf Hw Hi Henq Hact. revert s Hf Hw Hi.
  induction cs as [|c cs IH]; intros s Hf Hw Hi HP; simpl.
  { eauto 10. }
  destruct c as [w|c]; simpl.
  - rewrite queueWatcher_flushing by done.
    destruct (has_null (has s) (id w)) eqn:Hn.
    + apply IH; simpl; try done.
      * intros w' s' Hin. apply Henq. by right.
      * rewrite splice_in_length. lia.
      * apply Henq; try done. by left.
    + apply IH; try done. intros w' s' Hin. apply Henq. by right.
  - apply IH; try done.
    + intros w' s' Hin. apply Henq. by right.
    + by apply Hact.
Qed.
(** The same, for properties of the queue alone: the index, the trace and
    the circular counters are untouched by the replayed calls. *)
Lemma calls_flushing (Q : list Watcher → Prop) flush cs s :
  flushing s = true → waiting s = true → index s < length (queue s) →
  (∀ w q, QueueWatcher w ∈ cs → index s < length q → Q q →
     Q (splice_in (splice_index q (index s) (id w)) w q)) →
  Q (queue s) →
  ∃ s', calls flush cs s = (s', Done) ∧ flushing s' = true ∧
        waiting s' = true ∧ index s' = index s ∧ trace s' = trace s ∧
        circular s' = circular s ∧ index s < length (queue s') ∧
        Q (queue s').
Proof.
  intros Hf Hw Hi Henq HQ.
  destruct (calls_flushing_ind
    (λ s', index s' = index s ∧ trace s' = trace s ∧
           circular s' = circular s ∧ Q (queue s')) flush cs s Hf Hw Hi)
    as (s' & Hc & Hf' & Hw' & Hi' & Hx & Ht & Hci & HQ').
  - intros w s1 Hin _ _ _ Hi1 (Hx1 & Ht1 & Hci1 & HQ1). simpl.
    split_and!; try done. rewrite Hx1. apply Henq; [done|lia|done].
  - intros c s1 H. exact H.
  - done.
  - exists s'. split_and!; try done. lia.
Qed.

Lemma perform_flushing (Q : list Watcher → Prop) flush (e : Effect) s :
  flushing s = true → waiting s = true → index s < length (queue s) →
  (∀ w q, QueueWatcher w ∈ (e (store s)).2 → index s < length q → Q q →
     Q (splice_in (splice_index q (index s) (id w)) w q)) →
  Q (queue s) →
  ∃ s', perform flush e s = (s', Done) ∧ flushing s' = true ∧
        waiting s' = true ∧ index s' = index s ∧ trace s' = trace s ∧
        circular s' = circular s ∧ index s < length (queue s') ∧
        Q (queue s').
Proof.
  intros Hf Hw Hi Henq HQ. unfold perform.
  destruct (e (store s)) as [u cs] eqn:He. simpl in Henq.
  by apply (calls_flushing Q flush cs (set_store u s)).
Qed.

(** [w'] is invalidated by the [before] hook or by the [run] of [w], in
    some application state. *)
Definition invalidates (w w' : Watcher) : Prop :=
  (∃ u, QueueWatcher w' ∈ (run_of w u).2) ∨
  (∃ b u, before_of w = Some b ∧ QueueWatcher w' ∈ (b u).2).

(** One iteration of the flush loop, seen from the queue. *)
Lemma flush_body_flushing (Q : list Watcher → Prop) flush w s :
  flushing s = true → waiting s = true → index s < length (queue s) →
  (∀ w' q, invalidates w w' → index s < length q → Q q →
     Q (splice_in (splice_index q (index s) (id w')) w' q)) →
  Q (queue s) →
  ∃ s' ctl, flush_body flush w s = (s', Done, ctl) ∧ flushing s' = true ∧
        waiting s' = true ∧ index s' = index s ∧
        run_ids (trace s') = run_ids (trace s) ++ [id w] ∧
        index s < length (queue s') ∧ Q (queue s').
Proof.
  intros Hf Hw Hi Henq HQ. unfold flush_body.
  assert (∃ s1, match before_of w with
                | Some b => perform flush b (emit (EvBefore w) s)
                | None => (s, Done)
                end = (s1, Done) ∧ flushing s1 = true ∧ waiting s1 = true ∧
                index s1 = index s ∧ run_ids (trace s1) = run_ids (trace s) ∧
                index s < length (queue s1) ∧ Q (queue s1))
    as (s1 & -> & Hf1 & Hw1 & Hx1 & Ht1 & Hi1 & HQ1).
  { destruct (before_of w) as [b|] eqn:Hb; [|by eauto 10].
    destruct (perform_flushing Q flush b (emit (EvBefore w) s))
      as (s1 & Hp & ? & ? & ? & Ht & ? & ? & ?); try done.
    - intros w' q Hin. apply Henq. right. eauto.
    - exists s1. split_and!; try done. rewrite Ht. simpl.
      rewrite run_ids_app. simpl. by rewrite app_nil_r. }
  destruct (perform_flushing Q flush (run_of w)
    (emit (EvRun w) (set_has (<[id w := HasNull]> (has s1)) s1)))
    as (s2 & -> & Hf2 & Hw2 & Hx2 & Ht2 & Hc2 & Hi2 & HQ2); simpl; try done.
  { lia. }
  { intros w' q Hin. rewrite Hx1. apply Henq. left. eauto. }
  simpl in *.
  assert (run_ids (trace s2) = run_ids (trace s) ++ [id w]) as Hr.
  { rewrite Ht2, run_ids_app, Ht1. done. }
  destruct (negb production && negb (has_null (has s2) (id w))).
  - destruct (MAX_UPDATE_COUNT <? _).
    + eexists _, _. split; [done|]. simpl. split_and!; try done; try lia.
      rewrite run_ids_app, Hr. simpl. by rewrite app_nil_r.
    + eexists _, _. split; [done|]. simpl. split_and!; try done; lia.
  - eexists _, _. split; [done|]. split_and!; try done; lia.
Qed.
(** *** Sorting *)

Lemma insert_by_id_perm w l : insert_by_id w l ≡ₚ w :: l.
Proof.
  induction l as [|y l IH]; simpl; [done|].
  destruct (id w <=? id y); [done|]. rewrite IH. apply Permutation_swap.
Qed.

Lemma sort_by_id_perm l : sort_by_id l ≡ₚ l.
Proof.
  induction l as [|w l IH]; simpl; [done|].
  rewrite insert_by_id_perm. by rewrite IH.
Qed.

Lemma insert_by_id_sorted w l :
  StronglySorted le (id <$> l) →
  StronglySorted le (id <$> insert_by_id w l).
Proof.
  induction l as [|y l IH]; simpl; intros Hs.
  { repeat constructor. }
  apply StronglySorted_inv in Hs as [Hl Hy].
  destruct (Nat.leb_spec (id w) (id y)) as [Hle|Hgt]; simpl.
  - constructor; [by constructor|].
    constructor; [done|]. eapply Forall_impl; [exact Hy|]. simpl; lia.
  - constructor; [by apply IH|].
    rewrite (insert_by_id_perm w l). simpl. constructor; [lia|done].
Qed.

Lemma sort_by_id_sorted l : StronglySorted le (id <$> sort_by_id l).
Proof.
  induction l as [|w l IH]; simpl; [constructor|].
  by apply insert_by_id_sorted.
Qed.

Lemma occurrences_perm i l k : l ≡ₚ k → occurrences i l = occurrences i k.
Proof. intros Hp. unfold occurrences. by rewrite Hp. Qed.

Lemma flush_loop_eq flush fuel s :
  flush_loop flush fuel s =
  match queue s !! index s with
  | None => (s, Done)
  | Some watcher =>
      match fuel with
      | 0 => (s, OutOfFuel)
      | S fuel' =>
          match flush_body flush watcher s with
          | (s', OutOfFuel, _) => (s', OutOfFuel)
          | (s', Done, Break) => (s', Done)
          | (s', Done, Continue) =>
              flush_loop flush fuel' (set_index (index s' + 1) s')
          end
      end
  end.
Proof. by destruct fuel. Qed.

(** *** Deduplication between two flushes *)

(** Between two flushes [has] records exactly the ids of the queued
    watchers, no id is queued twice, and a flush has been requested as
    soon as the queue is not empty. *)
Definition tracked (s : World) : Prop :=
  NoDup (id <$> queue s) ∧
  (∀ i, has s !! i = Some HasTrue ↔ i ∈ id <$> queue s) ∧
  (queue s ≠ [] → waiting s = true).

Lemma tracked_initial u : tracked (initial_world u).
Proof.
  split_and!; simpl; [constructor| |done]. intros i. rewrite lookup_empty.
  split; [done|]. by intros ?%elem_of_nil.
Qed.

Lemma has_null_true h i : has_null h i = false ↔ h !! i = Some HasTrue.
Proof.
  unfold has_null. destruct (h !! i) as [[]|]; split; congruence.
Qed.

Lemma queueWatcher_pending flush w s :
  flushing s = false → tracked s →
  waiting s = true ∨ production || async = true →
  ∃ s', queueWatcher flush w s = (s', Done) ∧ flushing s' = false ∧
        waiting s' = true ∧ tracked s' ∧
        run_ids (trace s') = run_ids (trace s) ∧
        id w ∈ id <$> queue s' ∧
        ∀ i, i ∈ id <$> queue s → i ∈ id <$> queue s'.
Proof.
  intros Hf (Hnd & Hhas & Hwait) Hmode. unfold queueWatcher.
  destruct (has_null (has s) (id w)) eqn:Hn.
  - assert (id w ∉ id <$> queue s) as Hfresh.
    { intros Hin%Hhas. apply has_null_true in Hin. congruence. }
    assert (NoDup (id <$> (queue s ++ [w]))) as Hnd'.
    { rewrite fmap_app. apply NoDup_app. split_and!; [done| |].
      - intros i Hi. simpl. intros ->%list_elem_of_singleton. done.
      - simpl. apply NoDup_singleton. }
    assert (∀ i, <[id w:=HasTrue]> (has s) !! i = Some HasTrue ↔
                 i ∈ id <$> (queue s ++ [w])) as Hhas'.
    { intros i. rewrite fmap_app, elem_of_app. simpl.
      rewrite list_elem_of_singleton, <- Hhas.
      destruct (decide (i = id w)) as [->|Hne].
      - rewrite lookup_insert_eq. split; [by right|done].
      - rewrite lookup_insert_ne by done. split; [by left|].
        by intros [?|?]. }
    simpl. rewrite Hf. simpl.
    assert (∀ i, i ∈ id <$> queue s → i ∈ id <$> (queue s ++ [w])) as Hmono.
    { intros i Hi. rewrite fmap_app. apply elem_of_app. by left. }
    assert (id w ∈ id <$> (queue s ++ [w])) as Hin.
    { rewrite fmap_app. apply elem_of_app. right. simpl. by left. }
    destruct (waiting s) eqn:Hw; simpl.
    + eexists. split; [done|]. simpl. rewrite Hw.
      split_and!; done.
    + destruct Hmode as [?|Hmode]; [done|].
      replace (negb production && negb async) with false
        by (destruct production, async; done).
      eexists. split; [done|]. simpl. split_and!; try done.
      rewrite run_ids_app. simpl. by rewrite app_nil_r.
  - apply has_null_true in Hn as Hin. apply Hhas in Hin.
    exists s. split_and!; try done.
    apply Hwait. intros Hq. rewrite Hq in Hin. by apply elem_of_nil in Hin.
Qed.

Lemma calls_cons flush c cs s :
  calls flush (c :: cs) s =
  match call flush c s with
  | (s', Done) => calls flush cs s'
  | r => r
  end.
Proof. done. Qed.

Lemma calls_pending flush ws s :
  flushing s = false → tracked s →
  waiting s = true ∨ production || async = true →
  ∃ s', calls flush (QueueWatcher <$> ws) s = (s', Done) ∧
        flushing s' = false ∧ tracked s' ∧
        (waiting s = true ∨ ws ≠ [] → waiting s' = true) ∧
        run_ids (trace s') = run_ids (trace s) ∧
        (∀ w, w ∈ ws → id w ∈ id <$> queue s') ∧
        ∀ i, i ∈ id <$> queue s → i ∈ id <$> queue s'.
Proof.
  revert s. induction ws as [|w ws IH]; intros s Hf Htr Hmode.
  { exists s. split_and!; try done; [by intros [?|?]|].
    by intros w ?%elem_of_nil. }
  rewrite fmap_cons, calls_cons.
  change (call flush (QueueWatcher w) s) with (queueWatcher flush w s).
  destruct (queueWatcher_pending flush w s Hf Htr Hmode)
    as (s1 & -> & Hf1 & Hw1 & Htr1 & Ht1 & Hin1 & Hmono1).
  destruct (IH s1 Hf1 Htr1 (or_introl Hw1))
    as (s2 & -> & Hf2 & Htr2 & Hw2 & Ht2 & Hin2 & Hmono2).
  exists s2. split_and!; try done.
  - intros _. apply Hw2. by left.
  - congruence.
  - intros w' [->|Hin]%elem_of_cons; [by apply Hmono2|by apply Hin2].
  - intros i Hi. by apply Hmono2, Hmono1.
Qed.

(** A watcher id that no running watcher invalidates runs at most as many
    times as it is pending. *)
Lemma flush_loop_runs_bound flush i K fuel s :
  (∀ w w', invalidates w w' → id w' ≠ i) →
  flushing s = true → waiting s = true →
  occurrences i (run_ids (trace s)) +
    occurrences i (id <$> drop (index s) (queue s)) ≤ K →
  occurrences i (run_ids (trace (flush_loop flush fuel s).1)) ≤ K.
Proof.
  intros Hquiet. revert s. induction fuel as [|fuel IH];
    intros s Hf Hw HK; rewrite flush_loop_eq;
    destruct (queue s !! index s) as [w|] eqn:Hq; simpl; try lia.
  apply lookup_lt_Some in Hq as Hlen.
  destruct (flush_body_flushing
    (λ q, q !! index s = Some w ∧
          occurrences i (id <$> drop (S (index s)) q) =
          occurrences i (id <$> drop (S (index s)) (queue s)))
    flush w s Hf Hw Hlen) as (s' & ctl & -> & Hf' & Hw' & Hx' & Ht' & Hl' & Hq' & Ho').
  { intros w' q Hinv Hlq [Hqw Hocc].
    pose proof (splice_index_gt q (index s) (id w') Hlq) as Hgt.
    pose proof (splice_index_le q (index s) (id w')) as Hle.
    split.
    - rewrite <- Hqw. rewrite <- (lookup_take_lt _ (S (index s))) by lia.
      rewrite splice_in_take by lia. by rewrite lookup_take_lt by lia.
    - rewrite <- Hocc. rewrite splice_in_drop by lia.
      rewrite (drop_take_drop (splice_index q (index s) (id w')) (S (index s)) q) by lia.
      rewrite !fmap_app, !occurrences_app. simpl.
      rewrite occurrences_cons. rewrite decide_False by (eapply Hquiet; eassumption).
      done. }
  { done. }
  rewrite (drop_S _ _ _ Hq), fmap_cons, occurrences_cons in HK.
  destruct ctl; simpl.
  - apply IH; simpl; try done.
    rewrite Ht', run_ids_app || rewrite Ht'. rewrite occurrences_app.
    rewrite occurrences_cons. replace (index s' + 1) with (S (index s)) by lia.
    rewrite Ho'. unfold occurrences at 2. simpl. lia.
  - rewrite Ht', occurrences_app, occurrences_cons.
    unfold occurrences at 2. simpl. lia.
Qed.
(** *** Order of the queue during a flush *)

(** The part of the queue from position [n] on is ascending by id. *)
Definition sorted_from (n : nat) (q : list Watcher) : Prop :=
  ∀ i j a b, n ≤ i → i < j → q !! i = Some a → q !! j = Some b →
             id a ≤ id b.

Lemma StronglySorted_lookup (l : list nat) :
  StronglySorted le l ↔
  ∀ i j x y, i < j → l !! i = Some x → l !! j = Some y → x ≤ y.
Proof.
  induction l as [|z l IH].
  - split; [intros _ i j x y _ Hi; by rewrite lookup_nil in Hi|constructor].
  - rewrite StronglySorted_cons, IH, Forall_lookup. split.
    + intros [Hhd Htl] i j x y Hij Hi Hj.
      destruct j as [|j]; [lia|]. destruct i as [|i]; simpl in *.
      * inversion Hi; subst. by eapply Hhd.
      * eapply (Htl i j); [lia|done|done].
    + intros H. split.
      * intros i x Hi. by apply (H 0 (S i) z x); [lia| |].
      * intros i j x y Hij Hi Hj. by apply (H (S i) (S j) x y); [lia| |].
Qed.

Lemma sorted_from_StronglySorted n q :
  sorted_from n q ↔ StronglySorted le (id <$> drop n q).
Proof.
  rewrite StronglySorted_lookup. unfold sorted_from. split.
  - intros H i j x y Hij. rewrite !list_lookup_fmap, !lookup_drop.
    destruct (q !! (n + i)) as [a|] eqn:Ha; [|done].
    destruct (q !! (n + j)) as [b|] eqn:Hb; [|done].
    simpl. intros [= <-] [= <-]. apply (H (n + i) (n + j)); [lia|lia|done|done].
  - intros H i j a b Hn Hij Ha Hb.
    apply (H (i - n) (j - n)); [lia| |].
    + rewrite list_lookup_fmap, lookup_drop.
      replace (n + (i - n)) with i by lia. by rewrite Ha.
    + rewrite list_lookup_fmap, lookup_drop.
      replace (n + (j - n)) with j by lia. by rewrite Hb.
Qed.

Lemma sorted_from_le n m q : n ≤ m → sorted_from n q → sorted_from m q.
Proof. intros Hnm H i j a b Hi. apply H. lia. Qed.

Lemma sorted_from_weak n q i j a b :
  sorted_from n q → n ≤ i → i ≤ j → q !! i = Some a → q !! j = Some b →
  id a ≤ id b.
Proof.
  intros H Hn Hij Ha Hb. destruct (decide (i = j)) as [->|].
  - rewrite Ha in Hb. injection Hb as ->. lia.
  - apply (H i j); [done|lia|done|done].
Qed.

Lemma splice_in_lookup {A} p i (x : A) l :
  p ≤ length l →
  splice_in p x l !! i =
    if i <? p then l !! i else if i =? p then Some x else l !! (i - 1).
Proof.
  intros Hp. unfold splice_in.
  destruct (Nat.ltb_spec i p) as [Hlt|Hge].
  - rewrite lookup_app_l by (rewrite length_take; lia).
    by rewrite lookup_take_lt.
  - rewrite lookup_app_r by (rewrite length_take; lia).
    rewrite length_take, Nat.min_l by lia.
    destruct (Nat.eqb_spec i p) as [->|Hne].
    + by rewrite Nat.sub_diag.
    + destruct (i - p) as [|k] eqn:Hk; [lia|]. simpl.
      rewrite lookup_drop. f_equal. lia.
Qed.

(** The splice keeps the queue ascending from [n] on, where [n] is at most
    the position after the running watcher; when the running watcher is
    itself in the ascending part, the new watcher must not have a smaller
    id. *)
Lemma splice_sorted n q idx w :
  n ≤ S idx → idx < length q → sorted_from n q →
  (∀ a, n ≤ idx → q !! idx = Some a → id a ≤ id w) →
  sorted_from n (splice_in (splice_index q idx (id w)) w q).
Proof.
  intros Hn Hlen Hs Hrun.
  pose proof (splice_index_gt q idx (id w) Hlen) as Hgt.
  pose proof (splice_index_le q idx (id w)) as Hle.
  pose proof (splice_index_after q idx (id w)) as Hafter.
  pose proof (splice_index_before q idx (id w)) as Hbefore.
  set (p := splice_index q idx (id w)) in *.
  assert (∀ i a, n ≤ i → i < p → q !! i = Some a → id a ≤ id w) as Hlow.
  { intros i a Hni Hip Ha. destruct (decide (i ≤ idx)) as [Hi|Hi].
    - destruct (lookup_lt_is_Some_2 q idx Hlen) as [r Hr].
      transitivity (id r); [|apply Hrun; [lia|done]].
      by apply (sorted_from_weak n q i idx).
    - destruct Hbefore as (w0 & Hw0 & Hid); [lia|].
      transitivity (id w0); [|done].
      apply (sorted_from_weak n q i (p - 1)); [done|lia|lia|done|done]. }
  intros i j a b Hni Hij. rewrite !splice_in_lookup by done.
  destruct (Nat.ltb_spec j p) as [Hjp|Hjp].
  - rewrite (proj2 (Nat.ltb_lt i p)) by lia. by apply Hs.
  - destruct (Nat.eqb_spec j p) as [->|Hne].
    + rewrite (proj2 (Nat.ltb_lt i p)) by lia. intros Ha [= <-].
      by apply (Hlow i).
    + intros Ha Hb. assert (id w < id b) by (apply (Hafter (j - 1)); [lia|done]).
      destruct (Nat.ltb_spec i p) as [Hip|Hip].
      * apply (Hs i (j - 1)); [done|lia|done|done].
      * destruct (Nat.eqb_spec i p) as [->|Hne'].
        -- injection Ha as <-. lia.
        -- apply (Hs (i - 1) (j - 1)); [lia|lia|done|done].
Qed.

Lemma flush_loop_pending_sorted flush fuel s :
  flushing s = true → waiting s = true →
  sorted_from (index s) (queue s) →
  let s' := (flush_loop flush fuel s).1 in
  sorted_from (S (index s')) (queue s').
Proof.
  revert s. induction fuel as [|fuel IH]; intros s Hf Hw Hs;
    rewrite flush_loop_eq;
    destruct (queue s !! index s) as [w|] eqn:Hq; simpl;
    try (by eapply sorted_from_le; [|exact Hs]; lia).
  apply lookup_lt_Some in Hq as Hlen.
  destruct (flush_body_flushing (sorted_from (S (index s)))
    flush w s Hf Hw Hlen) as (s' & ctl & -> & Hf' & Hw' & Hx' & _ & _ & Hs').
  { intros w' q _ Hlq Hq'. apply splice_sorted; [done|done|done|].
    intros a ?. lia. }
  { eapply sorted_from_le; [|exact Hs]. lia. }
  destruct ctl; simpl.
  - apply IH; simpl; try done. by rewrite Hx', Nat.add_1_r.
  - by rewrite Hx'.
Qed.

Lemma flush_loop_runs_sorted flush R fuel s :
  (∀ w w', invalidates w w' → id w ≤ id w') →
  flushing s = true → waiting s = true →
  sorted_from 0 (queue s) →
  run_ids (trace s) = R ++ (id <$> take (index s) (queue s)) →
  ∃ rs, run_ids (trace (flush_loop flush fuel s).1) = R ++ rs ∧
        StronglySorted le rs.
Proof.
  intros Hmono.
  assert (∀ q n, sorted_from 0 q → StronglySorted le (id <$> take n q))
    as Hpre.
  { intros q n Hs. apply sorted_from_StronglySorted in Hs.
    rewrite drop_0, <- (take_drop n q), fmap_app in Hs.
    by apply StronglySorted_app_1_l in Hs. }
  revert s. induction fuel as [|fuel IH]; intros s Hf Hw Hs Ht;
    rewrite flush_loop_eq;
    destruct (queue s !! index s) as [w|] eqn:Hq; simpl; eauto.
  apply lookup_lt_Some in Hq as Hlen.
  destruct (flush_body_flushing
    (λ q, take (S (index s)) q = take (S (index s)) (queue s) ∧
          sorted_from 0 q)
    flush w s Hf Hw Hlen)
    as (s' & ctl & -> & Hf' & Hw' & Hx' & Ht' & Hl' & Hq' & Hs').
  { intros w' q Hinv Hlq [Hqw Hsq].
    pose proof (splice_index_gt q (index s) (id w') Hlq) as Hgt.
    pose proof (splice_index_le q (index s) (id w')) as Hle.
    split.
    - by rewrite splice_in_take by lia.
    - apply splice_sorted; [lia|done|done|].
      intros a _ Ha. assert (a = w) as ->; [|by apply Hmono].
      assert (take (S (index s)) q !! index s = Some a) as Ha'
        by (by rewrite lookup_take_lt by lia).
      rewrite Hqw, lookup_take_lt in Ha' by lia. congruence. }
  { done. }
  assert (run_ids (trace s') =
          R ++ (id <$> take (S (index s)) (queue s'))) as Hr.
  { rewrite Ht', Ht, Hq', (take_S_r _ _ _ Hq), fmap_app.
    by rewrite <- app_assoc. }
  destruct ctl; simpl.
  - apply IH; simpl; try done. by rewrite Hx', Nat.add_1_r.
  - eauto.
Qed.
(** *** Runaway updates *)

(** Diagnostics emitted so far. *)
Definition warnings (tr : list Event) : list (string * Component) :=
  omap (λ e, match e with EvWarn m c => Some (m, c) | _ => None end) tr.



(** *** The flush loop when watchers invalidate forwards *)



(** A queued watcher that [has] records. *)
Definition armed (N : nat) (s : World) (a : Watcher) : Prop :=
  id a ≤ N ∧ has s !! id a = Some HasTrue.

(** The queue is ascending from position [k] on, and from position [n] on
    no id is queued twice and every watcher is recorded in [has]. *)
Definition pending_ok (N k n : nat) (s : World) : Prop :=
  sorted_from k (queue s) ∧
  NoDup (id <$> drop n (queue s)) ∧
  Forall (armed N s) (drop n (queue s)).




Lemma pending_ok_ext N k n s s' :
  queue s' = queue s → has s' = has s →
  pending_ok N k n s → pending_ok N k n s'.
Proof. unfold pending_ok, armed. intros -> ->. done. Qed.


(** Id of the watcher about to run ([N + 1] once the queue is exhausted). *)
Definition current (N : nat) (s : World) : nat :=
  match queue s !! index s with
  | Some w => id w
  | None => S N
  end.







(* ------------------------------------------------------------------- *)
(** ** Specification of the scheduler *)

(** C1 (amended).  Between two flushes (no flush running, and either a
    flush is already requested or the request is deferred to the next
    tick), any sequence of [queueWatcher] calls returns without flushing,
    leaves each watcher id in the queue at most once, and exactly once for
    every watcher passed.  In the flush loop that follows, a watcher id is
    run at most once provided no running watcher, the watcher itself
    included, invalidates it again: [has[id]] is cleared before the run, so
    a watcher invalidated during the flush is queued and run again. *)
Theorem queueWatcher_deduplicates flush ws s :
  flushing s = false → tracked s →
  waiting s = true ∨ production || async = true →
  ∃ s', calls flush (QueueWatcher <$> ws) s = (s', Done) ∧
    flushing s' = false ∧ tracked s' ∧
    (ws ≠ [] → waiting s' = true) ∧
    (∀ i, occurrences i (id <$> queue s') ≤ 1) ∧
    (∀ w, w ∈ ws → occurrences (id w) (id <$> queue s') = 1) ∧
    (waiting s' = true →
     ∀ flush' fuel i, (∀ w w', invalidates w w' → id w' ≠ i) →
       occurrences i
         (run_ids (trace (flush_loop flush' fuel (flush_start s')).1))
       ≤ occurrences i (run_ids (trace s)) + 1).
Proof.
  intros Hf Htr Hmode.
  destruct (calls_pending flush ws s Hf Htr Hmode)
    as (s' & Hc & Hf' & Htr' & Hw' & Ht' & Hin' & _).
  exists s'. split_and!; try done.
  - intros ?. apply Hw'. by right.
  - intros i. apply occurrences_NoDup, Htr'.
  - intros w Hw. apply Nat.le_antisymm.
    + apply occurrences_NoDup, Htr'.
    + by apply occurrences_in, Hin'.
  - intros Hwait flush' fuel i Hquiet.
    apply flush_loop_runs_bound; simpl; try done.
    rewrite drop_0, Ht'.
    rewrite (occurrences_perm i (id <$> sort_by_id (queue s'))
               (id <$> queue s')) by (by rewrite sort_by_id_perm).
    pose proof (occurrences_NoDup i _ (proj1 Htr')). lia.
Qed.

(** C2 (amended).  [flushSchedulerQueue] first sorts the queue ascending by
    watcher id.  A watcher enqueued while the flush is running is spliced
    in after the running index, behind the pending watchers whose id is not
    larger and in front of those whose id is larger, so the pending part of
    the queue stays ascending at every step of the loop.  Watchers run in
    ascending id order provided no running watcher invalidates a watcher
    with a smaller id than its own. *)
Theorem flush_runs_in_id_order flush s :
  waiting s = true →
  let s0 := flush_start s in
  (StronglySorted le (id <$> queue s0) ∧ queue s0 ≡ₚ queue s ∧
   index s0 = 0 ∧ flushing s0 = true) ∧
  (∀ s1 w, flushing s1 = true → waiting s1 = true →
     index s1 < length (queue s1) → has_null (has s1) (id w) = true →
     sorted_from (S (index s1)) (queue s1) →
     ∃ p s2, queueWatcher flush w s1 = (s2, Done) ∧
       index s1 < p ≤ length (queue s1) ∧
       queue s2 = take p (queue s1) ++ w :: drop p (queue s1) ∧
       (∀ j w', p ≤ j → queue s1 !! j = Some w' → id w < id w') ∧
       (index s1 + 1 < p →
        ∃ w', queue s1 !! (p - 1) = Some w' ∧ id w' ≤ id w) ∧
       index s2 = index s1 ∧
       sorted_from (S (index s2)) (queue s2)) ∧
  (∀ fuel, let s' := (flush_loop flush fuel s0).1 in
           sorted_from (S (index s')) (queue s')) ∧
  ((∀ w w', invalidates w w' → id w ≤ id w') →
   ∀ fuel, ∃ rs,
     run_ids (trace (flush_loop flush fuel s0).1) =
       run_ids (trace s) ++ rs ∧
     StronglySorted le rs).
Proof.
  intros Hw s0.
  assert (sorted_from 0 (queue s0)) as Hs0.
  { apply sorted_from_StronglySorted. rewrite drop_0.
    apply sort_by_id_sorted. }
  split; [|split; [|split]].
  - split_and!; try done; [apply sort_by_id_sorted|apply sort_by_id_perm].
  - intros s1 w Hf1 Hw1 Hl1 Hn1 Hs1.
    exists (splice_index (queue s1) (index s1) (id w)), (enqueue_flushing w s1).
    rewrite queueWatcher_flushing, Hn1 by done.
    split_and!; try done.
    + by apply splice_index_gt.
    + apply splice_index_le.
    + apply splice_index_after.
    + apply splice_index_before.
    + simpl. apply splice_sorted; [done|done|done|]. intros a ?. lia.
  - intros fuel. apply flush_loop_pending_sorted; done.
  - intros Hmono fuel.
    apply flush_loop_runs_sorted; try done. simpl. by rewrite app_nil_r.
Qed.


(* ------------------------------------------------------------------- *)
(** ** One flush is requested for a batch *)

(** Number of flushes handed to [nextTick]. *)
Definition is_next_tick (e : Event) : bool :=
  match e with EvNextTick => true | _ => false end.

Definition next_ticks (tr : list Event) : nat :=
  length (filter (λ e, is_next_tick e = true) tr).

Lemma next_ticks_app tr1 tr2 :
  next_ticks (tr1 ++ tr2) = next_ticks tr1 + next_ticks tr2.
Proof. unfold next_ticks. by rewrite filter_app, length_app. Qed.

Lemma queueWatcher_ticks flush w s :
  flushing s = false → tracked s → production || async = true →
  ∃ s', queueWatcher flush w s = (s', Done) ∧
        next_ticks (trace s') =
          next_ticks (trace s) + (if waiting s then 0 else 1).
Proof.
  intros Hf (Hnd & Hhas & Hwait) Hmode. unfold queueWatcher.
  replace (negb production && negb async) with false
    by (destruct production, async; done).
  destruct (has_null (has s) (id w)) eqn:Hn.
  - simpl. rewrite Hf. simpl. destruct (waiting s) eqn:Hw; simpl.
    + eexists. split; [done|]. simpl. lia.
    + eexists. split; [done|]. simpl. rewrite next_ticks_app. done.
  - eexists. split; [done|].
    apply has_null_true in Hn as Hin. apply Hhas in Hin.
    rewrite Hwait; [lia|]. intros Hq. rewrite Hq in Hin.
    by apply elem_of_nil in Hin.
Qed.

(** With flushes deferred to the next tick ([config.async], or a
    production build), a batch of [queueWatcher] calls made while no flush
    is running hands exactly one flush to [nextTick] if none is waiting
    yet, and none otherwise, however many watchers it queues. *)
Theorem queueWatcher_requests_one_flush flush ws s :
  flushing s = false → tracked s → production || async = true →
  ∃ s', calls flush (QueueWatcher <$> ws) s = (s', Done) ∧
        next_ticks (trace s') =
          next_ticks (trace s) +
          (if waiting s || bool_decide (ws = []) then 0 else 1).
Proof.
  revert s. induction ws as [|w ws IH]; intros s Hf Htr Hmode.
  { exists s. split; [done|]. rewrite orb_true_r. lia. }
  rewrite fmap_cons, calls_cons.
  change (call flush (QueueWatcher w) s) with (queueWatcher flush w s).
  destruct (queueWatcher_pending flush w s Hf Htr (or_intror Hmode))
    as (s1 & Hq & Hf1 & Hw1 & Htr1 & _).
  destruct (queueWatcher_ticks flush w s Hf Htr Hmode) as (s1' & Hq' & Ht1).
  rewrite Hq in Hq'. injection Hq' as <-. rewrite Hq.
  destruct (IH s1 Hf1 Htr1 Hmode) as (s2 & -> & Ht2).
  exists s2. split; [done|]. rewrite Ht2, Ht1, Hw1. simpl.
  rewrite orb_false_r. lia.
Qed.
(* ------------------------------------------------------------------- *)
(** ** A flush in which nothing is queued *)















End Flush.

(* --------------------------------------------------------------------- *)
(** ** Concrete runs *)

Definition render_watcher (n : nat) : Watcher := mkWatcher n false "" n.
Definition user_watcher (n : nat) (e : string) : Watcher :=
  mkWatcher n true e 0.

Definition no_flush : World (U:=unit) → World * Outcome := λ s, (s, Done).
Definition no_effect : Effect (U:=unit) := λ u, (u, []).

(** Watcher 5 invalidates watcher 2 when it runs. *)
Definition late_run (w : Watcher) : Effect (U:=unit) :=
  λ u, if id w =? 5 then (u, [QueueWatcher (render_watcher 2)]) else (u, []).

Definition late_world : World :=
  (queueWatcher false true no_flush (render_watcher 5) (initial_world ())).1.

(** A user watcher that invalidates itself every time it runs. *)
Definition self_run (w : Watcher) : Effect (U:=unit) :=
  λ u, (u, [QueueWatcher w]).

Definition looping : Watcher := user_watcher 1 "count".

Definition loop_world (production : bool) : World :=
  flush_start (λ _, 0%Z)
    (queueWatcher production true no_flush looping (initial_world ())).1.

Lemma queueWatcher_deduplicates_witness :
  ∃ s', calls false true no_flush
          (QueueWatcher <$> [looping; render_watcher 2; looping; looping])
          (initial_world ()) = (s', Done) ∧
        occurrences 1 (id <$> queue s') = 1 ∧
        occurrences 1
          (run_ids (trace (flush_loop false true (λ _, None) (λ _, no_effect)
                             no_flush 10 (flush_start (λ _, 0%Z) s')).1)) ≤ 1.
Proof.
  destruct (queueWatcher_deduplicates false true (λ _, 0%Z) (λ _, None)
              (λ _, no_effect) no_flush
              [looping; render_watcher 2; looping; looping]
              (initial_world ()) eq_refl (tracked_initial ())
              (or_intror eq_refl))
    as (s' & Hc & _ & _ & Hw & _ & Hone & Hrun).
  exists s'. split; [exact Hc|]. split.
  - apply (Hone looping). by left.
  - apply (Hrun (Hw ltac:(done)) no_flush 10 1).
    intros w w' [[u Hin]|(b & u & Hb & _)]; [|done].
    by apply elem_of_nil in Hin.
Defined.

(** A watcher that invalidates itself during its first run only; the
    application state records that it has run. *)
Definition settling_run (w : Watcher) : Effect (U:=bool) :=
  λ ran, if ran then (true, []) else (true, [QueueWatcher w]).

(** Queued once between two flushes, it is run twice by the next flush. *)
Lemma queueWatcher_deduplicates_counterexample :
  let s := (queueWatcher false true (λ s, (s, Done)) looping
              (initial_world false)).1 in
  let r := flushSchedulerQueue false true false (λ _, 0%Z) (λ _, None)
             settling_run (λ _ _ u, (u, [])) (λ _ u, (u, []))
             (λ _ _, None) (λ _ _, false) (λ _ _, false) 10 s in
  occurrences 1 (id <$> queue s) = 1 ∧
  r.2 = Done ∧ run_ids (trace r.1) = [1; 1] ∧
  ¬ occurrences 1 (run_ids (trace r.1)) ≤ 1.
Proof. vm_compute. split_and!; [done|done|done|lia]. Qed.

Lemma flush_order_counterexample :
  let r := flushSchedulerQueue false true false (λ _, 0%Z) (λ _, None)
             late_run (λ _ _, no_effect) (λ _, no_effect) (λ _ _, None)
             (λ _ _, false) (λ _ _, false) 10 late_world in
  r.2 = Done ∧ run_ids (trace r.1) = [5; 2] ∧
  ¬ StronglySorted le (run_ids (trace r.1)).
Proof.
  vm_compute. split_and!; [done|done|].
  intros [_ H]%StronglySorted_inv. apply Forall_cons in H as [H _]. lia.
Qed.

Lemma flush_runs_in_id_order_witness :
  StronglySorted le
    (id <$> queue (flush_start (λ _, 0%Z) late_world)) ∧
  ∀ fuel,
    sorted_from
      (S (index (flush_loop false true (λ _, None) late_run no_flush fuel
                   (flush_start (λ _, 0%Z) late_world)).1))
      (queue (flush_loop false true (λ _, None) late_run no_flush fuel
                (flush_start (λ _, 0%Z) late_world)).1).
Proof.
  destruct (flush_runs_in_id_order false true (λ _, 0%Z) (λ _, None) late_run
              no_flush late_world eq_refl) as ((H1 & _) & _ & H3 & _).
  split; [exact H1|exact H3].
Defined.


(** The same watcher in a development build: 101 runs, one diagnostic. *)
Example runaway_development_run :
  let r := flush_loop false true (λ _, None) self_run no_flush 300
             (loop_world false) in
  r.2 = Done ∧ run_ids (trace r.1) = replicate 101 1 ∧
  warnings (trace r.1) = [(infinite_loop_message looping, 0)].
Proof. vm_compute. done. Qed.

(** Two watchers that invalidate each other: neither is left invalidated
    by its own run, so the check never fires and the loop goes on, in a
    development build too. *)
Definition mutual_run (w : Watcher) : Effect (U:=unit) :=
  λ u, (u, [QueueWatcher (render_watcher (3 - id w))]).

Example mutual_invalidation_undetected :
  let s := (queueWatcher false true no_flush (render_watcher 1)
              (initial_world ())).1 in
  let r := flush_loop false true (λ _, None) mutual_run no_flush 300
             (flush_start (λ _, 0%Z) s) in
  r.2 = OutOfFuel ∧ length (run_ids (trace r.1)) = 300 ∧
  take 4 (run_ids (trace r.1)) = [1; 2; 1; 2] ∧
  warnings (trace r.1) = [].
Proof. vm_compute. done. Qed.



Lemma queueWatcher_requests_one_flush_witness :
  ∃ s', calls false true no_flush
          (QueueWatcher <$> [render_watcher 3; render_watcher 1;
                             render_watcher 3])
          (initial_world ()) = (s', Done) ∧
        next_ticks (trace s') = 1.
Proof.
  destruct (queueWatcher_requests_one_flush false true no_flush
              [render_watcher 3; render_watcher 1; render_watcher 3]
              (initial_world ()) eq_refl (tracked_initial ()) eq_refl)
    as (s' & Hc & Ht).
  exists s'. split; [exact Hc|exact Ht].
Defined.

(** Three render watchers queued out of order and one kept-alive component
    waiting to be activated. *)
Definition batch_world : World (U:=unit) :=
  queueActivatedComponent 7
    (calls false true no_flush
       (QueueWatcher <$> [render_watcher 3; render_watcher 1;
                          render_watcher 2])
       (initial_world ())).1.

Example quiet_flush_run :
  trace
    (flushSchedulerQueue false true true (λ _, 0%Z) (λ _, None)
       (λ _, no_effect) (λ _ _, no_effect) (λ _, no_effect)
       (λ _ c, Some c) (λ _ _, true) (λ _ _, false) 4 batch_world).1 =
  [EvNextTick;
   EvRun (render_watcher 1); EvRun (render_watcher 2);
   EvRun (render_watcher 3);
   EvActivate 7;
   EvHook 3 "updated"; EvHook 2 "updated"; EvHook 1 "updated";
   EvDevtoolsFlush].
Proof. vm_compute. reflexivity. Qed.


End Scheduler.

(* ===================================================================== *)
(** * core/components/keep-alive.js *)
(* ===================================================================== *)

Module KeepAlive.

(** Component instances are references; they are identified by a number. *)
Definition Component := nat.

(** A call either returns or throws. *)
Inductive Completion (A : Type) :=
| Normal (a : A)
| Throw (err : string).
Arguments Normal {A} a.
Arguments Throw {A} err.

(** [vnode.componentOptions]: the constructor's [cid] and [options.name],
    and the tag the component was used under. *)
Record VNodeComponentOptions := mkOptions {
  Ctor_cid : nat;
  Ctor_options_name : option string;
  options_tag : option string }.

(** JavaScript numbers.  A number other than NaN is represented by the text
    that ToString gives for it ([1], [2.5], [1e+21], [Infinity]), which
    determines the number up to the sign of zero.  The operations applied
    to numbers here -- [===], truthiness, the conversion to a property name
    and [parseInt], which converts its argument to a string first -- depend
    on nothing else. *)
Inductive JSNumber :=
| NaN
| Num (text : string).

Definition Number_toString (n : JSNumber) : string :=
  match n with
  | NaN => "NaN"
  | Num text => text
  end.

(** The values found in [vnode.key], [keyToCache] and [keys]: [undefined]
    (for [vnode.key], also [null]), a string or a number. *)
Inductive Key :=
| KeyUndefined
| KeyString (s : string)
| KeyNumber (n : JSNumber).

#[global] Instance JSNumber_eq_dec : EqDecision JSNumber.
Proof. solve_decision. Defined.
#[global] Instance Key_eq_dec : EqDecision Key.
Proof. solve_decision. Defined.

(** [a === b]: NaN is not equal to itself. *)
Definition strict_eq (a b : Key) : bool :=
  match a, b with
  | KeyUndefined, KeyUndefined => true
  | KeyString s, KeyString t => String.eqb s t
  | KeyNumber (Num s), KeyNumber (Num t) => String.eqb s t
  | _, _ => false
  end.

(** The property that [cache[key]] reads or writes: the key converted to a
    string. *)
Definition property_name (k : Key) : string :=
  match k with
  | KeyUndefined => "undefined"
  | KeyString s => s
  | KeyNumber n => Number_toString n
  end.

(** The fields of a VNode that keep-alive reads or writes.  A vnode with
    [componentOptions] was built by [createComponent], which gives it a
    [data] object; [data_keepAlive] is [vnode.data.keepAlive]. *)
Record VNode := mkVNode {
  tag : option string;
  key : Key;
  componentInstance : option Component;
  componentOptions : option VNodeComponentOptions;
  data_keepAlive : bool }.

Record CacheEntry := mkEntry {
  entry_name : option string;
  entry_tag : option string;
  entry_componentInstance : option Component }.

(** [include] / [exclude]: a comma-separated string, a regular expression
    (represented by its [test] method) or an array of names. *)
Inductive Pattern :=
| PatString (s : string)
| PatRegExp (test : string → bool)
| PatArray (names : list string).

(** The [max] prop, of type [String | Number]. *)
Inductive MaxProp :=
| MaxUndefined
| MaxNumber (n : JSNumber)
| MaxString (s : string).

(** Truthiness of a [?string]. *)
Definition truthy (o : option string) : bool :=
  match o with
  | Some s => negb (String.eqb s "")
  | None => false
  end.

Definition pattern_truthy (o : option Pattern) : bool :=
  match o with
  | Some (PatString s) => negb (String.eqb s "")
  | Some _ => true
  | None => false
  end.

(** ** JavaScript objects used as dictionaries

    Properties are kept in insertion order; assigning an existing property
    keeps its place. *)
Fixpoint obj_get {V} (k : string) (o : list (string * V)) : option V :=
  match o with
  | [] => None
  | (k', v) :: o' => if String.eqb k k' then Some v else obj_get k o'
  end.

Fixpoint obj_set {V} (k : string) (v : V) (o : list (string * V))
    : list (string * V) :=
  match o with
  | [] => [(k, v)]
  | (k', v') :: o' =>
      if String.eqb k k' then (k, v) :: o' else (k', v') :: obj_set k v o'
  end.

(** Value of a string of decimal digits. *)
Definition digit_value (c : ascii) : option N :=
  let n := N_of_ascii c in
  if ((48 <=? n) && (n <=? 57))%N then Some (n - 48)%N else None.

Fixpoint parse_digits (acc : N) (s : string) : option N :=
  match s with
  | EmptyString => Some acc
  | String c s' =>
      match digit_value c with
      | Some d => parse_digits (acc * 10 + d)%N s'
      | None => None
      end
  end.

(** A property name that is a canonical array index (an integer below
    2^32 - 1 written without sign or leading zeros). *)
Definition array_index (k : string) : option N :=
  match k with
  | EmptyString => None
  | _ =>
      match parse_digits 0 k with
      | Some n =>
          if String.eqb (pretty n) k && (n <? 4294967295)%N then Some n
          else None
      | None => None
      end
  end.

Fixpoint insert_index (x : N * string) (l : list (N * string))
    : list (N * string) :=
  match l with
  | [] => [x]
  | y :: l' => if (x.1 <=? y.1)%N then x :: l else y :: insert_index x l'
  end.

(** [for (const key in obj)] on an object without prototype: array indices
    in ascending numeric order, then the other names in insertion order. *)
Definition for_in_keys {V} (o : list (string * V)) : list string :=
  (foldr insert_index []
     (omap (λ kv, (λ n, (n, kv.1)) <$> array_index kv.1) o)).*2 ++
  filter (λ k, array_index k = None) o.*1.

(** ** Helpers *)

Definition getComponentName (opts : option VNodeComponentOptions)
    : option string :=
  match opts with
  | None => None
  | Some o =>
      if truthy (Ctor_options_name o) then Ctor_options_name o
      else options_tag o
  end.

(** [pattern.split(',')] *)
Fixpoint split_comma (s : string) : list string :=
  match s with
  | EmptyString => [EmptyString]
  | String c s' =>
      if Ascii.eqb c "," then EmptyString :: split_comma s'
      else match split_comma s' with
           | x :: r => String c x :: r
           | [] => [String c EmptyString]
           end
  end.

Definition matches (pattern : Pattern) (name : string) : bool :=
  match pattern with
  | PatArray names => bool_decide (name ∈ names)
  | PatString s => bool_decide (name ∈ split_comma s)
  | PatRegExp test => test name
  end.

(** Modelled from the spec: [remove] of shared/util is not part of the
    sources; it takes the item out of the array, which is what moving a key
    to the most-recently-used position and pruning an entry rely on.  The
    element taken out is the one [indexOf] finds: the first that is
    strictly equal to the item. *)
Fixpoint remove (arr : list Key) (item : Key) : list Key :=
  match arr with
  | [] => []
  | x :: arr' => if strict_eq x item then arr' else x :: remove arr' item
  end.

(** ** [parseInt] *)

Definition is_space (c : ascii) : bool :=
  let n := N_of_ascii c in
  bool_decide (n ∈ [9; 10; 11; 12; 13; 32; 160]%N).

Fixpoint skip_spaces (s : string) : string :=
  match s with
  | String c s' => if is_space c then skip_spaces s' else s
  | EmptyString => s
  end.

Definition radix_digit (radix : N) (c : ascii) : option N :=
  let n := N_of_ascii c in
  let d := if ((48 <=? n) && (n <=? 57))%N then Some (n - 48)%N
           else if ((97 <=? n) && (n <=? 122))%N then Some (n - 87)%N
           else if ((65 <=? n) && (n <=? 90))%N then Some (n - 55)%N
           else None in
  match d with
  | Some v => if (v <? radix)%N then Some v else None
  | None => None
  end.

(** Longest prefix of digits of the radix; [None] when it is empty. *)
Fixpoint parse_prefix (radix : N) (acc : option N) (s : string) : option N :=
  match s with
  | EmptyString => acc
  | String c s' =>
      match radix_digit radix c with
      | Some d => parse_prefix radix (Some (default 0 acc * radix + d)%N) s'
      | None => acc
      end
  end.

(** [parseInt(string)] with no radix argument; [None] is [NaN]. *)
Definition parseInt_string (s : string) : option Z :=
  let s := skip_spaces s in
  let '(sign, s) :=
    match s with
    | String "-" s' => ((-1)%Z, s')
    | String "+" s' => (1%Z, s')
    | _ => (1%Z, s)
    end in
  let '(radix, s) :=
    match s with
    | String "0" (String "x" s') => (16%N, s')
    | String "0" (String "X" s') => (16%N, s')
    | _ => (10%N, s)
    end in
  (λ n, (sign * Z.of_N n)%Z) <$> parse_prefix radix None s.

(** [parseInt(this.max)]: the argument is converted to a string first. *)
Definition parseInt (m : MaxProp) : option Z :=
  match m with
  | MaxUndefined => None
  | MaxNumber n => parseInt_string (Number_toString n)
  | MaxString s => parseInt_string s
  end.

Definition max_truthy (m : MaxProp) : bool :=
  match m with
  | MaxUndefined => false
  | MaxNumber NaN => false
  | MaxNumber (Num text) => negb (String.eqb text "0")
  | MaxString s => negb (String.eqb s "")
  end.

(** [this.max && keys.length > parseInt(this.max)] *)
Definition over_max (m : MaxProp) (len : nat) : bool :=
  max_truthy m &&
  match parseInt m with
  | Some n => (n <? Z.of_nat len)%Z
  | None => false
  end.

(** ** The keep-alive instance *)

Record Instance := mkInstance {
  cache : list (string * option CacheEntry);
  keys : list Key;
  vnodeToCache : option VNode;
  keyToCache : Key;
  include : option Pattern;
  exclude : option Pattern;
  max : MaxProp;
  _vnode : option VNode;
  (** instances on which [$destroy()] was called, in call order *)
  destroy_calls : list Component }.

Definition set_cache c (ka : Instance) : Instance :=
  mkInstance c (keys ka) (vnodeToCache ka) (keyToCache ka) (include ka)
    (exclude ka) (max ka) (_vnode ka) (destroy_calls ka).
Definition set_keys k (ka : Instance) : Instance :=
  mkInstance (cache ka) k (vnodeToCache ka) (keyToCache ka) (include ka)
    (exclude ka) (max ka) (_vnode ka) (destroy_calls ka).
Definition set_vnodeToCache v (ka : Instance) : Instance :=
  mkInstance (cache ka) (keys ka) v (keyToCache ka) (include ka)
    (exclude ka) (max ka) (_vnode ka) (destroy_calls ka).
Definition set_keyToCache k (ka : Instance) : Instance :=
  mkInstance (cache ka) (keys ka) (vnodeToCache ka) k (include ka)
    (exclude ka) (max ka) (_vnode ka) (destroy_calls ka).
Definition set_include p (ka : Instance) : Instance :=
  mkInstance (cache ka) (keys ka) (vnodeToCache ka) (keyToCache ka) p
    (exclude ka) (max ka) (_vnode ka) (destroy_calls ka).
Definition set_exclude p (ka : Instance) : Instance :=
  mkInstance (cache ka) (keys ka) (vnodeToCache ka) (keyToCache ka)
    (include ka) p (max ka) (_vnode ka) (destroy_calls ka).
Definition set_max m (ka : Instance) : Instance :=
  mkInstance (cache ka) (keys ka) (vnodeToCache ka) (keyToCache ka)
    (include ka) (exclude ka) m (_vnode ka) (destroy_calls ka).
Definition set_vnode v (ka : Instance) : Instance :=
  mkInstance (cache ka) (keys ka) (vnodeToCache ka) (keyToCache ka)
    (include ka) (exclude ka) (max ka) v (destroy_calls ka).
Definition call_destroy c (ka : Instance) : Instance :=
  mkInstance (cache ka) (keys ka) (vnodeToCache ka) (keyToCache ka)
    (include ka) (exclude ka) (max ka) (_vnode ka) (destroy_calls ka ++ [c]).

(** [created]: the props come from the parent; [keyToCache] does not exist
    yet and reads as [undefined]. *)
Definition created (include exclude : option Pattern) (max : MaxProp)
    : Instance :=
  mkInstance [] [] None KeyUndefined include exclude max None [].

Definition pruneCacheEntry (key : Key) (current : option VNode)
    (ka : Instance) : Completion Instance :=
  let finish ka :=
    Normal (set_keys (remove (keys ka) key)
              (set_cache (obj_set (property_name key) None (cache ka)) ka)) in
  match obj_get (property_name key) (cache ka) with
  | Some (Some entry) =>
      if match current with
         | None => true
         | Some cur => negb (bool_decide (entry_tag entry = tag cur))
         end
      then
        match entry_componentInstance entry with
        | Some c => finish (call_destroy c ka)
        | None => Throw "TypeError: Cannot read properties of undefined"
        end
      else finish ka
  | _ => finish ka
  end.

(** Body of the [for ... in] loop of [pruneCache]: the keys enumerated are
    property names, that is, strings. *)
Fixpoint pruneCache_loop (filter : string → bool) (current : option VNode)
    (ks : list string) (ka : Instance) : Completion Instance :=
  match ks with
  | [] => Normal ka
  | key :: ks' =>
      match
        match obj_get key (cache ka) with
        | Some (Some entry) =>
            if truthy (entry_name entry) &&
               negb (filter (default "" (entry_name entry)))
            then pruneCacheEntry (KeyString key) current ka
            else Normal ka
        | _ => Normal ka
        end
      with
      | Normal ka' => pruneCache_loop filter current ks' ka'
      | Throw e => Throw e
      end
  end.

Definition pruneCache (filter : string → bool) (ka : Instance)
    : Completion Instance :=
  pruneCache_loop filter (_vnode ka) (for_in_keys (cache ka)) ka.

Definition cacheVNode (ka : Instance) : Completion Instance :=
  match vnodeToCache ka with
  | Some v =>
      let ka := set_cache
                  (obj_set (property_name (keyToCache ka))
                     (Some (mkEntry (getComponentName (componentOptions v))
                              (tag v) (componentInstance v)))
                     (cache ka)) ka in
      let ka := set_keys (keys ka ++ [keyToCache ka]) ka in
      match
        if over_max (max ka) (length (keys ka))
        then pruneCacheEntry (default KeyUndefined (head (keys ka)))
               (_vnode ka) ka
        else Normal ka
      with
      | Normal ka => Normal (set_vnodeToCache None ka)
      | Throw e => Throw e
      end
  | None => Normal ka
  end.

Fixpoint destroyed_loop (ks : list string) (ka : Instance)
    : Completion Instance :=
  match ks with
  | [] => Normal ka
  | key :: ks' =>
      match pruneCacheEntry (KeyString key) None ka with
      | Normal ka' => destroyed_loop ks' ka'
      | Throw e => Throw e
      end
  end.

Definition destroyed (ka : Instance) : Completion Instance :=
  destroyed_loop (for_in_keys (cache ka)) ka.

(** [mounted] also registers the two watchers below. *)
Definition mounted (ka : Instance) : Completion Instance := cacheVNode ka.
Definition updated (ka : Instance) : Completion Instance := cacheVNode ka.

(** The watcher callbacks registered by [mounted]; [val] is the new value
    of the prop. *)
Definition matches_val (val : option Pattern) (name : string) : bool :=
  match val with
  | Some p => matches p name
  | None => false
  end.

Definition watch_include (val : option Pattern) (ka : Instance)
    : Completion Instance :=
  pruneCache (λ name, matches_val val name) (set_include val ka).

Definition watch_exclude (val : option Pattern) (ka : Instance)
    : Completion Instance :=
  pruneCache (λ name, negb (matches_val val name)) (set_exclude val ka).

Section Render.
(** [getFirstComponentChild] of core/vdom/helpers is not part of the
    sources. *)
Variable getFirstComponentChild : list VNode → option VNode.

(** The key of [render]: [vnode.key], or when that is [undefined] or
    [null] the string made of the constructor id and the tag. *)
Definition cache_key (vnode : VNode) (co : VNodeComponentOptions) : Key :=
  match key vnode with
  | KeyUndefined =>
      KeyString
        (pretty (Ctor_cid co) +:+
         (if truthy (options_tag co)
          then "::" +:+ default "" (options_tag co) else ""))
  | k => k
  end.

(** The pattern check of [render]: not included, or excluded. *)
Definition filtered_out (ka : Instance) (name : option string) : bool :=
  (pattern_truthy (include ka) &&
   (negb (truthy name) ||
    negb (matches_val (include ka) (default "" name)))) ||
  (pattern_truthy (exclude ka) && truthy name &&
   matches_val (exclude ka) (default "" name)).

(** [render]: returns the vnode to display.  [slot] is
    [this.$slots.default]. *)
Definition render (slot : option (list VNode)) (ka : Instance)
    : option VNode * Instance :=
  let vnode := slot ≫= getFirstComponentChild in
  match vnode with
  | Some v =>
      match componentOptions v with
      | Some co =>
          let name := getComponentName (Some co) in
          if filtered_out ka name then (Some v, ka)
          else
            let k := cache_key v co in
            match obj_get (property_name k) (cache ka) with
            | Some (Some entry) =>
                (Some (mkVNode (tag v) (key v)
                         (entry_componentInstance entry)
                         (componentOptions v) true),
                 set_keys (remove (keys ka) k ++ [k]) ka)
            | _ =>
                let v' := mkVNode (tag v) (key v) (componentInstance v)
                            (componentOptions v) true in
                (Some v', set_keyToCache k (set_vnodeToCache (Some v') ka))
            end
      | None => (Some v, ka)
      end
  | None => (slot ≫= head, ka)
  end.

(** ** Life of a keep-alive instance

    What happens to the instance between [created] and [destroyed]: a
    render, whose result becomes [_vnode]; the patch that follows it, which
    stores the child's component instance on the vnode waiting to be cached;
    the [mounted] / [updated] hooks; changes of the props.  A change of
    [include] or [exclude] runs the watcher registered by [mounted]; no
    watcher is registered for [max], whose new value is read by the next
    [cacheVNode]. *)
Inductive Op :=
| OpRender (slot : option (list VNode))
| OpPatch (c : Component)
| OpHook
| OpInclude (val : option Pattern)
| OpExclude (val : option Pattern)
| OpMax (val : MaxProp).

Definition step (op : Op) (ka : Instance) : Completion Instance :=
  match op with
  | OpRender slot =>
      let '(v, ka') := render slot ka in Normal (set_vnode v ka')
  | OpPatch c =>
      Normal (set_vnodeToCache
                ((λ v, mkVNode (tag v) (key v) (Some c) (componentOptions v)
                         (data_keepAlive v)) <$> vnodeToCache ka) ka)
  | OpHook => cacheVNode ka
  | OpInclude val => watch_include val ka
  | OpExclude val => watch_exclude val ka
  | OpMax val => Normal (set_max val ka)
  end.

Fixpoint steps (ops : list Op) (ka : Instance) : Completion Instance :=
  match ops with
  | [] => Normal ka
  | op :: ops' =>
      match step op ka with
      | Normal ka' => steps ops' ka'
      | Throw e => Throw e
      end
  end.

(* --------------------------------------------------------------------- *)
(** ** Facts about objects *)

Lemma obj_get_set_eq {V} k (v : V) o : obj_get k (obj_set k v o) = Some v.
Proof.
induction o as [|[k' v'] o IH]; simpl.
- by rewrite String.eqb_refl.
- destruct (String.eqb_spec k k'); simpl.
  + by rewrite String.eqb_refl.
  + destruct (String.eqb_spec k k'); [done|]. exact IH.
Qed.

Lemma obj_get_set_ne {V} k k' (v : V) o :
  k ≠ k' → obj_get k' (obj_set k v o) = obj_get k' o.
Proof.
intros Hne. induction o as [|[k0 v0] o IH]; simpl.
- destruct (String.eqb_spec k' k); [congruence|done].
- destruct (String.eqb_spec k k0) as [->|]; simpl.
  + destruct (String.eqb_spec k' k0); [congruence|done].
  + destruct (String.eqb_spec k' k0); [done|]. exact IH.
Qed.



Lemma obj_set_keys_in {V} k (v : V) o :
  k ∈ o.*1 → (obj_set k v o).*1 = o.*1.
Proof.
induction o as [|[k0 v0] o IH]; simpl; [by intros ?%elem_of_nil|].
destruct (String.eqb_spec k k0) as [->|]; simpl; [done|].
intros [?|?]%elem_of_cons; [done|]. f_equal. by apply IH.
Qed.

Lemma obj_set_keys_fresh {V} k (v : V) o :
  k ∉ o.*1 → (obj_set k v o).*1 = o.*1 ++ [k].
Proof.
induction o as [|[k0 v0] o IH]; simpl; [done|].
intros [? ?]%not_elem_of_cons.
destruct (String.eqb_spec k k0); [done|]. simpl. f_equal. by apply IH.
Qed.

Lemma obj_set_NoDup {V} k (v : V) o : NoDup o.*1 → NoDup (obj_set k v o).*1.
Proof.
intros Hnd. destruct (decide (k ∈ o.*1)).
- by rewrite obj_set_keys_in.
- rewrite obj_set_keys_fresh by done. apply NoDup_app. split_and!; [done| |].
  + intros x Hx ->%list_elem_of_singleton. done.
  + apply NoDup_singleton.
Qed.

(* --------------------------------------------------------------------- *)
(** ** Facts about [remove] *)

Lemma strict_eq_eq a b : strict_eq a b = true → a = b.
Proof.
destruct a as [|s|[|s]], b as [|t|[|t]]; simpl; try done;
  intros ?%String.eqb_eq; by subst.
Qed.

(** A string key. *)
Definition plain (k : Key) : bool :=
  match k with
  | KeyString _ => true
  | _ => false
  end.

Lemma strict_eq_plain k : plain k = true → strict_eq k k = true.
Proof. destruct k; try done. intros _. apply String.eqb_refl. Qed.

Lemma strict_eq_ne a b : strict_eq b b = true → strict_eq a b = false → a ≠ b.
Proof. intros Hb Hab ->. congruence. Qed.

Lemma remove_sublist l k : remove l k `sublist_of` l.
Proof.
induction l as [|x l IH]; simpl; [done|].
destruct (strict_eq x k); [by apply sublist_cons|by apply sublist_skip].
Qed.

Lemma elem_of_remove_1 l k x : x ∈ remove l k → x ∈ l.
Proof. intros Hx. eapply elem_of_sublist; [exact Hx|apply remove_sublist]. Qed.

Lemma elem_of_remove_ne l k x : x ≠ k → x ∈ l → x ∈ remove l k.
Proof.
intros Hne. induction l as [|y l IH]; simpl; [done|].
destruct (strict_eq y k) eqn:Hy.
- apply strict_eq_eq in Hy as ->. by intros [?|?]%elem_of_cons.
- intros [->|?]%elem_of_cons; [by left|]. right. by apply IH.
Qed.

Lemma remove_length_le l k : length (remove l k) ≤ length l.
Proof. apply sublist_length, remove_sublist. Qed.

Lemma remove_length l k :
  k ∈ l → strict_eq k k = true → S (length (remove l k)) = length l.
Proof.
intros Hin Hk. induction l as [|x l IH]; simpl; [by apply elem_of_nil in Hin|].
destruct (strict_eq x k) eqn:Hx; [done|].
apply elem_of_cons in Hin as [->|Hin]; [congruence|]. simpl. f_equal.
by apply IH.
Qed.

Lemma remove_head x l : strict_eq x x = true → remove (x :: l) x = l.
Proof. intros Hx. simpl. by rewrite Hx. Qed.

Lemma remove_snoc l k : k ∉ l → strict_eq k k = true → remove (l ++ [k]) k = l.
Proof.
intros Hk Hs. induction l as [|z l IH]; simpl.
- by rewrite Hs.
- apply not_elem_of_cons in Hk as [Hz Hl].
  destruct (strict_eq z k) eqn:Hzk.
  + apply strict_eq_eq in Hzk. congruence.
  + by rewrite IH.
Qed.

Lemma remove_move_perm l k :
  k ∈ l → strict_eq k k = true → remove l k ++ [k] ≡ₚ l.
Proof.
intros Hin Hs. induction l as [|y l IH]; simpl; [by apply elem_of_nil in Hin|].
destruct (strict_eq y k) eqn:Hy.
- apply strict_eq_eq in Hy as ->. symmetry. apply Permutation_cons_append.
- apply elem_of_cons in Hin as [->|Hin]; [congruence|]. simpl.
  constructor. by apply IH.
Qed.


Lemma filter_all {A} (P : A → Prop) `{∀ x, Decision (P x)} (l : list A) :
  (∀ x, x ∈ l → P x) → filter P l = l.
Proof.
induction l as [|x l IH]; intros Hall; [done|].
rewrite filter_cons, decide_True by (apply Hall; by left).
f_equal. apply IH. intros y Hy. apply Hall. by right.
Qed.

Lemma filter_remove_sublist (P : Key → Prop) `{∀ x, Decision (P x)} l k :
  filter P (remove l k) `sublist_of` filter P l.
Proof.
induction l as [|x l IH]; simpl; [done|].
rewrite (filter_cons _ x l).
destruct (strict_eq x k).
- destruct (decide (P x)); [by apply sublist_cons|done].
- rewrite filter_cons. destruct (decide (P x)); [by apply sublist_skip|done].
Qed.

(** The string keys of [l]. *)
Definition plain_keys (l : list Key) : list Key :=
  filter (λ k, plain k = true) l.

(** When no string key is repeated, removing a string key takes out its
    only occurrence. *)
Lemma remove_plain l s :
  NoDup (plain_keys l) →
  remove l (KeyString s) = filter (λ k, k ≠ KeyString s) l.
Proof.
unfold plain_keys. induction l as [|x l IH]; simpl; [done|].
rewrite (filter_cons (λ k, plain k = true)), (filter_cons (λ k, k ≠ _)).
intros Hnd. destruct (strict_eq x (KeyString s)) eqn:Hx.
- apply strict_eq_eq in Hx as ->. simpl in Hnd.
  apply NoDup_cons in Hnd as [Hni _].
  rewrite decide_False by (by intros Hne). symmetry. apply filter_all.
  intros y Hy ->. apply Hni. by apply list_elem_of_filter.
- assert (x ≠ KeyString s) as Hne.
  { apply strict_eq_ne; [apply String.eqb_refl|done]. }
  rewrite decide_True by done. f_equal. apply IH.
  destruct (decide (plain x = true)); [by apply NoDup_cons in Hnd as [_ ?]|done].
Qed.

Lemma remove_plain_gone l s :
  NoDup (plain_keys l) → KeyString s ∉ remove l (KeyString s).
Proof.
intros Hnd. rewrite remove_plain by done.
intros [? _]%list_elem_of_filter. done.
Qed.

Lemma plain_keys_remove l k :
  NoDup (plain_keys l) → NoDup (plain_keys (remove l k)).
Proof.
intros Hnd. eapply sublist_NoDup; [exact Hnd|]. apply filter_remove_sublist.
Qed.

(* --------------------------------------------------------------------- *)
(** ** The cache invariant *)

(** The cache holds an entry (not [null]) under the property [s]. *)
Definition live (ka : Instance) (s : string) : Prop :=
  ∃ e, obj_get s (cache ka) = Some (Some e).

(** Properties of the cache that hold an entry. *)
Definition live_keys (ka : Instance) : list string :=
  (filter (λ kv, is_Some kv.2) (cache ka)).*1.

(** Number of entries held by the cache. *)
Definition cache_size (ka : Instance) : nat := length (live_keys ka).

(** The keys of [U] are told apart by their property names: two of them
    that name the same property are strictly equal.  The number [1] and the
    string ["1"] are not, and NaN is not with itself. *)
Definition coherent (U : Key → Prop) : Prop :=
  ∀ k1 k2, U k1 → U k2 → property_name k1 = property_name k2 →
           strict_eq k1 k2 = true.

(** What [cache] and [keys] keep when the keys rendered are those of [U]:
    every entry held is named by a key of [keys], every string key of
    [keys] names an entry held, and no string key is repeated.  A number
    key may stay in [keys] after its entry is gone. *)
Definition core (U : Key → Prop) (ka : Instance) : Prop :=
  NoDup (cache ka).*1 ∧
  (∀ k, k ∈ keys ka → U k) ∧
  (∀ s, live ka s → ∃ k, k ∈ keys ka ∧ property_name k = s) ∧
  (∀ s, KeyString s ∈ keys ka → live ka s) ∧
  NoDup (plain_keys (keys ka)).

(** Moreover the vnode waiting to be cached is not in the cache yet. *)
Definition tidy (U : Key → Prop) (ka : Instance) : Prop :=
  core U ka ∧
  (is_Some (vnodeToCache ka) →
   U (keyToCache ka) ∧ ¬ live ka (property_name (keyToCache ka))).
Lemma obj_get_elem_of {V} k (v : V) o :
  NoDup o.*1 → obj_get k o = Some v ↔ (k, v) ∈ o.
Proof.
induction o as [|[k0 v0] o IH]; simpl; intros Hnd.
- split; [done|by intros ?%elem_of_nil].
- apply NoDup_cons in Hnd as [Hk0 Hnd]. rewrite elem_of_cons.
  destruct (String.eqb_spec k k0) as [->|Hne].
  + split; [intros [= ->]; by left|].
    intros [[= ->]|Hin]; [done|]. exfalso. apply Hk0.
    apply list_elem_of_fmap. by exists (k0, v).
  + rewrite IH by done. split; [by right|]. by intros [[= -> ->]|?].
Qed.

Lemma live_keys_spec ka k :
  NoDup (cache ka).*1 → k ∈ live_keys ka ↔ live ka k.
Proof.
intros Hnd. unfold live_keys, live. rewrite list_elem_of_fmap. split.
- intros ([k' v] & -> & [Hs Hin]%list_elem_of_filter). simpl in *.
  destruct Hs as [e ->]. exists e. by apply obj_get_elem_of.
- intros (e & He). exists (k, Some e). split; [done|].
  apply list_elem_of_filter. split; [by eexists|]. by apply obj_get_elem_of.
Qed.

Lemma live_keys_NoDup ka : NoDup (cache ka).*1 → NoDup (live_keys ka).
Proof.
unfold live_keys. generalize (cache ka). intros o.
induction o as [|[k v] o IH]; simpl; [constructor|].
intros [Hk Hnd]%NoDup_cons. rewrite filter_cons. simpl.
destruct (decide (is_Some v)); simpl; [|by apply IH].
constructor; [|by apply IH]. intros Hin. apply Hk.
apply list_elem_of_fmap in Hin as ([k' v'] & -> & Hin%list_elem_of_filter).
apply list_elem_of_fmap. exists (k', v'). naive_solver.
Qed.


Lemma tidy_created U i e m : tidy U (created i e m).
Proof.
split; [split_and!; simpl|simpl; by intros [? ?]].
- constructor.
- by intros k ?%elem_of_nil.
- by intros s [? ?].
- by intros s ?%elem_of_nil.
- constructor.
Qed.

Lemma live_prune s0 ka ka' s :
  cache ka' = obj_set s0 None (cache ka) →
  live ka' s ↔ live ka s ∧ s ≠ s0.
Proof.
intros Hc'. unfold live. rewrite Hc'.
destruct (decide (s0 = s)) as [->|Hne].
- rewrite obj_get_set_eq. naive_solver.
- rewrite obj_get_set_ne by done. naive_solver.
Qed.

Lemma live_insert s0 e0 ka ka' s :
  cache ka' = obj_set s0 (Some e0) (cache ka) →
  live ka' s ↔ live ka s ∨ s = s0.
Proof.
intros Hc'. unfold live. rewrite Hc'.
destruct (decide (s0 = s)) as [->|Hne].
- rewrite obj_get_set_eq. naive_solver.
- rewrite obj_get_set_ne by done. naive_solver.
Qed.

Lemma coherent_refl U k : coherent U → U k → strict_eq k k = true.
Proof. intros Hco Hk. by apply Hco. Qed.

(** An entry held under the property of a key of [U] was cached under that
    very key. *)
Lemma core_found U k ka :
  coherent U → core U ka → U k → live ka (property_name k) →
  k ∈ keys ka ∧ strict_eq k k = true.
Proof.
intros Hco (_ & HU & Hcov & _) Hk Hlive.
destruct (Hcov _ Hlive) as (k' & Hin & Hname).
assert (strict_eq k' k = true) as Heq by (apply Hco; auto).
apply strict_eq_eq in Heq as Hkk. subst k'. done.
Qed.

Lemma core_ext U ka ka' :
  cache ka' = cache ka → keys ka' = keys ka → core U ka → core U ka'.
Proof. unfold core, live. intros -> ->. done. Qed.

Lemma core_prune U key ka ka' :
  coherent U → core U ka → plain key = true ∨ key ∈ keys ka →
  cache ka' = obj_set (property_name key) None (cache ka) →
  keys ka' = remove (keys ka) key →
  core U ka'.
Proof.
intros Hco (Hnd & HU & Hcov & Hpl & Hnp) Hkey Hc' Hk'. split_and!.
- rewrite Hc'. by apply obj_set_NoDup.
- intros k Hk. rewrite Hk' in Hk. apply HU. by eapply elem_of_remove_1.
- intros s Hs.
  apply (live_prune (property_name key) ka ka') in Hs as [Hlive Hne]; [|done].
  destruct (Hcov s Hlive) as (k & Hin & Hname). exists k. split; [|done].
  rewrite Hk'. apply elem_of_remove_ne; [|done]. intros ->. done.
- intros s Hs. rewrite Hk' in Hs.
  apply (live_prune (property_name key) ka ka'); [done|]. split.
  + apply Hpl. by eapply elem_of_remove_1.
  + intros Hname.
    assert (key = KeyString s) as ->.
    { destruct Hkey as [Hp|Hin].
      - destruct key; try done. simpl in Hname. by subst.
      - symmetry. apply strict_eq_eq, Hco; [|by apply HU|done].
        apply HU. by eapply elem_of_remove_1. }
    by apply remove_plain_gone in Hs.
- rewrite Hk'. by apply plain_keys_remove.
Qed.

Lemma core_insert U k e ka ka' :
  core U ka → U k → ¬ live ka (property_name k) →
  cache ka' = obj_set (property_name k) (Some e) (cache ka) →
  keys ka' = keys ka ++ [k] →
  core U ka'.
Proof.
intros (Hnd & HU & Hcov & Hpl & Hnp) Hk Hfresh Hc' Hk'. split_and!.
- rewrite Hc'. by apply obj_set_NoDup.
- intros k' Hin. rewrite Hk' in Hin.
  apply elem_of_app in Hin as [?|Heq%list_elem_of_singleton]; subst; auto.
- intros s Hs.
  apply (live_insert (property_name k) e ka ka') in Hs as [Hlive| ->];
    [| |done].
  + destruct (Hcov s Hlive) as (k' & Hin & Hname). exists k'.
    split; [|done]. rewrite Hk'. apply elem_of_app. by left.
  + exists k. split; [|done]. rewrite Hk'. apply elem_of_app. right. by left.
- intros s Hs. rewrite Hk' in Hs.
  apply (live_insert (property_name k) e ka ka'); [done|].
  apply elem_of_app in Hs as [Hs|Heq%list_elem_of_singleton];
    [|subst k; by right].
  left. by apply Hpl.
- rewrite Hk'. unfold plain_keys. rewrite filter_app. apply NoDup_app.
  split_and!; [done| |].
  + intros x [Hx Hin]%list_elem_of_filter [_ Heq%list_elem_of_singleton]%list_elem_of_filter.
    subst x.
    destruct k as [|s|]; try done. apply Hfresh. by apply Hpl.
  + eapply sublist_NoDup; [apply NoDup_singleton|apply sublist_filter].
Qed.

Lemma core_perm U ka ka' :
  cache ka' = cache ka → keys ka' ≡ₚ keys ka → core U ka → core U ka'.
Proof.
intros Hc Hk (Hnd & HU & Hcov & Hpl & Hnp). unfold core, live.
rewrite Hc. split_and!; try done.
- intros k. rewrite Hk. apply HU.
- intros s Hs. destruct (Hcov s Hs) as (k & ? & ?). exists k. by rewrite Hk.
- intros s. rewrite Hk. apply Hpl.
- unfold plain_keys. by rewrite Hk.
Qed.

(** Under the invariant the cache holds at most as many entries as [keys]
    has keys. *)
Lemma cache_size_keys U ka : core U ka → cache_size ka ≤ length (keys ka).
Proof.
intros (Hnd & _ & Hcov & _). unfold cache_size.
rewrite <- (length_fmap property_name (keys ka)).
apply submseteq_length, NoDup_submseteq; [by apply live_keys_NoDup|].
intros s Hs%live_keys_spec; [|done].
destruct (Hcov s Hs) as (k & Hin & <-). apply list_elem_of_fmap. eauto.
Qed.

(** [pruneCacheEntry] when it returns. *)
Lemma pruneCacheEntry_Normal key current ka ka' :
  pruneCacheEntry key current ka = Normal ka' →
  cache ka' = obj_set (property_name key) None (cache ka) ∧
  keys ka' = remove (keys ka) key ∧
  vnodeToCache ka' = vnodeToCache ka ∧ keyToCache ka' = keyToCache ka ∧
  include ka' = include ka ∧ exclude ka' = exclude ka ∧
  max ka' = max ka ∧ _vnode ka' = _vnode ka.
Proof.
unfold pruneCacheEntry.
destruct (obj_get (property_name key) (cache ka)) as [[entry|]|];
  repeat case_match; intros [= <-]; done.
Qed.

Lemma pruneCacheEntry_tidy U key current ka ka' :
  coherent U → tidy U ka → plain key = true ∨ key ∈ keys ka →
  pruneCacheEntry key current ka = Normal ka' →
  tidy U ka' ∧ length (keys ka') ≤ length (keys ka) ∧ max ka' = max ka.
Proof.
intros Hco [Hcore Hpend] Hkey
  (Hc & Hk & Hv & Hkc & _ & _ & Hm & _)%pruneCacheEntry_Normal.
split_and!; [split| |done].
- by eapply core_prune.
- rewrite Hv, Hkc. intros Hs. destruct (Hpend Hs) as [HUk Hfresh].
  split; [done|]. intros Hl. apply Hfresh.
  by apply (live_prune (property_name key) ka ka') in Hl as [? _].
- rewrite Hk. apply remove_length_le.
Qed.

Lemma pruneCache_loop_tidy U filter current ks ka ka' :
  coherent U → tidy U ka → pruneCache_loop filter current ks ka = Normal ka' →
  tidy U ka' ∧ length (keys ka') ≤ length (keys ka) ∧ max ka' = max ka.
Proof.
intros Hco. revert ka. induction ks as [|key ks IH]; intros ka Hti; simpl.
{ intros [= <-]. done. }
destruct (match obj_get key (cache ka) with
          | Some (Some entry) => _ | _ => _ end) as [ka1|] eqn:H1; [|done].
intros H2.
assert (tidy U ka1 ∧ length (keys ka1) ≤ length (keys ka) ∧
        max ka1 = max ka) as (Hti1 & Hlen1 & Hm1).
{ repeat case_match; try (injection H1 as <-; done).
  eapply pruneCacheEntry_tidy; [done|done| |done]. by left. }
destruct (IH ka1 Hti1 H2) as (? & ? & ?). split_and!; [done|lia|congruence].
Qed.
Lemma over_max_limit mx m len :
  max_truthy mx = true → parseInt mx = Some m →
  over_max mx len = bool_decide (m < Z.of_nat len)%Z.
Proof.
intros Ht Hp. unfold over_max. rewrite Ht, Hp. simpl.
destruct (Z.ltb_spec m (Z.of_nat len)).
- by rewrite bool_decide_true.
- rewrite bool_decide_false; [done|lia].
Qed.


(** What a step that leaves [max] alone keeps: the [max] prop, and the
    bound on the number of keys when [max] sets one. *)
Definition bound_kept (ka ka' : Instance) : Prop :=
  max ka' = max ka ∧
  ∀ m, max_truthy (max ka) = true → parseInt (max ka) = Some m → (0 ≤ m)%Z →
       (Z.of_nat (length (keys ka)) ≤ m)%Z →
       (Z.of_nat (length (keys ka')) ≤ m)%Z.

Lemma bound_kept_shrink ka ka' :
  max ka' = max ka → length (keys ka') ≤ length (keys ka) →
  bound_kept ka ka'.
Proof. intros ? ?. split; [done|]. intros; lia. Qed.

Lemma cacheVNode_tidy U ka ka' :
  coherent U → tidy U ka → cacheVNode ka = Normal ka' →
  tidy U ka' ∧ bound_kept ka ka'.
Proof.
intros Hco [Hcore Hpend]. unfold cacheVNode.
destruct (vnodeToCache ka) as [v|] eqn:Hv.
2: { intros [= <-]. split; [split; [done|]|by apply bound_kept_shrink].
     rewrite Hv. by intros [? ?]. }
destruct (Hpend ltac:(done)) as [HUk Hfresh].
set (e := mkEntry _ _ _).
assert (core U (set_keys (keys ka ++ [keyToCache ka])
                  (set_cache (obj_set (property_name (keyToCache ka))
                                (Some e) (cache ka)) ka))) as Hcore1.
{ by eapply (core_insert U (keyToCache ka) e ka). }
set (ka1 := set_keys _ _) in *. simpl.
rewrite length_app. simpl.
destruct (over_max (max ka) (length (keys ka) + 1)) eqn:Hov.
- destruct (pruneCacheEntry _ _ ka1) as [ka2|] eqn:Hpr; [|done].
  intros [= <-].
  apply pruneCacheEntry_Normal in Hpr as (Hc2 & Hk2 & _ & _ & _ & _ & Hm2 & _).
  set (k0 := default KeyUndefined (head (keys ka ++ [keyToCache ka]))) in *.
  assert (k0 ∈ keys ka1 ∧ remove (keys ka1) k0 = tail (keys ka1))
    as [Hin0 Hrm].
  { unfold k0. simpl. destruct (keys ka) as [|x l] eqn:Hkeys; simpl.
    - split; [by left|]. rewrite (coherent_refl U); done.
    - split; [by left|]. rewrite (coherent_refl U); [done|done|].
      destruct Hcore as (_ & HU & _). apply HU. rewrite Hkeys. by left. }
  split; [split|apply bound_kept_shrink]; simpl.
  + eapply core_ext; [done|done|]. eapply (core_prune U k0 ka1); try done.
    by right.
  + by intros [? ?].
  + done.
  + rewrite Hk2, Hrm. simpl. destruct (keys ka); simpl; [lia|].
    rewrite length_app. simpl. lia.
- intros [= <-]. split; [split|split]; simpl.
  + by eapply core_ext; [..|exact Hcore1].
  + by intros [? ?].
  + done.
  + intros m Ht Hp Hm Hlen. rewrite (over_max_limit _ m) in Hov by done.
    apply bool_decide_eq_false in Hov. rewrite length_app. simpl. lia.
Qed.

Lemma render_tidy U slot ka v ka' :
  coherent U → tidy U ka →
  (∀ v0 co, slot ≫= getFirstComponentChild = Some v0 →
            componentOptions v0 = Some co → U (cache_key v0 co)) →
  render slot ka = (v, ka') →
  tidy U ka' ∧ length (keys ka') = length (keys ka) ∧ max ka' = max ka.
Proof.
intros Hco [Hcore Hpend] HU. unfold render.
destruct (slot ≫= getFirstComponentChild) as [v0|]; [|by intros [= <- <-]].
destruct (componentOptions v0) as [co|] eqn:Hco0; [|by intros [= <- <-]].
specialize (HU v0 co eq_refl Hco0).
destruct (filtered_out ka _); [by intros [= <- <-]|].
set (k := cache_key v0 co) in *.
destruct (obj_get (property_name k) (cache ka)) as [[entry|]|] eqn:Hget;
  intros [= <- <-].
- destruct (core_found U k ka Hco Hcore HU) as [Hin Hs]; [by exists entry|].
  split_and!; simpl; [|
    rewrite length_app; simpl; pose proof (remove_length _ _ Hin Hs); lia|done].
  split; [|done]. eapply core_perm; [..|exact Hcore]; [done|].
  simpl. by apply remove_move_perm.
- split_and!; simpl; [|done|done]. split; [done|]. simpl.
  intros _. split; [done|]. intros [e He]. simpl in He. congruence.
- split_and!; simpl; [|done|done]. split; [done|]. simpl.
  intros _. split; [done|]. intros [e He]. simpl in He. congruence.
Qed.

(** The key under which a render looks its child up. *)
Definition rendered_key (op : Op) : option Key :=
  match op with
  | OpRender slot =>
      match slot ≫= getFirstComponentChild with
      | Some v =>
          match componentOptions v with
          | Some co => Some (cache_key v co)
          | None => None
          end
      | None => None
      end
  | _ => None
  end.

(** The operation leaves the [max] prop alone. *)
Definition keeps_max (op : Op) : bool :=
  match op with
  | OpMax _ => false
  | _ => true
  end.

Lemma step_tidy U op ka ka' :
  coherent U → tidy U ka → (∀ k, rendered_key op = Some k → U k) →
  step op ka = Normal ka' →
  tidy U ka' ∧ (keeps_max op = true → bound_kept ka ka').
Proof.
intros Hco Hti HU. destruct op as [slot|c| |val|val|val]; simpl.
- destruct (render slot ka) as [v ka1] eqn:Hr. intros [= <-].
  assert (∀ v0 co, slot ≫= getFirstComponentChild = Some v0 →
            componentOptions v0 = Some co → U (cache_key v0 co)) as HU'.
  { intros v0 co Hv0 Hco0. apply HU. simpl. by rewrite Hv0, Hco0. }
  destruct (render_tidy U slot ka v ka1 Hco Hti HU' Hr)
    as ([Hc1 Hp1] & Hlen1 & Hm1).
  split; [split; [done|exact Hp1]|]. intros _.
  apply bound_kept_shrink; simpl; [done|lia].
- intros [= <-]. destruct Hti as [Hc Hpend]. split.
  + split; [done|]. simpl. intros [v Hv]. apply Hpend.
    destruct (vnodeToCache ka); [done|discriminate Hv].
  + intros _. by apply bound_kept_shrink.
- intros Hcv. destruct (cacheVNode_tidy U ka ka' Hco Hti Hcv). done.
- unfold watch_include, pruneCache. intros Hpr.
  apply (pruneCache_loop_tidy U) in Hpr as (? & ? & ?); [|done|done].
  split; [done|]. intros _. by apply bound_kept_shrink.
- unfold watch_exclude, pruneCache. intros Hpr.
  apply (pruneCache_loop_tidy U) in Hpr as (? & ? & ?); [|done|done].
  split; [done|]. intros _. by apply bound_kept_shrink.
- intros [= <-]. split; [done|]. done.
Qed.

Lemma steps_tidy U ops ka ka' :
  coherent U → tidy U ka → (∀ k, k ∈ omap rendered_key ops → U k) →
  steps ops ka = Normal ka' →
  tidy U ka' ∧ (forallb keeps_max ops = true → bound_kept ka ka').
Proof.
intros Hco. revert ka. induction ops as [|op ops IH]; intros ka Hti HU; simpl.
{ intros [= <-]. split; [done|]. intros _. by apply bound_kept_shrink. }
destruct (step op ka) as [ka1|] eqn:Hs; [|done]. intros Hrest.
destruct (step_tidy U op ka ka1 Hco Hti) as [Hti1 Hb1]; [|done|].
{ intros k Hk. apply HU. simpl. rewrite Hk. by left. }
destruct (IH ka1 Hti1) as [Hti2 Hb2]; [|done|].
{ intros k Hk. apply HU. simpl. destruct (rendered_key op); [by right|done]. }
split; [done|]. intros [Hop Hops]%andb_prop.
destruct (Hb1 Hop) as [Hm1 Hl1]. destruct (Hb2 Hops) as [Hm2 Hl2].
split; [congruence|].
intros m Ht Hp Hm Hlen. apply Hl2; rewrite ?Hm1; try done. by apply Hl1.
Qed.


(* --------------------------------------------------------------------- *)
(** ** Enumeration order and the [destroyed] hook *)












(* --------------------------------------------------------------------- *)
(** ** Specification of the cache *)

(** The keys under which the renders of [ops] look their child up are told
    apart by their property names. *)
Definition coherent_keys (ops : list Op) : Prop :=
  coherent (λ k, k ∈ omap rendered_key ops).

(** C4 (amended).  Take a [max] prop that is truthy and parses to a
    non-negative integer [m], and an instance that has gone through any
    renders, patches, [mounted]/[updated] hooks and changes of [include] and
    [exclude] since [created], but no change of [max], and whose children
    were rendered under keys that are told apart by their property names:
    the cache holds at most [m] entries.  A cache hit reuses the cached
    instance and moves the key to the end of [keys].  When the insertion
    makes [keys.length] exceed [max], the entry under the first key is
    removed, and [$destroy] is called on its instance unless its tag is
    the tag of the current [_vnode]. *)
Theorem keep_alive_cache_bounded inc exc mx m :
  max_truthy mx = true → parseInt mx = Some m → (0 ≤ m)%Z →
  (∀ ops ka,
     coherent_keys ops → forallb keeps_max ops = true →
     steps ops (created inc exc mx) = Normal ka →
     (Z.of_nat (cache_size ka) ≤ m)%Z ∧
     cache_size ka ≤ length (keys ka) ∧
     (Z.of_nat (length (keys ka)) ≤ m)%Z) ∧
  (∀ ka slot v co e,
     slot ≫= getFirstComponentChild = Some v →
     componentOptions v = Some co →
     filtered_out ka (getComponentName (Some co)) = false →
     obj_get (property_name (cache_key v co)) (cache ka) = Some (Some e) →
     ∃ v' ka', render slot ka = (Some v', ka') ∧
       componentInstance v' = entry_componentInstance e ∧
       keys ka' = remove (keys ka) (cache_key v co) ++ [cache_key v co] ∧
       last (keys ka') = Some (cache_key v co) ∧
       cache ka' = cache ka ∧ destroy_calls ka' = destroy_calls ka) ∧
  (∀ ka v k0 e0 c,
     max ka = mx → vnodeToCache ka = Some v →
     (m < Z.of_nat (length (keys ka ++ [keyToCache ka])))%Z →
     head (keys ka ++ [keyToCache ka]) = Some k0 →
     strict_eq k0 k0 = true →
     obj_get (property_name k0)
       (obj_set (property_name (keyToCache ka))
          (Some (mkEntry (getComponentName (componentOptions v)) (tag v)
                   (componentInstance v)))
          (cache ka)) = Some (Some e0) →
     entry_componentInstance e0 = Some c →
     ∃ ka', cacheVNode ka = Normal ka' ∧
       keys ka' = tail (keys ka ++ [keyToCache ka]) ∧
       obj_get (property_name k0) (cache ka') = Some None ∧
       destroy_calls ka' =
         destroy_calls ka ++
         match _vnode ka with
         | Some cur => if bool_decide (entry_tag e0 = tag cur) then [] else [c]
         | None => [c]
         end).
Proof.
intros Ht Hp Hm. split_and!.
- intros ops ka Hco Hmax Hs.
  destruct (steps_tidy _ ops _ ka Hco (tidy_created _ inc exc mx)
              ltac:(done) Hs) as ([Hcore _] & Hb).
  destruct (Hb Hmax) as [_ Hlen].
  pose proof (cache_size_keys _ ka Hcore) as Hsize.
  assert (Z.of_nat (length (keys ka)) ≤ m)%Z
    by (apply Hlen; simpl; done).
  split_and!; [lia|done|done].
- intros ka slot v co e Hv Hco Hf Hget. unfold render.
  rewrite Hv, Hco, Hf, Hget. eexists _, _. split; [done|]. simpl.
  split_and!; try done. apply last_snoc.
- intros ka v k0 e0 c Hmx Hv Hlen Hk0 Hs0 He0 Hc. unfold cacheVNode.
  rewrite Hv. simpl. rewrite Hmx, (over_max_limit mx m) by done.
  rewrite bool_decide_true by done. rewrite Hk0. simpl.
  unfold pruneCacheEntry. simpl. rewrite He0, Hc.
  assert (remove (keys ka ++ [keyToCache ka]) k0 =
          tail (keys ka ++ [keyToCache ka])) as Hrm.
  { destruct (keys ka ++ [keyToCache ka]) as [|x l]; [done|].
    injection Hk0 as ->. by apply remove_head. }
  destruct (_vnode ka) as [cur|]; simpl.
  + destruct (bool_decide (entry_tag e0 = tag cur)); simpl;
      eexists; (split; [done|]); simpl;
      rewrite ?app_nil_r, obj_get_set_eq; done.
  + eexists. split; [done|]. simpl. by rewrite obj_get_set_eq.
Qed.


(** The test of [coherent] on a list of keys. *)
Definition coherent_list (l : list Key) : bool :=
  forallb (λ k1,
    forallb (λ k2,
      implb (String.eqb (property_name k1) (property_name k2))
            (strict_eq k1 k2)) l) l.

Lemma coherent_list_sound l :
  coherent_list l = true → coherent (λ k, k ∈ l).
Proof.
unfold coherent_list. rewrite forallb_forall. intros Hall k1 k2 H1 H2 Hname.
apply list_elem_of_In in H1, H2. specialize (Hall k1 H1).
rewrite forallb_forall in Hall. specialize (Hall k2 H2).
rewrite Hname, String.eqb_refl in Hall. done.
Qed.


End Render.

(* --------------------------------------------------------------------- *)
(** ** A concrete life of a keep-alive instance *)

Definition first_component (children : list VNode) : option VNode :=
  head (filter (λ v, is_Some (componentOptions v)) children).

(** The placeholder vnode of component [name] with constructor id [n],
    used under the key [k]. *)
Definition keyed_vnode (n : nat) (name : string) (k : Key) : VNode :=
  mkVNode (Some ("vue-component-" +:+ pretty n +:+ "-" +:+ name)) k None
    (Some (mkOptions n (Some name) (Some name))) false.

(** The same without a key. *)
Definition component_vnode (n : nat) (name : string) : VNode :=
  keyed_vnode n name KeyUndefined.

(** Three components are displayed in turn under [max = 2]. *)
Definition tour : list Op :=
  [OpRender (Some [component_vnode 1 "a"]); OpPatch 11; OpHook;
   OpRender (Some [component_vnode 2 "b"]); OpPatch 12; OpHook;
   OpRender (Some [component_vnode 3 "c"]); OpPatch 13; OpHook].

(** The instance after the operations [ops]. *)
Definition after (ops : list Op) (mx : MaxProp) : Instance :=
  match steps first_component ops (created None None mx) with
  | Normal ka => ka
  | Throw _ => created None None mx
  end.

Definition after_tour : Instance := after tour (MaxNumber (Num "2")).

Example tour_result :
  steps first_component tour (created None None (MaxNumber (Num "2")))
    = Normal after_tour ∧
  keys after_tour = [KeyString "2::b"; KeyString "3::c"] ∧
  live_keys after_tour = ["2::b"; "3::c"] ∧
  destroy_calls after_tour = [11].
Proof. vm_compute. done. Qed.

Lemma keep_alive_cache_bounded_witness :
  (Z.of_nat (cache_size after_tour) ≤ 2)%Z.
Proof.
destruct (keep_alive_cache_bounded first_component None None
            (MaxNumber (Num "2")) 2 eq_refl eq_refl ltac:(done))
  as (Hbound & _ & _).
apply (Hbound tour after_tour).
- apply coherent_list_sound. vm_compute. reflexivity.
- reflexivity.
- vm_compute. reflexivity.
Defined.

(** The same three components, with [max] lowered from 2 to 1 before the
    third is displayed: the insertion evicts one entry and leaves two. *)
Definition lowered_tour : list Op :=
  take 6 tour ++ OpMax (MaxNumber (Num "1")) :: drop 6 tour.

Lemma keep_alive_cache_bounded_counterexample :
  let ka := after lowered_tour (MaxNumber (Num "2")) in
  steps first_component lowered_tour (created None None (MaxNumber (Num "2")))
    = Normal ka ∧
  max ka = MaxNumber (Num "1") ∧ parseInt (max ka) = Some 1%Z ∧
  live_keys ka = ["2::b"; "3::c"] ∧
  ¬ (Z.of_nat (cache_size ka) ≤ 1)%Z.
Proof. vm_compute. split_and!; try done. Qed.

(** Under [max = 1], a child displayed under the number [1] and then under
    the string ["1"], followed by two other children: the key [1] and the
    key ["1"] name the same entry, and the cache ends with two entries. *)
Definition mixed_tour : list Op :=
  [OpRender (Some [keyed_vnode 1 "a" (KeyNumber (Num "1"))]); OpPatch 11;
   OpHook;
   OpRender (Some [keyed_vnode 1 "a" (KeyString "1")]);
   OpRender (Some [component_vnode 2 "b"]); OpPatch 12; OpHook;
   OpRender (Some [component_vnode 3 "c"]); OpPatch 13; OpHook].

Example mixed_keys_exceed_max :
  let ka := after mixed_tour (MaxString "1") in
  steps first_component mixed_tour (created None None (MaxString "1"))
    = Normal ka ∧
  keys ka = [KeyString "2::b"; KeyString "3::c"] ∧
  live_keys ka = ["2::b"; "3::c"] ∧ cache_size ka = 2.
Proof. vm_compute. done. Qed.




(** The exemption for the displayed component does not apply in
    [destroyed]: the entry whose tag is the tag of [_vnode] is destroyed
    too. *)
Example destroyed_ignores_current_vnode :
  (tag <$> _vnode after_tour) = Some (Some "vue-component-3-c") ∧
  (destroy_calls <$>
     match destroyed after_tour with Normal ka => Some ka | _ => None end)
  = Some [11; 12; 13].
Proof. vm_compute. done. Qed.

(* --------------------------------------------------------------------- *)
(** ** Least recently used first *)

Section Recency.
Variable getFirstComponentChild : list VNode → option VNode.

(** A render that finds its component in the cache, under a key that
    [keys] holds once, hands out the cached instance, leaves the cache as
    it is and moves the key to the end of [keys]; the other keys keep their
    order. *)
Theorem render_hit_refreshes slot ka v co entry :
  slot ≫= getFirstComponentChild = Some v →
  componentOptions v = Some co →
  filtered_out ka (getComponentName (Some co)) = false →
  obj_get (property_name (cache_key v co)) (cache ka) = Some (Some entry) →
  NoDup (keys ka) → cache_key v co ∈ keys ka →
  strict_eq (cache_key v co) (cache_key v co) = true →
  let k := cache_key v co in
  let '(v', ka') := render getFirstComponentChild slot ka in
  (componentInstance <$> v') = Some (entry_componentInstance entry) ∧
  (data_keepAlive <$> v') = Some true ∧
  cache ka' = cache ka ∧
  last (keys ka') = Some k ∧
  remove (keys ka') k = remove (keys ka) k ∧
  keys ka' ≡ₚ keys ka.
Proof.
intros Hv Hco Hf Hget Hnd Hin Hs. cbv zeta.
unfold render. rewrite Hv, Hco, Hf, Hget. simpl.
set (k := cache_key v co) in *.
split_and!; try done.
- by rewrite last_snoc.
- apply remove_snoc; [|done]. intros Hk.
  apply (remove_move_perm _ _ Hin) in Hs as Hperm.
  rewrite <- Hperm in Hnd. apply NoDup_app in Hnd as (_ & Hdis & _).
  apply (Hdis k Hk). by left.
- by apply remove_move_perm.
Qed.

End Recency.

(** When the cache is full, caching one more component evicts the entry
    whose key is first in [keys], the one used least recently, and no
    other: the remaining keys move up, and the new key comes last. *)
Theorem cacheVNode_evicts_oldest ka ka' v m oldest rest :
  vnodeToCache ka = Some v → ¬ live ka (property_name (keyToCache ka)) →
  live ka (property_name oldest) → strict_eq oldest oldest = true →
  max_truthy (max ka) = true → parseInt (max ka) = Some m →
  keys ka = oldest :: rest → Z.of_nat (length (keys ka)) = m →
  cacheVNode ka = Normal ka' →
  keys ka' = rest ++ [keyToCache ka] ∧
  obj_get (property_name oldest) (cache ka') = Some None ∧
  obj_get (property_name (keyToCache ka)) (cache ka') =
    Some (Some (mkEntry (getComponentName (componentOptions v)) (tag v)
                  (componentInstance v))) ∧
  (∀ s, s ≠ property_name oldest → s ≠ property_name (keyToCache ka) →
        obj_get s (cache ka') = obj_get s (cache ka)).
Proof.
intros Hv Hfresh Hlive Hs Hmt Hmp Hkeys Hlen.
unfold cacheVNode. rewrite Hv. cbn [max keys set_keys set_cache].
rewrite (over_max_limit _ m) by done.
rewrite bool_decide_true by (rewrite length_app; simpl; lia).
rewrite Hkeys. cbn [head app default].
destruct (pruneCacheEntry _ _ _) as [ka1|] eqn:Hp; [|done].
intros [= <-]. apply pruneCacheEntry_Normal in Hp as (Hc & Hk & _).
cbn [cache keys set_keys set_cache set_vnodeToCache] in *.
unfold id in *. simpl in Hc, Hk.
assert (property_name oldest ≠ property_name (keyToCache ka)) as Hne.
{ intros Heq. apply Hfresh. by rewrite <- Heq. }
split_and!.
- rewrite Hk. by rewrite Hs.
- rewrite Hc. apply obj_get_set_eq.
- rewrite Hc. rewrite obj_get_set_ne by done. apply obj_get_set_eq.
- intros s Hs1 Hs2. rewrite Hc.
  rewrite obj_get_set_ne by congruence. by rewrite obj_get_set_ne by congruence.
Qed.

(** The tour, stopped before its last hook: [a] and [b] are cached, [c] is
    waiting to be. *)
Definition before_last_hook : Instance :=
  after (take 8 tour) (MaxNumber (Num "2")).

Lemma render_hit_refreshes_witness :
  last (keys (render first_component (Some [component_vnode 2 "b"])
                after_tour).2) = Some (KeyString "2::b").
Proof.
assert (NoDup (keys after_tour)) as Hnd
  by (apply (bool_decide_unpack _); vm_compute; exact I).
assert (KeyString "2::b" ∈ keys after_tour) as Hin
  by (apply (bool_decide_unpack _); vm_compute; exact I).
pose proof (render_hit_refreshes first_component
              (Some [component_vnode 2 "b"]) after_tour
              (component_vnode 2 "b") (mkOptions 2 (Some "b") (Some "b"))
              (mkEntry (Some "b") (Some "vue-component-2-b") (Some 12))
              eq_refl eq_refl eq_refl eq_refl Hnd Hin eq_refl) as H.
cbv zeta in H.
destruct (render first_component (Some [component_vnode 2 "b"]) after_tour)
  as [v' ka'].
destruct H as (_ & _ & _ & Hlast & _). exact Hlast.
Defined.

Lemma cacheVNode_evicts_oldest_witness :
  ∃ ka', cacheVNode before_last_hook = Normal ka' ∧
         keys ka' = [KeyString "2::b"; KeyString "3::c"] ∧
         obj_get "1::a" (cache ka') = Some None.
Proof.
assert (∃ ka', cacheVNode before_last_hook = Normal ka')
  as [ka' Heq] by (eexists; vm_compute; reflexivity).
exists ka'. split; [exact Heq|].
assert (¬ live before_last_hook
            (property_name (keyToCache before_last_hook))) as Hfresh.
{ intros [e He]. vm_compute in He. discriminate He. }
assert (live before_last_hook (property_name (KeyString "1::a"))) as Hlive.
{ eexists. vm_compute. reflexivity. }
destruct (cacheVNode_evicts_oldest before_last_hook ka'
            (mkVNode (Some "vue-component-3-c") KeyUndefined (Some 13)
               (Some (mkOptions 3 (Some "c") (Some "c"))) true)
            2 (KeyString "1::a") [KeyString "2::b"] eq_refl Hfresh Hlive
            eq_refl eq_refl eq_refl eq_refl eq_refl Heq) as (Hk & Hold & _).
split; [exact Hk|exact Hold].
Defined.
(* --------------------------------------------------------------------- *)
(** ** Pruning by name: [pruneCache] and the [include] / [exclude] watchers *)





End KeepAlive.

(* ===================================================================== *)
(** * core/vdom/create-element.js *)
(* ===================================================================== *)

Module CreateElement.

(** JavaScript values, as far as [_createElement] tells them apart.
    Functions and objects are references; a function carries its [length]
    (number of declared parameters). *)
Inductive Value :=
| Undefined
| Null
| Bool (b : bool)
| Number (n : Z)
| NaN
| Str (s : string)
| Func (id : nat) (arity : nat)
| Obj (id : nat).

#[global] Instance Value_eq_dec : EqDecision Value.
Proof. solve_decision. Defined.

Definition isDef (v : Value) : bool :=
  match v with Undefined | Null => false | _ => true end.
Definition isUndef (v : Value) : bool := negb (isDef v).

(** Truthiness: [!v] is [negb (truthy v)]. *)
Definition truthy (v : Value) : bool :=
  match v with
  | Undefined | Null | NaN | Bool false | Number 0 | Str EmptyString => false
  | _ => true
  end.

Definition isPrimitive (v : Value) : bool :=
  match v with Str _ | Number _ | NaN | Bool _ => true | _ => false end.

Definition isObject (v : Value) : bool :=
  match v with Obj _ => true | _ => false end.

(** The fields of a [VNodeData] object that [_createElement] reads or
    writes.  [__ob__] is the observer attached to a reactive object;
    [scopedSlots] is an object from slot names to functions. *)
Record VNodeData := mkData {
  __ob__ : option nat;
  is_ : Value;
  key : Value;
  scopedSlots : option (list (string * Value));
  pre : Value;
  nativeOn : Value;
  data_tag : Value;
  style : Value;
  class_ : Value }.

(** The literal [{}]. *)
Definition empty_data : VNodeData :=
  mkData None Undefined Undefined None Undefined Undefined Undefined
    Undefined Undefined.

Definition set_scopedSlots (slots : list (string * Value)) (d : VNodeData)
    : VNodeData :=
  mkData (__ob__ d) (is_ d) (key d) (Some slots) (pre d) (nativeOn d)
    (data_tag d) (style d) (class_ d).

(** A vnode, and the values found in a [children] argument: vnodes,
    primitive or other values, nested arrays. *)
Inductive VNode :=
| VN (tag : option string) (data : option VNodeData) (children : Item)
     (text : option string) (ns : option string) (context : option nat)
     (isComment : bool)
with Item :=
| IVal (v : Value)
| INode (n : VNode)
| IArr (items : list Item).

Definition vnode_tag (v : VNode) : option string :=
  match v with VN tag _ _ _ _ _ _ => tag end.
Definition vnode_data (v : VNode) : option VNodeData :=
  match v with VN _ data _ _ _ _ _ => data end.
Definition vnode_children (v : VNode) : Item :=
  match v with VN _ _ children _ _ _ _ => children end.
Definition vnode_ns (v : VNode) : option string :=
  match v with VN _ _ _ _ ns _ _ => ns end.
Definition vnode_isComment (v : VNode) : bool :=
  match v with VN _ _ _ _ _ _ c => c end.

(** Modelled from the spec: core/vdom/vnode.js is not part of the sources.
    The empty placeholder node has no tag, no data and no children and is
    rendered as an empty comment. *)
Definition createEmptyVNode : VNode :=
  VN None None (IVal Undefined) (Some "") None None true.

(** [new VNode(tag, data, children, undefined, undefined, context)] *)
Definition new_VNode (tag : string) (data : option VNodeData)
    (children : Item) (context : nat) : VNode :=
  VN (Some tag) data children None None (Some context) false.

Inductive Completion (A : Type) :=
| Normal (a : A)
| Throw (err : string).
Arguments Normal {A} a.
Arguments Throw {A} err.

Inductive Event :=
| EvWarn (msg : string) (context : nat)
| EvTraverse (v : Value).

(** What a call returns: one vnode or an array of vnodes. *)
Inductive Returned :=
| RetNode (v : VNode)
| RetArray (l : list VNode).

(** The component instance passed as [context]: its identity and
    [context.$vnode && context.$vnode.ns]. *)
Record Context := mkContext {
  ctx_id : nat;
  ctx_vnode_ns : option string }.

(** Result of a call that returns: the value returned, the caller's [data]
    object and [children] array as the call leaves them, and the warnings
    and dependency registrations it made. *)
Record Outcome := mkOutcome {
  returned : Returned;
  data_after : option VNodeData;
  children_after : Item;
  events : list Event }.

Definition SIMPLE_NORMALIZE : Z := 1.
Definition ALWAYS_NORMALIZE : Z := 2.

Definition newline : string := String (ascii_of_nat 10) EmptyString.

(** [applyNS(vnode, ns, force)].  Reading [child.tag] of an [undefined] or
    [null] child throws. *)
Fixpoint applyNS (vnode : VNode) (ns : option string) (force : bool)
    {struct vnode} : Completion VNode :=
  match vnode with
  | VN tag data children text _ ctx isC =>
      let ns' := if bool_decide (tag = Some "foreignObject") then None else ns in
      let force' := bool_decide (tag = Some "foreignObject") || force in
      let walk :=
        fix walk (l : list Item) : Completion (list Item) :=
          match l with
          | [] => Normal []
          | child :: l' =>
              match
                match child with
                | INode c =>
                    if bool_decide (vnode_tag c ≠ None) &&
                       (bool_decide (vnode_ns c = None) ||
                        (force' && bool_decide (vnode_tag c ≠ Some "svg")))
                    then match applyNS c ns' force' with
                         | Normal c' => Normal (INode c')
                         | Throw e => Throw e
                         end
                    else Normal child
                | IVal Undefined | IVal Null =>
                    Throw "TypeError: Cannot read properties of undefined"
                | _ => Normal child
                end
              with
              | Normal child' =>
                  match walk l' with
                  | Normal r => Normal (child' :: r)
                  | Throw e => Throw e
                  end
              | Throw e => Throw e
              end
          end in
      match children with
      | IArr l =>
          match walk l with
          | Normal l' => Normal (VN tag data (IArr l') text ns ctx isC)
          | Throw e => Throw e
          end
      | IVal (Func _ (S _)) =>
          Throw "TypeError: Cannot read properties of undefined"
      | _ => Normal (VN tag data children text ns ctx isC)
      end
  end.

(** [registerDeepBindings(data)] *)
Definition registerDeepBindings (data : VNodeData) : list Event :=
  (if isObject (style data) then [EvTraverse (style data)] else []) ++
  (if isObject (class_ data) then [EvTraverse (class_ data)] else []).

Section CreateElement.
(** [process.env.NODE_ENV === 'production'] and [__WEEX__] *)
Variable production : bool.
Variable WEEX : bool.
(** [config.getTagNamespace], [config.isReservedTag],
    [config.parsePlatformTagName] *)
Variable getTagNamespace : string → option string.
Variable isReservedTag : string → bool.
Variable parsePlatformTagName : string → string.
(** [resolveAsset(context.$options, 'components', tag)] *)
Variable resolveAsset : Context → string → Value.
(** [createComponent], [normalizeChildren], [simpleNormalizeChildren] and
    the test ['@binding' in data.key] are taken as given functions. *)
Variable createComponent :
  Value → option VNodeData → Context → Item → option string →
  option Returned.
Variable normalizeChildren : Item → Item.
Variable simpleNormalizeChildren : Item → Item.
Variable has_binding : Value → bool.
(** [JSON.stringify(data)] returns the text of the object or throws: a
    TypeError on a cyclic structure or a BigInt, or whatever a [toJSON]
    method or a getter of the object throws. *)
Variable JSON_stringify : VNodeData → Completion string.

Definition observed_data_message (json : string) : string :=
  "Avoid using observed data object as vnode data: " +:+ json +:+
  newline +:+ "Always create fresh vnode data objects in each render!".

Definition key_message : string :=
  "Avoid using non-primitive value as key, use string/number value instead.".

Definition native_message (tag : string) : string :=
  "The .native modifier for v-on is only valid on components but it was used on <"
  +:+ tag +:+ ">.".

(** The tag after [if (isDef(data) && isDef(data.is)) tag = data.is]. *)
Definition effective_tag (tag : Value) (data : option VNodeData) : Value :=
  match data with
  | Some d => if isDef (is_ d) then is_ d else tag
  | None => tag
  end.

Definition observed (data : option VNodeData) : bool :=
  match data with
  | Some d => bool_decide (__ob__ d ≠ None)
  | None => false
  end.

(** Second half of [_createElement]: from the normalization of the children
    to the end.  [data0] and [children0] are the caller's objects as they
    are at that point. *)
Definition build (context : Context) (tag : Value)
    (data : option VNodeData) (children : Item) (normalizationType : Value)
    (data0 : option VNodeData) (children0 : Item) (evs : list Event)
    : Completion Outcome :=
  let children :=
    if bool_decide (normalizationType = Number ALWAYS_NORMALIZE)
    then normalizeChildren children
    else if bool_decide (normalizationType = Number SIMPLE_NORMALIZE)
    then simpleNormalizeChildren children
    else children in
  let '(vnode, ns, evs) :=
    match tag with
    | Str t =>
        let ns := if truthy (from_option Str Undefined (ctx_vnode_ns context))
                  then ctx_vnode_ns context else getTagNamespace t in
        if isReservedTag t then
          let evs :=
            if negb production &&
               match data with
               | Some d => isDef (nativeOn d) &&
                           negb (bool_decide (data_tag d = Str "component"))
               | None => false
               end
            then evs ++ [EvWarn (native_message t) (ctx_id context)]
            else evs in
          (Some (RetNode (new_VNode (parsePlatformTagName t) data children
                            (ctx_id context))), ns, evs)
        else if match data with
                | Some d => negb (truthy (pre d))
                | None => true
                end && isDef (resolveAsset context t)
        then (createComponent (resolveAsset context t) data context children
                (Some t), ns, evs)
        else (Some (RetNode (new_VNode t data children (ctx_id context))),
              ns, evs)
    | _ => (createComponent tag data context children None, None, evs)
    end in
  match vnode with
  | Some (RetArray l) => Normal (mkOutcome (RetArray l) data0 children0 evs)
  | Some (RetNode v) =>
      match
        match ns with
        | Some _ => applyNS v ns false
        | None => Normal v
        end
      with
      | Normal v' =>
          Normal (mkOutcome (RetNode v') data0 children0
                    (evs ++ match data with
                            | Some d => registerDeepBindings d
                            | None => []
                            end))
      | Throw e => Throw e
      end
  | None => Normal (mkOutcome (RetNode createEmptyVNode) data0 children0 evs)
  end.

Definition _createElement (context : Context) (tag : Value)
    (data : option VNodeData) (children : Item) (normalizationType : Value)
    : Completion Outcome :=
  if observed data then
    if production then
      Normal (mkOutcome (RetNode createEmptyVNode) data children [])
    else
      (* the message is built, and the data serialized, before [warn] is
         called *)
      match JSON_stringify (default empty_data data) with
      | Normal json =>
          Normal (mkOutcome (RetNode createEmptyVNode) data children
                    [EvWarn (observed_data_message json) (ctx_id context)])
      | Throw e => Throw e
      end
  else
    let tag := effective_tag tag data in
    if negb (truthy tag) then
      Normal (mkOutcome (RetNode createEmptyVNode) data children [])
    else
      let evs :=
        if negb production &&
           match data with
           | Some d => isDef (key d) && negb (isPrimitive (key d)) &&
                       (negb WEEX || negb (has_binding (key d)))
           | None => false
           end
        then [EvWarn key_message (ctx_id context)] else [] in
      match children with
      | IArr (IVal (Func f a) :: _) =>
          let d := set_scopedSlots [("default", Func f a)]
                     (default empty_data data) in
          build context tag (Some d) (IArr []) normalizationType
            ((λ _, d) <$> data) (IArr []) evs
      | _ =>
          build context tag data children normalizationType data children evs
      end.

(* --------------------------------------------------------------------- *)
(** ** Specification of [_createElement] *)

Lemma observed_set_scopedSlots slots data :
  observed (Some (set_scopedSlots slots (default empty_data data))) =
  observed data.
Proof. by destruct data. Qed.

Lemma effective_tag_set_scopedSlots slots tag data :
  effective_tag tag (Some (set_scopedSlots slots (default empty_data data))) =
  effective_tag tag data.
Proof. by destruct data. Qed.

(** C5 (amended).  When [data] is an observed object, [_createElement]
    returns the empty placeholder vnode: at once in a production build; in a
    development build after a warning whose text embeds
    [JSON.stringify(data)], and if that serialization throws, the exception
    reaches the caller and nothing is returned.  When [data] is not observed
    and the tag in effect -- [data.is] when [data] defines it, the [tag]
    argument otherwise -- is falsy, the call returns the placeholder without
    a warning.  No case touches [data] or [children]. *)
Theorem createElement_empty_placeholder context tag data children nt :
  (∀ d, data = Some d → __ob__ d ≠ None →
     (production = true →
      _createElement context tag data children nt =
        Normal (mkOutcome (RetNode createEmptyVNode) data children [])) ∧
     (∀ json, production = false → JSON_stringify d = Normal json →
      _createElement context tag data children nt =
        Normal (mkOutcome (RetNode createEmptyVNode) data children
                  [EvWarn (observed_data_message json) (ctx_id context)])) ∧
     (∀ e, production = false → JSON_stringify d = Throw e →
      _createElement context tag data children nt = Throw e)) ∧
  (observed data = false → truthy (effective_tag tag data) = false →
     _createElement context tag data children nt =
       Normal (mkOutcome (RetNode createEmptyVNode) data children [])).
Proof.
split.
- intros d -> Hob. unfold _createElement. simpl.
  rewrite bool_decide_true by done. split_and!.
  + by intros ->.
  + by intros json -> ->.
  + by intros e -> ->.
- intros Hob Htag. unfold _createElement. by rewrite Hob, Htag.
Qed.

(** C6 (amended).  When the call gets past the two guards above ([data] is
    not observed and the tag in effect is truthy) and the first child of
    the [children] array is a function, the call proceeds exactly as a call
    whose [data] already has that function as [scopedSlots.default] and
    whose [children] array is empty: normalization and everything after it
    see the empty array, and the caller's array is left empty and the
    caller's [data] object carries the slot.  When one of the guards stops
    the call, a call that returns returns the placeholder and leaves the
    caller's [data] and [children] as they were: the slot is not installed
    and the array is not cleared. *)
Theorem createElement_function_child context tag data f a rest nt :
  let d := set_scopedSlots [("default", Func f a)] (default empty_data data) in
  let call :=
    _createElement context tag data (IArr (IVal (Func f a) :: rest)) nt in
  (observed data = false → truthy (effective_tag tag data) = true →
   scopedSlots d = Some [("default", Func f a)] ∧
   call =
     match _createElement context tag (Some d) (IArr []) nt with
     | Normal o =>
         Normal (mkOutcome (returned o) ((λ _, d) <$> data) (IArr [])
                   (events o))
     | Throw e => Throw e
     end ∧
   ∀ o, call = Normal o →
        data_after o = ((λ _, d) <$> data) ∧ children_after o = IArr []) ∧
  (observed data = true ∨ truthy (effective_tag tag data) = false →
   ∀ o, call = Normal o →
        returned o = RetNode createEmptyVNode ∧ data_after o = data ∧
        children_after o = IArr (IVal (Func f a) :: rest)).
Proof.
intros d call. split.
- intros Hob Htag.
  assert (call =
          match _createElement context tag (Some d) (IArr []) nt with
          | Normal o =>
              Normal (mkOutcome (returned o) ((λ _, d) <$> data) (IArr [])
                        (events o))
          | Throw e => Throw e
          end) as Heq.
  { unfold call, _createElement, d.
    rewrite observed_set_scopedSlots, effective_tag_set_scopedSlots.
    rewrite Hob, Htag. simpl.
    assert (match data with
            | Some d0 => isDef (key d0) && negb (isPrimitive (key d0)) &&
                         (negb WEEX || negb (has_binding (key d0)))
            | None => false
            end =
            isDef (key (default empty_data data)) &&
            negb (isPrimitive (key (default empty_data data))) &&
            (negb WEEX || negb (has_binding (key (default empty_data data)))))
      as -> by (by destruct data).
    unfold build.
    repeat (case_match; simplify_eq; try done). }
  split; [done|]. split; [exact Heq|].
  intros o. rewrite Heq.
  destruct (_createElement context tag (Some d) (IArr []) nt); [|done].
  by intros [= <-].
- intros Hstop o. unfold call, _createElement.
  destruct (observed data) eqn:Hob.
  + destruct production; [by intros [= <-]|].
    destruct (JSON_stringify _); [by intros [= <-]|done].
  + destruct Hstop as [?|Htag]; [done|]. rewrite Htag. simpl.
    by intros [= <-].
Qed.

End CreateElement.

(* --------------------------------------------------------------------- *)
(** ** Concrete calls *)

(** A development build for the web platform with no registered
    components. *)
Definition web_createElement_with
    (JSON_stringify : VNodeData → Completion string) :=
  _createElement false false
    (λ t, if bool_decide (t = "svg") then Some "svg" else None)
    (λ t, bool_decide (t ∈ ["div"; "span"; "p"; "svg"]))
    (λ t, t)
    (λ _ _, Undefined)
    (λ _ _ _ _ _, None)
    (λ c, c) (λ c, c)
    (λ _, false)
    JSON_stringify.

(** The data objects of the calls below have no enumerable property. *)
Definition web_createElement := web_createElement_with (λ _, Normal "{}").

Definition root : Context := mkContext 0 None.

(** [{ is: 'div' }] *)
Definition data_is_div : VNodeData :=
  mkData None (Str "div") Undefined None Undefined Undefined Undefined
    Undefined Undefined.

(** A reactive object: it carries an observer. *)
Definition data_observed : VNodeData :=
  mkData (Some 1) Undefined Undefined None Undefined Undefined Undefined
    Undefined Undefined.

Lemma createElement_falsy_tag_counterexample :
  truthy Undefined = false ∧
  web_createElement root Undefined (Some data_is_div) (IVal Undefined)
    Undefined =
    Normal (mkOutcome
              (RetNode (new_VNode "div" (Some data_is_div) (IVal Undefined) 0))
              (Some data_is_div) (IVal Undefined) []) ∧
  new_VNode "div" (Some data_is_div) (IVal Undefined) 0 ≠ createEmptyVNode.
Proof. split_and!; [done|by vm_compute|done]. Qed.

Lemma createElement_empty_placeholder_witness :
  web_createElement root (Str "div") (Some data_observed) (IArr [])
    (Number 2) =
    Normal (mkOutcome (RetNode createEmptyVNode) (Some data_observed)
              (IArr [])
              [EvWarn ("Avoid using observed data object as vnode data: {}"
                       +:+ newline +:+
                       "Always create fresh vnode data objects in each render!")
                 0]) ∧
  web_createElement root (Str "") None (IArr []) (Number 2) =
    Normal (mkOutcome (RetNode createEmptyVNode) None (IArr []) []).
Proof.
split.
- destruct (createElement_empty_placeholder false false
           (λ t, if bool_decide (t = "svg") then Some "svg" else None)
           (λ t, bool_decide (t ∈ ["div"; "span"; "p"; "svg"]))
           (λ t, t) (λ _ _, Undefined) (λ _ _ _ _ _, None) (λ c, c) (λ c, c)
           (λ _, false) (λ _, Normal "{}")
           root (Str "div") (Some data_observed) (IArr []) (Number 2))
    as [Ha _].
  destruct (Ha data_observed eq_refl) as (_ & Hwarn & _); [discriminate|].
  apply (Hwarn "{}"); reflexivity.
- destruct (createElement_empty_placeholder false false
           (λ t, if bool_decide (t = "svg") then Some "svg" else None)
           (λ t, bool_decide (t ∈ ["div"; "span"; "p"; "svg"]))
           (λ t, t) (λ _ _, Undefined) (λ _ _ _ _ _, None) (λ c, c) (λ c, c)
           (λ _, false) (λ _, Normal "{}")
           root (Str "") None (IArr []) (Number 2))
    as [_ Hb].
  apply Hb; reflexivity.
Defined.

(** An observed object that refers to itself cannot be serialized: in a
    development build the call throws. *)
Example createElement_cyclic_data_throws :
  web_createElement_with
    (λ _, Throw "TypeError: Converting circular structure to JSON")
    root (Str "div") (Some data_observed) (IArr []) (Number 2) =
  Throw "TypeError: Converting circular structure to JSON".
Proof. reflexivity. Qed.

(** With a falsy tag the function child is neither installed as a slot nor
    taken out of the array. *)
Lemma createElement_function_child_counterexample :
  web_createElement root (Str "") (Some empty_data)
    (IArr [IVal (Func 7 1)]) (Number 2) =
  Normal (mkOutcome (RetNode createEmptyVNode) (Some empty_data)
            (IArr [IVal (Func 7 1)]) []) ∧
  scopedSlots empty_data = None ∧
  IArr [IVal (Func 7 1)] ≠ IArr [].
Proof. split_and!; [by vm_compute|done|done]. Qed.

Lemma createElement_function_child_witness :
  ∃ o, web_createElement root (Str "div") None (IArr [IVal (Func 7 1)])
         (Number 2) = Normal o ∧
       data_after o = None ∧ children_after o = IArr [] ∧
       returned o =
         RetNode (new_VNode "div"
                    (Some (set_scopedSlots [("default", Func 7 1)] empty_data))
                    (IArr []) 0).
Proof.
destruct (createElement_function_child false false
            (λ t, if bool_decide (t = "svg") then Some "svg" else None)
            (λ t, bool_decide (t ∈ ["div"; "span"; "p"; "svg"]))
            (λ t, t) (λ _ _, Undefined) (λ _ _ _ _ _, None) (λ c, c) (λ c, c)
            (λ _, false) (λ _, Normal "{}")
            root (Str "div") None 7 1 [] (Number 2))
  as [Hpast _].
destruct (Hpast eq_refl eq_refl) as (_ & Heq & Hafter).
eexists. split; [vm_compute; reflexivity|].
split; [|split]; [| |reflexivity].
- eapply Hafter. vm_compute. reflexivity.
- reflexivity.
Defined.

End CreateElement.

(* =====================================================================*)
(** * core/vdom/create-component.js: [transformModel] *)
(* ===================================================================== *)

Module CreateComponent.

Import CreateElement.

(** Functions are references; they are identified by a number. *)
Definition Fn := nat.

(** An entry of [data.on]: [Function | Array<Function>]. *)
Inductive Listener :=
| One (f : Fn)
| Many (fs : list Fn).

(** [options.model] of the component: [{ prop?: string; event?: string }]. *)
Record ModelOption := mkModelOption {
  prop : option string;
  event : option string }.

(** [data.model]: the bound value and the callback that assigns it. *)
Record Model := mkModel {
  value : Value;
  callback : Fn }.

(** The fields of the vnode data that [transformModel] reads or writes. *)
Record Data := mkData {
  attrs : option (gmap string Value);
  on : option (gmap string Listener);
  model : option Model }.

(** [(options.model && options.model.prop) || 'value'] and likewise for the
    event: a missing or empty name gives the default. *)
Definition name_or (o : option ModelOption)
    (field : ModelOption → option string) (dflt : string) : string :=
  match o ≫= field with
  | Some s => if String.eqb s "" then dflt else s
  | None => dflt
  end.

(** [[callback].concat(existing)] *)
Definition concat_callback (callback : Fn) (existing : Listener) : Listener :=
  match existing with
  | One f => Many [callback; f]
  | Many fs => Many (callback :: fs)
  end.

Definition transformModel (options_model : option ModelOption)
    (data : Data) (m : Model) : Data :=
  let prop := name_or options_model prop "value" in
  let event := name_or options_model event "input" in
  let attrs := <[prop := value m]> (default ∅ (attrs data)) in
  let on := default ∅ (on data) in
  let existing := on !! event in
  let callback := callback m in
  let on :=
    match existing with
    | Some existing =>
        if match existing with
           | Many fs => bool_decide (callback ∉ fs)
           | One f => bool_decide (f ≠ callback)
           end
        then <[event := concat_callback callback existing]> on
        else on
    | None => <[event := One callback]> on
    end in
  mkData (Some attrs) (Some on) (model data).

(** Lines 196-200 of [createComponent]:
    [if (isDef(data.model)) transformModel(Ctor.options, data)] *)
Definition transform_component_model (options_model : option ModelOption)
    (data : Data) : Data :=
  match model data with
  | Some m => transformModel options_model data m
  | None => data
  end.




(** ** Concrete calls *)




(* --------------------------------------------------------------------- *)
(** ** Applying [transformModel] again *)

(** Once the model of a vnode data object has been merged in, merging it in
    again changes nothing: the callback is found among the listeners and is
    not added a second time. *)
Theorem transformModel_idempotent options_model data :
  transform_component_model options_model
    (transform_component_model options_model data) =
  transform_component_model options_model data.
Proof.
unfold transform_component_model.
destruct (model data) as [m|] eqn:Hm; [|by rewrite Hm].
cbn [model transformModel]. rewrite Hm.
unfold transformModel. cbn [attrs on model default].
set (p := name_or options_model prop "value").
set (e := name_or options_model event "input").
f_equal.
- f_equal. apply insert_insert_eq.
- f_equal. unfold id.
  destruct (from_option (λ x, x) ∅ (on data) !! e) as [[f|fs]|] eqn:Hold.
  + case_bool_decide as Hc.
    * rewrite lookup_insert_eq. simpl.
      rewrite bool_decide_false; [done|]. intros Hn. apply Hn. by left.
    * rewrite Hold. by rewrite bool_decide_false by congruence.
  + case_bool_decide as Hc.
    * rewrite lookup_insert_eq. simpl.
      rewrite bool_decide_false; [done|]. intros Hn. apply Hn. by left.
    * rewrite Hold. by rewrite bool_decide_false by (by intros Hn).
  + rewrite lookup_insert_eq.
    rewrite bool_decide_false; [done|]. by intros Hn.
Qed.

(* --------------------------------------------------------------------- *)
(** ** [installComponentHooks] and [mergeHook] *)

(** The names of [componentVNodeHooks], in the order of [Object.keys]. *)
Definition hooksToMerge : list string :=
  ["init"; "prepatch"; "insert"; "destroy"].

(** A function found in [data.hook]: a hook of [componentVNodeHooks], a
    function of the user, with the truthiness of its [_merged] property,
    or a function made by [mergeHook], whose [_merged] is [true]. *)
Inductive Hook :=
| ComponentHook (name : string)
| UserHook (f : Fn) (_merged : bool)
| MergedHook (f1 f2 : Hook).

#[global] Instance Hook_eq_dec : EqDecision Hook.
Proof. solve_decision. Defined.

(** [existing && existing._merged] *)
Definition is_merged (existing : option Hook) : bool :=
  match existing with
  | Some (MergedHook _ _) => true
  | Some (UserHook _ m) => m
  | _ => false
  end.

Definition mergeHook (f1 f2 : Hook) : Hook := MergedHook f1 f2.

(** Body of the loop of [installComponentHooks] for [key]. *)
Definition install_hook (key : string) (hooks : gmap string Hook)
    : gmap string Hook :=
  let existing := hooks !! key in
  let toMerge := ComponentHook key in
  if negb (bool_decide (existing = Some toMerge)) && negb (is_merged existing)
  then <[key := match existing with
                 | Some existing => mergeHook toMerge existing
                 | None => toMerge
                 end]> hooks
  else hooks.

(** [installComponentHooks(data)]: [data.hook] as the call leaves it; a
    missing [data.hook] is created empty. *)
Definition installComponentHooks (hook : option (gmap string Hook))
    : gmap string Hook :=
  foldl (λ hooks key, install_hook key hooks) (default ∅ hook) hooksToMerge.

(** The functions that a call of a hook runs, in order. *)
Fixpoint runs (h : Hook) : list Hook :=
  match h with
  | MergedHook f1 f2 => runs f1 ++ runs f2
  | _ => [h]
  end.

Lemma install_hook_other key k hooks :
  k ≠ key → install_hook key hooks !! k = hooks !! k.
Proof.
intros Hk. unfold install_hook.
destruct (_ && _); [|done]. by rewrite lookup_insert_ne by congruence.
Qed.

Lemma install_hook_key key hooks :
  install_hook key hooks !! key =
  Some (match hooks !! key with
        | Some existing =>
            if bool_decide (existing = ComponentHook key) ||
               is_merged (Some existing)
            then existing else MergedHook (ComponentHook key) existing
        | None => ComponentHook key
        end).
Proof.
unfold install_hook. destruct (hooks !! key) as [existing|] eqn:He.
- destruct (decide (existing = ComponentHook key)) as [->|Hne].
  + rewrite !bool_decide_true by done. simpl. done.
  + rewrite !bool_decide_false by congruence. cbn [negb andb orb].
    destruct (is_merged (Some existing)); cbn [negb];
      [done|by rewrite lookup_insert_eq].
- simpl. by rewrite lookup_insert_eq.
Qed.

Lemma install_hook_idempotent key hooks :
  install_hook key (install_hook key hooks) = install_hook key hooks.
Proof.
unfold install_hook at 1. rewrite install_hook_key.
set (h := install_hook key hooks).
destruct (hooks !! key) as [existing|] eqn:He.
- destruct (decide (existing = ComponentHook key)) as [->|Hne].
  + rewrite (bool_decide_true (ComponentHook key = ComponentHook key))
      by done.
    cbn [orb]. by rewrite bool_decide_true.
  + rewrite (bool_decide_false (existing = _)) by done. cbn [orb].
    destruct (is_merged (Some existing)) eqn:Hm.
    * rewrite Hm. by rewrite andb_false_r.
    * cbn [is_merged negb]. by rewrite andb_false_r.
- by rewrite bool_decide_true.
Qed.

Lemma install_hook_comm k1 k2 hooks :
  k1 ≠ k2 →
  install_hook k1 (install_hook k2 hooks) =
  install_hook k2 (install_hook k1 hooks).
Proof.
intros Hne. unfold install_hook at 1 3.
rewrite !install_hook_other by congruence.
unfold install_hook.
destruct (negb (bool_decide (hooks !! k1 = _)) && _),
         (negb (bool_decide (hooks !! k2 = _)) && _); try done.
by apply insert_insert_ne.
Qed.

Definition install_hooks (keys : list string) (hooks : gmap string Hook)
    : gmap string Hook :=
  foldl (λ hooks key, install_hook key hooks) hooks keys.

Lemma install_hooks_push k keys hooks :
  k ∉ keys →
  install_hook k (install_hooks keys hooks) =
  install_hooks keys (install_hook k hooks).
Proof.
revert hooks. induction keys as [|k' keys IH]; intros hooks; [done|].
intros [Hk Hks]%not_elem_of_cons. simpl.
rewrite IH by done. by rewrite install_hook_comm.
Qed.

Lemma install_hooks_absorb k keys hooks :
  k ∈ keys →
  install_hook k (install_hooks keys hooks) = install_hooks keys hooks.
Proof.
revert hooks. induction keys as [|k' keys IH]; intros hooks;
  [by intros ?%elem_of_nil|].
intros Hk. simpl. destruct (decide (k ∈ keys)) as [Hin|Hout].
- by apply IH.
- assert (k = k') as <- by set_solver.
  rewrite install_hooks_push by done. by rewrite install_hook_idempotent.
Qed.

Lemma install_hooks_other keys k hooks :
  k ∉ keys → install_hooks keys hooks !! k = hooks !! k.
Proof.
revert hooks. induction keys as [|k' keys IH]; intros hooks; [done|].
intros [Hk Hks]%not_elem_of_cons. simpl.
rewrite IH by done. by apply install_hook_other.
Qed.

(** After [installComponentHooks] each of the four hooks of the component
    is in [data.hook]: alone where the user gave none, and in front of the
    user's function otherwise, so that a call runs the component's hook and
    then the user's.  A function that is already the component's hook or
    already merged is kept as it is, and hooks of other names are not
    touched. *)
Theorem installComponentHooks_installs hook key :
  let hooks := default ∅ hook in
  (key ∈ hooksToMerge →
   installComponentHooks hook !! key =
   Some (match hooks !! key with
         | Some existing =>
             if bool_decide (existing = ComponentHook key) ||
                is_merged (Some existing)
             then existing else MergedHook (ComponentHook key) existing
         | None => ComponentHook key
         end)) ∧
  (key ∈ hooksToMerge → ∀ f, hooks !! key = Some (UserHook f false) →
   runs <$> installComponentHooks hook !! key =
   Some [ComponentHook key; UserHook f false]) ∧
  (key ∉ hooksToMerge → installComponentHooks hook !! key = hooks !! key).
Proof.
intros hooks.
assert (key ∈ hooksToMerge →
        installComponentHooks hook !! key =
        Some (match hooks !! key with
              | Some existing =>
                  if bool_decide (existing = ComponentHook key) ||
                     is_merged (Some existing)
                  then existing else MergedHook (ComponentHook key) existing
              | None => ComponentHook key
              end)) as Hkey.
{ intros Hin. fold hooks.
  change (installComponentHooks hook) with (install_hooks hooksToMerge hooks).
  apply list_elem_of_split in Hin as (k1 & k2 & Heq).
  assert (NoDup hooksToMerge) as Hnd
    by (apply (bool_decide_unpack _); vm_compute; exact I).
  rewrite Heq in Hnd |- *.
  apply NoDup_app in Hnd as (_ & Hk1 & [Hk2 _]%NoDup_cons).
  unfold install_hooks. rewrite foldl_app. simpl.
  fold (install_hooks k1 hooks).
  fold (install_hooks k2 (install_hook key (install_hooks k1 hooks))).
  rewrite install_hooks_other by done.
  rewrite install_hook_key. rewrite install_hooks_other; [done|].
  intros Hin. apply (Hk1 key Hin). by left. }
split_and!; [done| |].
- intros Hin f Hf. rewrite Hkey by done. by rewrite Hf.
- intros Hout. by apply install_hooks_other.
Qed.

(** Installing the hooks a second time on the same data object changes
    nothing: no hook is wrapped twice. *)
Theorem installComponentHooks_idempotent hook :
  installComponentHooks (Some (installComponentHooks hook)) =
  installComponentHooks hook.
Proof.
change (installComponentHooks (Some (installComponentHooks hook)))
  with (install_hooks hooksToMerge
          (install_hooks hooksToMerge (default ∅ hook))).
change (installComponentHooks hook)
  with (install_hooks hooksToMerge (default ∅ hook)).
generalize (default ∅ hook). generalize hooksToMerge. intros keys hooks.
assert (∀ sub, (∀ k, k ∈ sub → k ∈ keys) →
          install_hooks sub (install_hooks keys hooks) =
          install_hooks keys hooks) as Hsub.
{ induction sub as [|k sub IH]; intros Hin; [done|].
  change (install_hooks (k :: sub) (install_hooks keys hooks))
    with (install_hooks sub (install_hook k (install_hooks keys hooks))).
  rewrite install_hooks_absorb by (apply Hin; by left).
  apply IH. intros k' Hk'. apply Hin. by right. }
by apply Hsub.
Qed.

(** A user's [insert] hook and a hook of another name. *)
Example installComponentHooks_sample :
  let hooks :=
    installComponentHooks
      (Some {[ "insert" := UserHook 7 false; "update" := UserHook 8 false ]})
  in
  runs <$> hooks !! "insert" =
    Some [ComponentHook "insert"; UserHook 7 false] ∧
  hooks !! "init" = Some (ComponentHook "init") ∧
  hooks !! "update" = Some (UserHook 8 false).
Proof. vm_compute. done. Qed.

Lemma installComponentHooks_installs_witness :
  runs <$>
    installComponentHooks (Some {[ "insert" := UserHook 7 false ]})
      !! "insert" =
  Some [ComponentHook "insert"; UserHook 7 false].
Proof.
destruct (installComponentHooks_installs
            (Some {[ "insert" := UserHook 7 false ]}) "insert")
  as (_ & Hruns & _).
apply (Hruns ltac:(apply (bool_decide_unpack _); vm_compute; exact I) 7).
reflexivity.
Defined.
End CreateComponent.

(* ===================================================================== *)
(** * compiler/optimizer.js: [markStaticRoots] *)
(* ===================================================================== *)

Module Optimizer.

(** The fields of an element node ([type === 1]) that the second pass reads
    or writes.  [static] is set by the first pass and [undefined] on nodes
    the first pass did not visit; [for_] is [node.for]. *)
Record ElementFlags := mkFlags {
  tag : string;
  static : option bool;
  once : bool;
  for_ : option string;
  staticInFor : option bool;
  staticRoot : option bool }.

(** An AST node: element (type 1), expression (type 2) or text (type 3).
    [ifConditions] holds the blocks of [node.ifConditions] from index 1 on;
    the block at index 0 is the node itself. *)
Inductive ASTNode :=
| ASTElement (f : ElementFlags) (children : list ASTNode)
             (ifConditions : option (list ASTNode))
| ASTExpression (text : string) (static : option bool)
| ASTText (text : string) (static : option bool).

Definition type (n : ASTNode) : nat :=
  match n with
  | ASTElement _ _ _ => 1
  | ASTExpression _ _ => 2
  | ASTText _ _ => 3
  end.

Definition set_staticInFor (b : bool) (f : ElementFlags) : ElementFlags :=
  mkFlags (tag f) (static f) (once f) (for_ f) (Some b) (staticRoot f).
Definition set_staticRoot (b : bool) (f : ElementFlags) : ElementFlags :=
  mkFlags (tag f) (static f) (once f) (for_ f) (staticInFor f) (Some b).

(** Truthiness of [node.static] and of [node.for]. *)
Definition is_static (f : ElementFlags) : bool :=
  bool_decide (static f = Some true).
Definition has_for (f : ElementFlags) : bool :=
  match for_ f with
  | Some s => negb (String.eqb s "")
  | None => false
  end.

(** [node.static && node.children.length &&
     !(node.children.length === 1 && node.children[0].type === 3)] *)
Definition qualifies (f : ElementFlags) (children : list ASTNode) : bool :=
  is_static f && negb (length children =? 0) &&
  negb ((length children =? 1) &&
        match head children with
        | Some c => type c =? 3
        | None => false
        end).

Fixpoint markStaticRoots (node : ASTNode) (isInFor : bool) : ASTNode :=
  match node with
  | ASTElement f children ifConditions =>
      let f := if is_static f || once f then set_staticInFor isInFor f
               else f in
      if qualifies f children
      then ASTElement (set_staticRoot true f) children ifConditions
      else
        ASTElement (set_staticRoot false f)
          (map (λ c, markStaticRoots c (isInFor || has_for f)) children)
          (option_map (map (λ b, markStaticRoots b isInFor)) ifConditions)
  | _ => node
  end.

(** ** Reading the marks of a tree *)

(** No node of the tree has a [staticRoot] mark. *)
Fixpoint unmarked (n : ASTNode) : bool :=
  match n with
  | ASTElement f children ifConditions =>
      bool_decide (staticRoot f = None) && forallb unmarked children &&
      match ifConditions with
      | Some blocks => forallb unmarked blocks
      | None => true
      end
  | _ => true
  end.

(** The marks are those of the second pass: an element marked as a root
    qualifies and has no mark below it; an element marked as not a root does
    not qualify and the same holds of its children and of its conditional
    branches; every element outside a root is marked. *)
Fixpoint roots_marked (n : ASTNode) : bool :=
  match n with
  | ASTElement f children ifConditions =>
      match staticRoot f with
      | Some true =>
          qualifies f children && forallb unmarked children &&
          match ifConditions with
          | Some blocks => forallb unmarked blocks
          | None => true
          end
      | Some false =>
          negb (qualifies f children) && forallb roots_marked children &&
          match ifConditions with
          | Some blocks => forallb roots_marked blocks
          | None => true
          end
      | None => false
      end
  | _ => true
  end.

(** Induction on trees. *)
Lemma ASTNode_tree_ind (P : ASTNode → Prop) :
  (∀ f children ifConditions,
     Forall P children → Forall P (default [] ifConditions) →
     P (ASTElement f children ifConditions)) →
  (∀ text static, P (ASTExpression text static)) →
  (∀ text static, P (ASTText text static)) →
  ∀ n, P n.
Proof.
intros Hel Hex Htx. fix IH 1. intros [f children conds|t s|t s].
- apply Hel.
  + induction children as [|c children IHc]; constructor; [apply IH|exact IHc].
  + destruct conds as [conds|]; simpl; [|constructor].
    induction conds as [|c conds IHc]; constructor; [apply IH|exact IHc].
- apply Hex.
- apply Htx.
Qed.

Lemma qualifies_set_staticInFor b f children :
  qualifies (set_staticInFor b f) children = qualifies f children.
Proof. done. Qed.

Lemma qualifies_set_staticRoot b f children :
  qualifies (set_staticRoot b f) children = qualifies f children.
Proof. done. Qed.

Lemma qualifies_spec f children :
  qualifies f children = true ↔
  static f = Some true ∧ children ≠ [] ∧
  ¬ ∃ text s, children = [ASTText text s].
Proof.
unfold qualifies, is_static.
destruct children as [|c [|c' children]]; simpl.
- rewrite andb_false_r. naive_solver.
- rewrite andb_true_r. rewrite andb_true_iff, bool_decide_eq_true.
  destruct c; simpl; naive_solver.
- rewrite !andb_true_r. rewrite bool_decide_eq_true. naive_solver.
Qed.

Lemma type_markStaticRoots n isInFor :
  type (markStaticRoots n isInFor) = type n.
Proof. destruct n; simpl; [|done|done]. by destruct (qualifies _ _). Qed.

(** The test only looks at the number of children and at the type of the
    first, which the pass does not change. *)
Lemma qualifies_map f children g :
  (∀ c, type (g c) = type c) →
  qualifies f (map g children) = qualifies f children.
Proof.
intros Hg. unfold qualifies. rewrite length_map.
destruct children as [|c children]; simpl; [done|]. by rewrite Hg.
Qed.

Lemma markStaticRoots_marks n isInFor :
  unmarked n = true → roots_marked (markStaticRoots n isInFor) = true.
Proof.
revert isInFor. induction n as [f children conds IHc IHb|t s|t s]
  using ASTNode_tree_ind; intros isInFor; simpl; [|done|done].
intros [[_ Hc]%andb_true_iff Hb]%andb_true_iff.
set (f' := if is_static f || once f then set_staticInFor isInFor f else f).
assert (qualifies f' children = qualifies f children) as Hq
  by (unfold f'; by destruct (is_static f || once f)).
rewrite Hq. destruct (qualifies f children) eqn:Hqual; simpl.
- rewrite qualifies_set_staticRoot, Hq, Hc. simpl. exact Hb.
- rewrite qualifies_set_staticRoot, qualifies_map, Hq
    by (intros; apply type_markStaticRoots).
  simpl.
  apply andb_true_iff. split.
  + rewrite forallb_forall in Hc. apply forallb_forall. intros c' Hin.
    apply in_map_iff in Hin as (c & <- & Hin).
    rewrite Forall_forall in IHc. apply IHc; [by apply list_elem_of_In|].
    by apply Hc.
  + destruct conds as [conds|]; simpl in *; [|done].
    rewrite forallb_forall in Hb. apply forallb_forall. intros c' Hin.
    apply in_map_iff in Hin as (c & <- & Hin).
    rewrite Forall_forall in IHb. apply IHb; [by apply list_elem_of_In|].
    by apply Hb.
Qed.

(** C8.  On an element node the second pass sets [staticRoot] to [true]
    exactly when the node is static, has at least one child, and its
    children are not a single text node.  A node marked as a root keeps its
    children and conditional branches as they are; on any other element the
    pass is applied to every child and to every conditional branch after the
    first.  On a tree without marks, the marks left by the pass are
    therefore those of [roots_marked]. *)
Theorem markStaticRoots_static_roots f children ifConditions isInFor :
  let f' := if is_static f || once f then set_staticInFor isInFor f else f in
  (qualifies f children = true ↔
   static f = Some true ∧ children ≠ [] ∧
   ¬ ∃ text s, children = [ASTText text s]) ∧
  (qualifies f children = true →
   markStaticRoots (ASTElement f children ifConditions) isInFor =
     ASTElement (set_staticRoot true f') children ifConditions) ∧
  (qualifies f children = false →
   markStaticRoots (ASTElement f children ifConditions) isInFor =
     ASTElement (set_staticRoot false f')
       (map (λ c, markStaticRoots c (isInFor || has_for f)) children)
       (option_map (map (λ b, markStaticRoots b isInFor)) ifConditions)) ∧
  (unmarked (ASTElement f children ifConditions) = true →
   roots_marked
     (markStaticRoots (ASTElement f children ifConditions) isInFor) = true).
Proof.
intros f'.
assert (qualifies f' children = qualifies f children) as Hq
  by (unfold f'; by destruct (is_static f || once f)).
assert (has_for f' = has_for f) as Hfor
  by (unfold f'; by destruct (is_static f || once f)).
split_and!.
- apply qualifies_spec.
- intros Hqual. simpl. fold f'. by rewrite Hq, Hqual.
- intros Hqual. simpl. fold f'. by rewrite Hq, Hqual, Hfor.
- apply markStaticRoots_marks.
Qed.

(** ** A concrete template

    [<div><p><span>a</span><b>x</b></p><i>text</i><u>{{ m }}</u></div>]
    after the first pass: the [p] subtree and [i] are static, [u] and
    hence [div] are not. *)
Definition el (tag : string) (static : bool) (children : list ASTNode)
    : ASTNode :=
  ASTElement (mkFlags tag (Some static) false None None None) children None.

Definition sample : ASTNode :=
  el "div" false
    [el "p" true [el "span" true [ASTText "a" (Some true)];
                  el "b" true [ASTText "x" (Some true)]];
     el "i" true [ASTText "text" (Some true)];
     el "u" false [ASTExpression "_s(m)" (Some false)]].

Definition root_flag (n : ASTNode) : option bool :=
  match n with
  | ASTElement f _ _ => staticRoot f
  | _ => None
  end.

Definition children_of (n : ASTNode) : list ASTNode :=
  match n with
  | ASTElement _ children _ => children
  | _ => []
  end.

Example sample_roots :
  root_flag (markStaticRoots sample false) = Some false ∧
  root_flag <$> children_of (markStaticRoots sample false) =
    [Some true; Some false; Some false] ∧
  head (children_of <$> children_of (markStaticRoots sample false)) =
    head (children_of <$> children_of sample).
Proof. vm_compute. done. Qed.

Lemma markStaticRoots_static_roots_witness :
  roots_marked (markStaticRoots sample false) = true ∧
  markStaticRoots
    (el "p" true [el "span" true [ASTText "a" (Some true)];
                  el "b" true [ASTText "x" (Some true)]]) false =
  ASTElement (mkFlags "p" (Some true) false None (Some false) (Some true))
    [el "span" true [ASTText "a" (Some true)];
     el "b" true [ASTText "x" (Some true)]] None.
Proof.
split.
- destruct (markStaticRoots_static_roots
              (mkFlags "div" (Some false) false None None None)
              (children_of sample) None false) as (_ & _ & _ & H).
  apply H. vm_compute. reflexivity.
- destruct (markStaticRoots_static_roots
              (mkFlags "p" (Some true) false None None None)
              [el "span" true [ASTText "a" (Some true)];
               el "b" true [ASTText "x" (Some true)]] None false)
    as (_ & H & _). apply H. vm_compute. reflexivity.
Defined.

(* --------------------------------------------------------------------- *)
(** ** The first pass and [optimize] *)

(** What the first pass reads of an element besides the fields of
    [ElementFlags]: the truthiness of [node.pre], [node.hasBindings] and
    [node.if], whether [node.attrsMap['inline-template']] is there,
    [Object.keys(node)], and the chain [node.parent], [node.parent.parent],
    ... as the tag and the truthiness of [for] of each ancestor.  The keys
    and the chain are not tied to the other fields or to the place of the
    node in the tree, so what is proved holds for every node. *)
Record ElementInfo := mkInfo {
  pre : bool;
  hasBindings : bool;
  if_ : bool;
  inline_template : bool;
  keys : list string;
  parents : list (string * bool) }.

Inductive Node :=
| Element (i : ElementInfo) (f : ElementFlags) (children : list Node)
          (ifConditions : option (list Node))
| Expression (text : string) (static : option bool)
| Text (text : string) (static : option bool).

(** The fields read by the second pass. *)
Fixpoint flags_of (n : Node) : ASTNode :=
  match n with
  | Element _ f children ifConditions =>
      ASTElement f (map flags_of children)
        (option_map (map flags_of) ifConditions)
  | Expression t s => ASTExpression t s
  | Text t s => ASTText t s
  end.

Definition static_of (n : Node) : option bool :=
  match n with
  | Element _ f _ _ => static f
  | Expression _ s | Text _ s => s
  end.

(** [node.static = b] on an element: the property is added to the object
    if it is not there yet. *)
Definition set_static (b : bool) (i : ElementInfo) (f : ElementFlags)
    : ElementInfo * ElementFlags :=
  (mkInfo (pre i) (hasBindings i) (if_ i) (inline_template i)
     (if bool_decide ("static" ∈ keys i) then keys i
      else keys i ++ ["static"])
     (parents i),
   mkFlags (tag f) (Some b) (once f) (for_ f) (staticInFor f)
     (staticRoot f)).

Fixpoint isDirectChildOfTemplateFor (parents : list (string * bool))
    : bool :=
  match parents with
  | [] => false
  | (t, for_) :: parents' =>
      if negb (String.eqb t "template") then false
      else if for_ then true
      else isDirectChildOfTemplateFor parents'
  end.

Section Passes.
(** [options.isReservedTag || no] *)
Variable isPlatformReservedTag : string → bool.
(** [isBuiltInTag] of shared/util, which is not part of the sources. *)
Variable isBuiltInTag : string → bool.
(** [options.staticKeys || ''] *)
Variable staticKeys : string.

(** Modelled from the spec: [makeMap] of shared/util is not part of the
    sources; [makeMap(str)] tests membership in the comma-separated list
    [str]. *)
Definition makeMap (str : string) (val : string) : bool :=
  bool_decide (val ∈ KeepAlive.split_comma str).

Definition genStaticKeys (keys : string) : string → bool :=
  makeMap
    ("type,tag,attrsList,attrsMap,plain,parent,children,attrs,start,end,rawAttrsMap"
     +:+ (if negb (String.eqb keys "") then "," +:+ keys else "")).

Definition isStaticKey : string → bool := genStaticKeys staticKeys.

(** [isStatic] on an element. *)
Definition isStatic_element (i : ElementInfo) (f : ElementFlags) : bool :=
  pre i ||
  (negb (hasBindings i) && negb (if_ i) && negb (has_for f) &&
   negb (isBuiltInTag (tag f)) && isPlatformReservedTag (tag f) &&
   negb (isDirectChildOfTemplateFor (parents i)) &&
   forallb isStaticKey (keys i)).

Definition isStatic (node : Node) : bool :=
  match node with
  | Expression _ _ => false
  | Text _ _ => true
  | Element i f _ _ => isStatic_element i f
  end.

(** The first pass goes into the children of an element unless the test
    [!isPlatformReservedTag(node.tag) && node.tag !== 'slot' &&
     node.attrsMap['inline-template'] == null] makes it return. *)
Definition descends (i : ElementInfo) (f : ElementFlags) : bool :=
  negb (negb (isPlatformReservedTag (tag f)) &&
        negb (String.eqb (tag f) "slot") && negb (inline_template i)).

(** [!child.static] is false *)
Definition static_true (n : Node) : bool :=
  bool_decide (static_of n = Some true).

Fixpoint markStatic (node : Node) : Node :=
  match node with
  | Expression t _ => Expression t (Some false)
  | Text t _ => Text t (Some true)
  | Element i f children ifConditions =>
      let s := isStatic_element i f in
      if descends i f then
        let children := map markStatic children in
        let s := s && forallb static_true children in
        let ifConditions := option_map (map markStatic) ifConditions in
        let s := s && match ifConditions with
                      | Some blocks => forallb static_true blocks
                      | None => true
                      end in
        let '(i, f) := set_static s i f in
        Element i f children ifConditions
      else
        let '(i, f) := set_static s i f in
        Element i f children ifConditions
  end.



















End Passes.
(** ** The two passes on a concrete template

    [<div><p><span>a</span><b>x</b></p><i>text</i><u>{{ m }}</u></div>]
    as the parser leaves it. *)
Definition parsed (tag : string) (children : list Node) : Node :=
  Element
    (mkInfo false false false false
       ["type"; "tag"; "attrsList"; "attrsMap"; "rawAttrsMap"; "parent";
        "children"; "plain"] [])
    (mkFlags tag None false None None None) children None.

Definition parsed_sample : Node :=
  parsed "div"
    [parsed "p" [parsed "span" [Text "a" None]; parsed "b" [Text "x" None]];
     parsed "i" [Text "text" None];
     parsed "u" [Expression "_s(m)" None]].

Definition html_tag (t : string) : bool :=
  bool_decide (t ∈ ["div"; "p"; "span"; "b"; "i"; "u"]).
Definition built_in_tag (t : string) : bool :=
  bool_decide (t ∈ ["slot"; "component"]).

(** The first pass leaves the marks of [sample]. *)
Example markStatic_sample :
  flags_of (markStatic html_tag built_in_tag "" parsed_sample) = sample.
Proof. vm_compute. reflexivity. Qed.

(** [<div><my-list><li>a</li></my-list></div>]: the pass does not go into
    the component, which is dynamic, and so is the [div]. *)
Example markStatic_component :
  let marked :=
    flags_of (markStatic html_tag built_in_tag ""
                (parsed "div"
                   [parsed "my-list" [parsed "li" [Text "a" None]]])) in
  marked =
  el "div" false
    [el "my-list" false
       [ASTElement (mkFlags "li" None false None None None)
          [ASTText "a" None] None]].
Proof. vm_compute. reflexivity. Qed.


End Optimizer.

(* ===================================================================== *)
(** * compiler/parser/html-parser.js: [parseHTML] *)
(* ===================================================================== *)

Module HtmlParser.

(** A JavaScript string is a sequence of UTF-16 code units. *)
Definition Char := N.

(** The code units of a literal. *)
Definition lit (s : string) : list Char :=
  N_of_ascii <$> list_ascii_of_string s.

(** ** Regular expressions

    The patterns of the parser use character classes, sequence, alternation,
    greedy and lazy repetition and capturing groups.  Matching follows the
    backtracking order of JavaScript: the first alternative first, a greedy
    repetition as long as possible first, a lazy one as short as possible
    first; an iteration of a repetition that consumes nothing is rejected. *)
Inductive Re :=
| Eps
| Chr (p : Char → bool)
| Seq (a b : Re)
| Alt (a b : Re)
| Star (greedy : bool) (a : Re)
| Group (i : nat) (a : Re).

(** Captured groups, the latest capture of a group first. *)
Definition Caps := list (nat * list Char).

Fixpoint cap (i : nat) (caps : Caps) : option (list Char) :=
  match caps with
  | [] => None
  | (j, s) :: caps' => if i =? j then Some s else cap i caps'
  end.

(** Repetition of a matcher [ma]: [n] bounds the number of iterations, each
    of which must consume something. *)
Fixpoint star_with {R}
    (ma : list Char → Caps → (list Char → Caps → option R) → option R)
    (greedy : bool) (k : list Char → Caps → option R)
    (n : nat) (s : list Char) (caps : Caps) : option R :=
  let more :=
    match n with
    | 0 => None
    | S n' =>
        ma s caps
          (λ s1 c1,
             if length s1 <? length s then star_with ma greedy k n' s1 c1
             else None)
    end in
  if greedy
  then match more with Some x => Some x | None => k s caps end
  else match k s caps with Some x => Some x | None => more end.

Fixpoint mt {R} (r : Re) (s : list Char) (caps : Caps)
    (k : list Char → Caps → option R) {struct r} : option R :=
  match r with
  | Eps => k s caps
  | Chr p =>
      match s with
      | c :: s' => if p c then k s' caps else None
      | [] => None
      end
  | Seq a b => mt a s caps (λ s1 c1, mt b s1 c1 k)
  | Alt a b =>
      match mt a s caps k with
      | Some x => Some x
      | None => mt b s caps k
      end
  | Star greedy a => star_with (mt a) greedy k (length s) s caps
  | Group i a =>
      mt a s caps
        (λ s1 c1, k s1 ((i, take (length s - length s1) s) :: c1))
  end.

(** Match at the start of the string ([^re]): length of the match and
    captures. *)
Definition re_match (r : Re) (s : list Char) : option (nat * Caps) :=
  mt r s [] (λ s1 c, Some (length s - length s1, c)).

Definition re_test (r : Re) (s : list Char) : bool :=
  bool_decide (is_Some (re_match r s)).

(** Leftmost match of an unanchored pattern: offset, length, captures. *)
Fixpoint re_search (r : Re) (s : list Char) : option (nat * nat * Caps) :=
  match re_match r s with
  | Some (n, c) => Some (0, n, c)
  | None =>
      match s with
      | [] => None
      | _ :: s' =>
          (λ '(off, n, c), (S off, n, c)) <$> re_search r s'
      end
  end.

(** Least number of code units a match consumes. *)
Fixpoint min_len (r : Re) : nat :=
  match r with
  | Eps => 0
  | Chr _ => 1
  | Seq a b => min_len a + min_len b
  | Alt a b => min_len a `min` min_len b
  | Star _ _ => 0
  | Group _ a => min_len a
  end.

(** Derived forms. *)
Definition Plus (greedy : bool) (a : Re) : Re := Seq a (Star greedy a).
Definition Opt (a : Re) : Re := Alt a Eps.
Definition ch (c : string) : Re :=
  Chr (λ x, bool_decide (x ∈ lit c)).
Definition not_ch (c : string) (extra : Char → bool) : Re :=
  Chr (λ x, negb (bool_decide (x ∈ lit c)) && negb (extra x)).
Definition any : Re := Chr (λ _, true).

(** ASCII upper-casing of a code unit: the canonicalization that the [i]
    flag applies to the letters of the patterns used here. *)
Definition upper (c : Char) : Char :=
  if ((97 <=? c) && (c <=? 122))%N then (c - 32)%N else c.

Fixpoint str_re (ci : bool) (s : list Char) : Re :=
  match s with
  | [] => Eps
  | c :: s' =>
      Seq (Chr (λ x, if ci then (upper x =? upper c)%N else (x =? c)%N))
          (str_re ci s')
  end.

(** ** What a match consumes *)

Lemma star_with_consumes {R}
    (ma : list Char → Caps → (list Char → Caps → option R) → option R)
    greedy (k : list Char → Caps → option R) n s caps x :
  (∀ s caps k' y, ma s caps k' = Some y →
     ∃ s1 c1, k' s1 c1 = Some y ∧ length s1 ≤ length s) →
  star_with ma greedy k n s caps = Some x →
  ∃ s1 c1, k s1 c1 = Some x ∧ length s1 ≤ length s.
Proof.
intros Hma. revert s caps x. induction n as [|n IHn]; intros s caps x; simpl.
- destruct greedy; [|destruct (k s caps) eqn:Hk]; try done.
  + intros Hk. by exists s, caps.
  + intros [= ->]. by exists s, caps.
- assert (∀ y, ma s caps
             (λ s1 c1, if length s1 <? length s
                       then star_with ma greedy k n s1 c1 else None) = Some y →
             ∃ s1 c1, k s1 c1 = Some y ∧ length s1 ≤ length s) as Hmore.
  { intros y (s1 & c1 & Hs & Hl)%Hma.
    destruct (Nat.ltb_spec (length s1) (length s)); [|done].
    apply IHn in Hs as (s2 & c2 & Hk & Hl2). exists s2, c2.
    split; [done|lia]. }
  destruct greedy.
  + destruct (ma s caps _) eqn:Hm.
    * intros [= ->]. by apply Hmore.
    * intros Hk. by exists s, caps.
  + destruct (k s caps) eqn:Hk.
    * intros [= ->]. by exists s, caps.
    * apply Hmore.
Qed.

Lemma mt_consumes {R} r s caps (k : list Char → Caps → option R) x :
  mt r s caps k = Some x →
  ∃ s1 c1, k s1 c1 = Some x ∧ length s1 + min_len r ≤ length s.
Proof.
revert s caps k x.
induction r as [|p|a IHa b IHb|a IHa b IHb|g a IHa|i a IHa];
  intros s caps k x; simpl.
- intros Hk. exists s, caps. split; [done|lia].
- destruct s as [|c s']; [done|]. destruct (p c); [|done].
  intros Hk. exists s', caps. split; [done|]. simpl. lia.
- intros (s1 & c1 & (s2 & c2 & Hk & Hl2)%IHb & Hl1)%IHa.
  exists s2, c2. split; [done|lia].
- destruct (mt a s caps k) eqn:Ha.
  + intros [= ->]. apply IHa in Ha as (s1 & c1 & Hk & Hl).
    exists s1, c1. split; [done|lia].
  + intros (s1 & c1 & Hk & Hl)%IHb. exists s1, c1. split; [done|lia].
- intros (s1 & c1 & Hk & Hl)%star_with_consumes.
  + exists s1, c1. split; [done|lia].
  + intros s' caps' k' y (s1 & c1 & Hk & Hl)%IHa. exists s1, c1.
    split; [done|lia].
- intros (s1 & c1 & Hk & Hl)%IHa. eauto.
Qed.

Lemma re_match_length r s n c :
  re_match r s = Some (n, c) → min_len r ≤ n ≤ length s.
Proof.
unfold re_match. intros (s1 & c1 & [= <- <-] & Hl)%mt_consumes. lia.
Qed.

Lemma re_search_length r s off n c :
  re_search r s = Some (off, n, c) → min_len r ≤ n ∧ off + n ≤ length s.
Proof.
revert off. induction s as [|x s IH]; intros off; simpl.
- destruct (re_match r []) as [[n' c']|] eqn:Hm; [|done].
  intros [= <- <- <-]. apply re_match_length in Hm. simpl in *. lia.
- destruct (re_match r (x :: s)) as [[n' c']|] eqn:Hm.
  + intros [= <- <- <-]. apply re_match_length in Hm. simpl in *. lia.
  + destruct (re_search r s) as [[[off' n'] c']|]; [|done]. simpl.
    intros [= <- <- <-]. destruct (IH off' eq_refl). lia.
Qed.


(** ** String operations *)

Fixpoint is_prefix (pat s : list Char) : bool :=
  match pat, s with
  | [], _ => true
  | p :: pat', c :: s' => (p =? c)%N && is_prefix pat' s'
  | _ :: _, [] => false
  end.

(** [s.indexOf(pat)]; [None] is [-1]. *)
Fixpoint index_of (pat s : list Char) : option nat :=
  if is_prefix pat s then Some 0
  else match s with
       | [] => None
       | _ :: s' => S <$> index_of pat s'
       end.

(** [s.indexOf(pat, from)] *)
Definition index_of_from (pat s : list Char) (from : nat) : option nat :=
  (λ n, from + n) <$> index_of pat (drop from s).

(** [s.substring(a, b)]: the arguments are swapped when [a > b]. *)
Definition substring (a b : nat) (s : list Char) : list Char :=
  take (a `max` b - a `min` b) (drop (a `min` b) s).

(** Modelled from the spec: [makeMap] of shared/util is not part of the
    sources; [makeMap('a,b', expectsLowerCase)] tests membership in the
    comma-separated list, lower-casing the argument first when
    [expectsLowerCase] is set. *)
Definition makeMap (names : list string) (expectsLowerCase : bool)
    (toLowerCase : list Char → list Char) (val : list Char) : bool :=
  bool_decide ((if expectsLowerCase then toLowerCase val else val)
               ∈ lit <$> names).

(** ** Character classes *)

Definition in_set (l : list N) (c : Char) : bool := bool_decide (c ∈ l).

(** [\s] *)
Definition is_space (c : Char) : bool :=
  in_set [9; 10; 11; 12; 13; 32; 160; 5760; 8232; 8233; 8239; 8287; 12288;
          65279]%N c || ((8192 <=? c) && (c <=? 8202))%N.

Definition is_alpha (c : Char) : bool :=
  (((65 <=? c) && (c <=? 90)) || ((97 <=? c) && (c <=? 122)))%N.
Definition is_digit (c : Char) : bool := ((48 <=? c) && (c <=? 57))%N.

(** [\w] *)
Definition is_word (c : Char) : bool :=
  is_alpha c || is_digit c || (c =? 95)%N.

(** Code units of the double quote, the single quote, the backtick and of
    the characters less-than, greater-than, slash and equals. *)
Definition dq : N := 34.
Definition sq : N := 39.
Definition backtick : N := 96.
Definition lt : N := 60.
Definition gt : N := 62.
Definition slash : N := 47.
Definition eq_sign : N := 61.

Definition ws : Re := Chr is_space.
(** Neither white space nor one of double quote, single quote, less-than,
    greater-than, slash, equals. *)
Definition attr_name_char : Re :=
  Chr (λ c, negb (is_space c || in_set [dq; sq; lt; gt; slash; eq_sign] c)).
(** Neither white space nor one of double quote, single quote, equals,
    less-than, greater-than, backtick. *)
Definition unquoted_char : Re :=
  Chr (λ c, negb (is_space c || in_set [dq; sq; eq_sign; lt; gt; backtick] c)).
Definition not_char (x : N) : Re := Chr (λ c, negb (c =? x)%N).
Definition char (x : N) : Re := Chr (λ c, (c =? x)%N).

(** ** Results of calls *)

Inductive Completion (A : Type) :=
| Normal (a : A)
| Throw (err : string)
| OutOfFuel.
Arguments Normal {A} a.
Arguments Throw {A} err.
Arguments OutOfFuel {A}.

#[global] Instance Completion_bind : MBind Completion :=
  λ A B f m,
    match m with
    | Normal a => f a
    | Throw e => Throw e
    | OutOfFuel => OutOfFuel
    end.

(** ** Data of the parser *)

(** A processed attribute: [{ name, value, start?, end? }]. *)
Record Attr := mkAttr {
  name : list Char;
  value : list Char;
  attr_start : option Z;
  attr_end : option Z }.

(** A match of an attribute pattern, with the [start] and [end] offsets the
    parser stores on it. *)
Record RawAttr := mkRawAttr {
  whole : list Char;
  groups : Caps;
  raw_start : Z;
  raw_end : Z }.

(** The result of [parseStartTag]. *)
Record StartTagMatch := mkMatch {
  tagName : list Char;
  attrs : list RawAttr;
  start : Z;
  unarySlash : list Char;
  end_ : Z }.

Record StackEntry := mkEntry {
  tag : list Char;
  lowerCasedTag : list Char;
  entry_attrs : list Attr;
  entry_start : Z;
  entry_end : Z }.

(** Calls of the callbacks in [options], in call order. *)
Inductive Event :=
| EvComment (text : list Char) (start end_ : Z)
| EvChars (text : list Char) (range : option (Z * Z))
| EvStart (tag : list Char) (attrs : list Attr) (unary : bool) (start end_ : Z)
| EvEnd (tag : list Char) (start end_ : Z)
| EvWarn (msg : list Char) (start : Z) (end_ : option Z)
| EvLog (html : list Char).

(** [options]: the flags, the two platform predicates (absent ones default
    to [no]) and which callbacks are present. *)
Record Options := mkOptions {
  expectHTML : bool;
  isUnaryTag : option (list Char → bool);
  canBeLeftOpenTag : option (list Char → bool);
  shouldKeepComment : bool;
  shouldDecodeNewlines : bool;
  shouldDecodeNewlinesForHref : bool;
  outputSourceRange : bool;
  has_comment : bool;
  has_chars : bool;
  has_start : bool;
  has_end : bool;
  has_warn : bool }.

(** The variables of [parseHTML]. *)
Record State := mkState {
  html : list Char;
  index : Z;
  stack : list StackEntry;
  lastTag : option (list Char);
  trace : list Event }.

Definition emit (e : Event) (st : State) : State :=
  mkState (html st) (index st) (stack st) (lastTag st) (trace st ++ [e]).

Definition emit_if (b : bool) (e : Event) (st : State) : State :=
  if b then emit e st else st.

Definition advance (n : nat) (st : State) : State :=
  mkState (drop n (html st)) (index st + Z.of_nat n) (stack st) (lastTag st)
    (trace st).

Definition no (_ : list Char) : bool := false.

Section Parser.
(** [process.env.NODE_ENV === 'production'] *)
Variable production : bool.
(** The character class [unicodeRegExp.source] of core/util/lang, which is
    not part of the sources. *)
Variable unicode_letter : Char → bool.
(** [String.prototype.toLowerCase] *)
Variable toLowerCase : list Char → list Char.
(** [isNonPhrasingTag] of web/compiler/util, not part of the sources. *)
Variable isNonPhrasingTag : list Char → bool.
Variable options : Options.

(** *** The patterns *)

(** [[a-zA-Z_][\-\.0-9_a-zA-Z${unicodeRegExp.source}]*] *)
Definition ncname : Re :=
  Seq (Chr (λ c, is_alpha c || (c =? 95)%N))
      (Star true (Chr (λ c, in_set [45; 46; 95]%N c || is_digit c ||
                            is_alpha c || unicode_letter c))).
(** [((?:ncname\:)?ncname)] *)
Definition qnameCapture : Re :=
  Group 1 (Seq (Opt (Seq ncname (char 58))) ncname).
Definition startTagOpen : Re := Seq (char lt) qnameCapture.
(** [^\s*(\/?)>] *)
Definition startTagClose : Re :=
  Seq (Star true ws) (Seq (Group 1 (Opt (char slash))) (char gt)).
(** [^<\/qname[^>]*>] *)
Definition endTag : Re :=
  Seq (char lt) (Seq (char slash)
    (Seq qnameCapture (Seq (Star true (not_char gt)) (char gt)))).
(** [^<!DOCTYPE [^>]+>], flag [i] *)
Definition doctype : Re :=
  Seq (str_re true (lit "<!DOCTYPE "))
      (Seq (Plus true (not_char gt)) (char gt)).
Definition comment : Re := str_re false (lit "<!--").
Definition conditionalComment : Re := str_re false (lit "<![").

(** The optional value part of an attribute: white space, equals, white
    space, then a double-quoted value (group 3), a single-quoted value
    (group 4) or an unquoted value (group 5). *)
Definition attr_value : Re :=
  Opt (Seq (Star true ws) (Seq (Group 2 (char eq_sign)) (Seq (Star true ws)
    (Alt (Seq (char dq) (Seq (Group 3 (Star true (not_char dq)))
                             (Plus true (char dq))))
    (Alt (Seq (char sq) (Seq (Group 4 (Star true (not_char sq)))
                             (Plus true (char sq))))
         (Group 5 (Plus true unquoted_char))))))).
(** [attribute]: white space, the name (group 1), the optional value. *)
Definition attribute : Re :=
  Seq (Star true ws) (Seq (Group 1 (Plus true attr_name_char)) attr_value).
(** [dynamicArgAttribute]: white space, a name of the form
    [v-word:], [@], [:] or [#] followed by a bracketed argument and more
    name characters (group 1), the optional value. *)
Definition dynamicArgAttribute : Re :=
  Seq (Star true ws)
    (Seq (Group 1
            (Seq (Alt (Seq (str_re false (lit "v-"))
                           (Seq (Plus true (Chr (λ c, is_word c || (c =? 45)%N)))
                                (char 58)))
                 (Alt (char 64) (Alt (char 58) (char 35))))
            (Seq (char 91) (Seq (Plus false (not_char eq_sign))
            (Seq (char 93) (Star true attr_name_char))))))
         attr_value).
(** [([\s\S]*?)(</stackedTag[^>]*>)], flag [i] *)
Definition reStackedTag (stackedTag : list Char) : Re :=
  Seq (Group 1 (Star false any))
      (Group 2 (Seq (str_re true (lit "</"))
               (Seq (str_re true stackedTag)
               (Seq (Star true (not_char gt)) (char gt))))).
(** [<!\--([\s\S]*?)-->] and [<!\[CDATA\[([\s\S]*?)]]>] *)
Definition inner_comment : Re :=
  Seq (str_re false (lit "<!--"))
      (Seq (Group 1 (Star false any)) (str_re false (lit "-->"))).
Definition inner_cdata : Re :=
  Seq (str_re false (lit "<![CDATA["))
      (Seq (Group 1 (Star false any)) (str_re false (lit "]]>"))).
(** [&(?:lt|gt|quot|amp|#39);] and [&(?:lt|gt|quot|amp|#39|#10|#9);] *)
Definition encodedAttr : Re :=
  Seq (char 38)
      (Seq (Alt (str_re false (lit "lt")) (Alt (str_re false (lit "gt"))
           (Alt (str_re false (lit "quot")) (Alt (str_re false (lit "amp"))
                (str_re false (lit "#39"))))))
           (char 59)).
Definition encodedAttrWithNewLines : Re :=
  Seq (char 38)
      (Seq (Alt (str_re false (lit "lt")) (Alt (str_re false (lit "gt"))
           (Alt (str_re false (lit "quot")) (Alt (str_re false (lit "amp"))
           (Alt (str_re false (lit "#39")) (Alt (str_re false (lit "#10"))
                (str_re false (lit "#9"))))))))
           (char 59)).

(** [s.replace(re, f)] with the [g] flag: every match, left to right, is
    replaced by [f] of the matched text and its captures.  The fuel bounds
    the number of matches, which is at most the length of the string. *)
Fixpoint replace_all (fuel : nat) (re : Re)
    (f : list Char → Caps → list Char) (s : list Char) : list Char :=
  match fuel with
  | 0 => s
  | S fuel' =>
      match re_search re s with
      | Some (off, n, caps) =>
          take off s ++ f (take n (drop off s)) caps ++
          match n with
          | 0 => take 1 (drop off s) ++
                 replace_all fuel' re f (drop (S off) s)
          | _ => replace_all fuel' re f (drop (off + n) s)
          end
      | None => s
      end
  end.

Definition decodingMap (m : list Char) : list Char :=
  if bool_decide (m = lit "&lt;") then [lt]
  else if bool_decide (m = lit "&gt;") then [gt]
  else if bool_decide (m = lit "&quot;") then [dq]
  else if bool_decide (m = lit "&amp;") then [38%N]
  else if bool_decide (m = lit "&#10;") then [10%N]
  else if bool_decide (m = lit "&#9;") then [9%N]
  else if bool_decide (m = lit "&#39;") then [sq]
  else lit "undefined".

Definition decodeAttr (value : list Char) (shouldDecodeNewlines : bool)
    : list Char :=
  replace_all (S (length value))
    (if shouldDecodeNewlines then encodedAttrWithNewLines else encodedAttr)
    (λ m _, decodingMap m) value.

Definition isPlainTextElement : list Char → bool :=
  makeMap ["script"; "style"; "textarea"] true toLowerCase.
Definition isIgnoreNewlineTag : list Char → bool :=
  makeMap ["pre"; "textarea"] true toLowerCase.

(** [tag && isIgnoreNewlineTag(tag) && html[0] === '\n'] *)
Definition shouldIgnoreFirstNewline (tag html : list Char) : bool :=
  negb (bool_decide (tag = [])) && isIgnoreNewlineTag tag &&
  bool_decide (head html = Some 10%N).

(** *** [parseEndTag] *)

(** [for (pos = stack.length - 1; pos >= 0; pos--)
       if (stack[pos].lowerCasedTag === lowerCasedTagName) break]:
    the position found, or [None] for [-1]. *)
Fixpoint find_pos (stack : list StackEntry) (lowerCasedTagName : list Char)
    (n : nat) : option nat :=
  match n with
  | 0 => None
  | S pos =>
      match stack !! pos with
      | Some e =>
          if bool_decide (lowerCasedTag e = lowerCasedTagName) then Some pos
          else find_pos stack lowerCasedTagName pos
      | None => find_pos stack lowerCasedTagName pos
      end
  end.

Definition no_matching_end_tag (tag : list Char) : list Char :=
  lit "tag <" ++ tag ++ lit "> has no matching end tag.".

(** [for (let i = stack.length - 1; i >= pos; i--) { ... }]: [closing]
    lists the entries at positions [stack.length - 1] down to [pos] with
    their positions. *)
Fixpoint close_tags (tagName_truthy : bool) (pos : nat) (start end_ : Z)
    (closing : list (nat * StackEntry)) (st : State) : State :=
  match closing with
  | [] => st
  | (i, e) :: closing' =>
      let st :=
        emit_if (negb production &&
                 (bool_decide (pos < i) || negb tagName_truthy) &&
                 has_warn options)
          (EvWarn (no_matching_end_tag (tag e)) (entry_start e)
             (Some (entry_end e))) st in
      let st := emit_if (has_end options) (EvEnd (tag e) start end_) st in
      close_tags tagName_truthy pos start end_ closing' st
  end.

Definition parseEndTag (tagName : option (list Char))
    (start end_ : option Z) (st : State) : State :=
  let start := default (index st) start in
  let end_ := default (index st) end_ in
  let truthy := match tagName with Some (_ :: _) => true | _ => false end in
  let lowerCasedTagName := toLowerCase <$> tagName in
  let pos :=
    if truthy
    then find_pos (stack st) (default [] lowerCasedTagName)
           (length (stack st))
    else Some 0 in
  match pos with
  | Some pos =>
      let closing :=
        reverse (drop pos (imap (λ i e, (i, e)) (stack st))) in
      let st := close_tags truthy pos start end_ closing st in
      mkState (html st) (index st) (take pos (stack st))
        (match pos with
         | 0 => None
         | S p => tag <$> stack st !! p
         end)
        (trace st)
  | None =>
      if truthy && bool_decide (lowerCasedTagName = Some (lit "br")) then
        emit_if (has_start options)
          (EvStart (default [] tagName) [] true start end_) st
      else if truthy && bool_decide (lowerCasedTagName = Some (lit "p")) then
        emit_if (has_end options) (EvEnd (default [] tagName) start end_)
          (emit_if (has_start options)
             (EvStart (default [] tagName) [] false start end_) st)
      else st
  end.

(** *** [parseStartTag] *)

(** [while (!(end = html.match(startTagClose)) &&
            (attr = html.match(dynamicArgAttribute) || html.match(attribute)))]
    Returns the attributes collected, the match of [startTagClose] if the
    loop ended on it, and the state. *)
Fixpoint parse_attrs (fuel : nat) (m_attrs : list RawAttr) (st : State)
    : Completion (list RawAttr * option (nat * Caps) * State) :=
  match re_match startTagClose (html st) with
  | Some e => Normal (m_attrs, Some e, st)
  | None =>
      match
        match re_match dynamicArgAttribute (html st) with
        | Some a => Some a
        | None => re_match attribute (html st)
        end
      with
      | Some (n, caps) =>
          match fuel with
          | 0 => OutOfFuel
          | S fuel' =>
              let st' := advance n st in
              parse_attrs fuel'
                (m_attrs ++
                 [mkRawAttr (take n (html st)) caps (index st) (index st')])
                st'
          end
      | None => Normal (m_attrs, None, st)
      end
  end.

Definition parseStartTag (st : State)
    : Completion (option StartTagMatch * State) :=
  match re_match startTagOpen (html st) with
  | Some (n, caps) =>
      let tagName := default [] (cap 1 caps) in
      let start := index st in
      let st := advance n st in
      '(m_attrs, e, st) ← parse_attrs (S (length (html st))) [] st;
      match e with
      | Some (en, ecaps) =>
          let st := advance en st in
          Normal (Some (mkMatch tagName m_attrs start
                          (default [] (cap 1 ecaps)) (index st)), st)
      | None => Normal (None, st)
      end
  | None => Normal (None, st)
  end.

(** *** [handleStartTag] *)

(** [a || b]: the first non-empty string. *)
Definition or_str (a : option (list Char)) (b : list Char) : list Char :=
  match a with
  | Some (c :: a') => c :: a'
  | _ => b
  end.

Definition process_attr (tagName : list Char) (args : RawAttr) : Attr :=
  let value :=
    or_str (cap 3 (groups args))
      (or_str (cap 4 (groups args)) (or_str (cap 5 (groups args)) [])) in
  let shouldDecodeNewlines :=
    if bool_decide (tagName = lit "a") &&
       bool_decide (cap 1 (groups args) = Some (lit "href"))
    then shouldDecodeNewlinesForHref options
    else shouldDecodeNewlines options in
  let ranged := negb production && outputSourceRange options in
  mkAttr (default [] (cap 1 (groups args)))
    (decodeAttr value shouldDecodeNewlines)
    (if ranged then Some (raw_start args + 1)%Z else None)
    (if ranged then Some (raw_end args) else None).

Definition handleStartTag (m : StartTagMatch) (st : State) : State :=
  let st :=
    if expectHTML options then
      let st :=
        if bool_decide (lastTag st = Some (lit "p")) &&
           isNonPhrasingTag (tagName m)
        then parseEndTag (lastTag st) None None st else st in
      if default no (canBeLeftOpenTag options) (tagName m) &&
         bool_decide (lastTag st = Some (tagName m))
      then parseEndTag (Some (tagName m)) None None st else st
    else st in
  let unary :=
    default no (isUnaryTag options) (tagName m) ||
    negb (bool_decide (unarySlash m = [])) in
  let attrs := process_attr (tagName m) <$> attrs m in
  let st :=
    if negb unary
    then mkState (html st) (index st)
           (stack st ++
            [mkEntry (tagName m) (toLowerCase (tagName m)) attrs (start m)
               (end_ m)])
           (Some (tagName m)) (trace st)
    else st in
  emit_if (has_start options)
    (EvStart (tagName m) attrs unary (start m) (end_ m)) st.

(** *** The main loop *)

(** The case [textEnd === 0], one definition for each test, in the order
    of the source, each falling through to the next.  The flag of the result
    says whether the iteration ended with [continue]. *)
Definition open_start_tag (st : State) : Completion (State * bool) :=
  '(m, st) ← parseStartTag st;
  match m with
  | Some m =>
      let st := handleStartTag m st in
      let st := if shouldIgnoreFirstNewline (tagName m) (html st)
                then advance 1 st else st in
      Normal (st, true)
  | None => Normal (st, false)
  end.

Definition open_end_tag (st : State) : Completion (State * bool) :=
  match re_match endTag (html st) with
  | Some (n, caps) =>
      let curIndex := index st in
      let st := advance n st in
      Normal (parseEndTag (cap 1 caps) (Some curIndex) (Some (index st)) st,
              true)
  | None => open_start_tag st
  end.

Definition open_doctype (st : State) : Completion (State * bool) :=
  match re_match doctype (html st) with
  | Some (n, _) => Normal (advance n st, true)
  | None => open_end_tag st
  end.

Definition open_conditional (st : State) : Completion (State * bool) :=
  if re_test conditionalComment (html st) then
    let st := emit (EvLog (html st)) st in
    match index_of (lit "]>") (html st) with
    | Some conditionalEnd => Normal (advance (conditionalEnd + 2) st, true)
    | None => open_doctype st
    end
  else open_doctype st.

Definition tag_open (st : State) : Completion (State * bool) :=
  if re_test comment (html st) then
    match index_of (lit "-->") (html st) with
    | Some commentEnd =>
        st ← (if shouldKeepComment options then
                if has_comment options then
                  Normal (emit (EvComment (substring 4 commentEnd (html st))
                                  (index st)
                                  (index st + Z.of_nat commentEnd + 3)%Z) st)
                else Throw "TypeError: options.comment is not a function"
              else Normal st);
        Normal (advance (commentEnd + 3) st, true)
    | None => open_conditional st
    end
  else open_conditional st.

(** The pattern tests that stop the scan for the end of the text. *)
Definition text_stops (rest : list Char) : bool :=
  re_test endTag rest || re_test startTagOpen rest ||
  re_test comment rest || re_test conditionalComment rest.

(** [while (!endTag.test(rest) && ...) { next = rest.indexOf('<', 1); ... }]:
    the final [textEnd]. *)
Fixpoint scan_text (fuel : nat) (html : list Char) (textEnd : nat)
    : Completion nat :=
  let rest := drop textEnd html in
  if text_stops rest then Normal textEnd
  else
    match index_of_from [lt] rest 1 with
    | None => Normal textEnd
    | Some next =>
        match fuel with
        | 0 => OutOfFuel
        | S fuel' => scan_text fuel' html (textEnd + next)
        end
    end.

(** The text part of an iteration; [textEnd] was computed when the
    iteration began. *)
Definition text_part (textEnd : option nat) (st : State)
    : Completion State :=
  text ← match textEnd with
         | Some textEnd =>
             textEnd ← scan_text (S (length (html st))) (html st) textEnd;
             Normal (substring 0 textEnd (html st))
         | None => Normal (html st)
         end;
  let st := if bool_decide (text = []) then st
            else advance (length text) st in
  Normal (emit_if (has_chars options && negb (bool_decide (text = [])))
            (EvChars text
               (Some ((index st - Z.of_nat (length text))%Z, index st)))
            st).

(** The branch for the content of [script], [style] and [textarea]. *)
Definition plain_text_part (lastTag : list Char) (st : State) : State :=
  let stackedTag := toLowerCase lastTag in
  let '(rest, endTagLength, st) :=
    match re_search (reStackedTag stackedTag) (html st) with
    | Some (off, n, caps) =>
        let text := default [] (cap 1 caps) in
        let text :=
          if negb (isPlainTextElement stackedTag) &&
             negb (bool_decide (stackedTag = lit "noscript"))
          then replace_all (S (length text)) inner_cdata
                 (λ _ c, default [] (cap 1 c))
                 (replace_all (S (length text)) inner_comment
                    (λ _ c, default [] (cap 1 c)) text)
          else text in
        let text := if shouldIgnoreFirstNewline stackedTag text
                    then drop 1 text else text in
        (take off (html st) ++ drop (off + n) (html st),
         length (default [] (cap 2 caps)),
         emit_if (has_chars options) (EvChars text None) st)
    | None => (html st, 0, st)
    end in
  let index' :=
    (index st + (Z.of_nat (length (html st)) - Z.of_nat (length rest)))%Z in
  let st := mkState rest index' (stack st) (Some lastTag) (trace st) in
  parseEndTag (Some stackedTag) (Some (index' - Z.of_nat endTagLength)%Z)
    (Some index') st.

(** The body of the [while] loop up to the test [html === last]; the flag
    says whether the iteration ended with [continue]. *)
Definition markup_part (st : State) : Completion (State * bool) :=
  let textEnd := index_of [lt] (html st) in
  r ← (if bool_decide (textEnd = Some 0) then tag_open st
       else Normal (st, false));
  match r with
  | (st, true) => Normal (st, true)
  | (st, false) => st ← text_part textEnd st; Normal (st, false)
  end.

Definition iteration_body (st : State) : Completion (State * bool) :=
  match lastTag st with
  | Some (c :: t) =>
      if isPlainTextElement (c :: t)
      then Normal (plain_text_part (c :: t) st, false)
      else markup_part st
  | _ => markup_part st
  end.

Definition malformatted_message (html : list Char) : list Char :=
  lit "Mal-formatted tag at end of template: " ++ [dq] ++ html ++ [dq].

(** The block run when [html === last]: the rest of the template is passed
    to [options.chars] and the loop is left. *)
Definition no_progress_exit (st : State) : State :=
  let st := emit_if (has_chars options) (EvChars (html st) None) st in
  emit_if (negb production && bool_decide (stack st = []) && has_warn options)
    (EvWarn (malformatted_message (html st))
       (index st + Z.of_nat (length (html st)))%Z None) st.

(** [while (html) { ... }] *)
Fixpoint parse_loop (fuel : nat) (st : State) : Completion State :=
  match html st with
  | [] => Normal st
  | _ :: _ =>
      match fuel with
      | 0 => OutOfFuel
      | S fuel' =>
          r ← iteration_body st;
          match r with
          | (st1, true) => parse_loop fuel' st1
          | (st1, false) =>
              if bool_decide (html st1 = html st)
              then Normal (no_progress_exit st1)
              else parse_loop fuel' st1
          end
      end
  end.

(** [parseHTML(html, options)]: the calls made to the callbacks. *)
Definition parseHTML (html : list Char) : Completion (list Event) :=
  st ← parse_loop (S (length html)) (mkState html 0 [] None []);
  Normal (trace (parseEndTag None None None st)).

(** *** Progress of the parser *)

(** [a] is [b] or is shorter than [b]. *)
Definition shrinks (a b : list Char) : Prop :=
  a = b ∨ length a < length b.

Lemma shrinks_refl a : shrinks a a.
Proof. by left. Qed.

Lemma shrinks_trans a b c : shrinks a b → shrinks b c → shrinks a c.
Proof. intros [->|Hab] [->|Hbc]; unfold shrinks; auto; right; lia. Qed.

Lemma shrinks_length a b : shrinks a b → length a ≤ length b.
Proof. intros [->|?]; lia. Qed.

Lemma drop_shrinks n (h : list Char) : shrinks (drop n h) h.
Proof.
  destruct n as [|n]; [left; apply drop_0|].
  destruct h as [|c h]; [by left|].
  right. rewrite length_drop. simpl. lia.
Qed.

Lemma drop_shorter n (h : list Char) :
  0 < n → h ≠ [] → length (drop n h) < length h.
Proof.
  intros Hn Hh. destruct h as [|c h]; [done|].
  rewrite length_drop. simpl. lia.
Qed.

Lemma html_emit_if b e st : html (emit_if b e st) = html st.
Proof. by destruct b. Qed.

Lemma stack_emit_if b e st : stack (emit_if b e st) = stack st.
Proof. by destruct b. Qed.

Lemma index_emit_if b e st : index (emit_if b e st) = index st.
Proof. by destruct b. Qed.

Lemma html_close_tags t pos start end_ closing st :
  html (close_tags t pos start end_ closing st) = html st.
Proof.
  revert st. induction closing as [|[i e] closing IH]; intros st; [done|].
  simpl. rewrite IH. by rewrite !html_emit_if.
Qed.

Lemma html_parseEndTag tagName start end_ st :
  html (parseEndTag tagName start end_ st) = html st.
Proof.
  unfold parseEndTag.
  destruct (if _ : bool then _ else _) as [pos|].
  - simpl. apply html_close_tags.
  - repeat case_match; by rewrite ?html_emit_if.
Qed.

Lemma html_handleStartTag m st : html (handleStartTag m st) = html st.
Proof.
  unfold handleStartTag. rewrite html_emit_if.
  repeat case_match; simpl; by rewrite ?html_parseEndTag.
Qed.

Lemma match_progress r s n c :
  re_match r s = Some (n, c) → 0 < min_len r →
  length (drop n s) < length s.
Proof.
  intros Hm Hmin. apply re_match_length in Hm.
  rewrite length_drop. lia.
Qed.

Lemma min_len_attribute : 0 < min_len attribute.
Proof. vm_compute. lia. Qed.

Lemma min_len_dynamicArgAttribute : 0 < min_len dynamicArgAttribute.
Proof. vm_compute. lia. Qed.

Lemma min_len_startTagOpen : 0 < min_len startTagOpen.
Proof. vm_compute. lia. Qed.

Lemma min_len_endTag : 0 < min_len endTag.
Proof. vm_compute. lia. Qed.

Lemma min_len_doctype : 0 < min_len doctype.
Proof. vm_compute. lia. Qed.

(** The attribute loop ends: every attribute matched is at least one
    character long. *)
Lemma parse_attrs_ok fuel acc st :
  length (html st) < fuel →
  ∃ a e st', parse_attrs fuel acc st = Normal (a, e, st') ∧
             shrinks (html st') (html st).
Proof.
  revert acc st. induction fuel as [|fuel IH]; intros acc st Hf; [lia|].
  simpl. destruct (re_match startTagClose (html st)) as [e|].
  { eexists _, _, _. split; [done|apply shrinks_refl]. }
  destruct (re_match dynamicArgAttribute (html st)) as [[n c]|] eqn:Hd.
  - pose proof (match_progress _ _ _ _ Hd min_len_dynamicArgAttribute) as Hp.
    edestruct (IH (acc ++ [mkRawAttr (take n (html st)) c (index st)
                             (index (advance n st))]) (advance n st))
      as (a & e & st' & Heq & Hs); [simpl; lia|].
    eexists _, _, _. split; [exact Heq|].
    eapply shrinks_trans; [exact Hs|]. right. exact Hp.
  - destruct (re_match attribute (html st)) as [[n c]|] eqn:Ha.
    + pose proof (match_progress _ _ _ _ Ha min_len_attribute) as Hp.
      edestruct (IH (acc ++ [mkRawAttr (take n (html st)) c (index st)
                               (index (advance n st))]) (advance n st))
        as (a & e & st' & Heq & Hs); [simpl; lia|].
      eexists _, _, _. split; [exact Heq|].
      eapply shrinks_trans; [exact Hs|]. right. exact Hp.
    + eexists _, _, _. split; [done|apply shrinks_refl].
Qed.

Lemma parseStartTag_ok st :
  ∃ m st', parseStartTag st = Normal (m, st') ∧
           shrinks (html st') (html st) ∧
           (is_Some m → length (html st') < length (html st)).
Proof.
  unfold parseStartTag.
  destruct (re_match startTagOpen (html st)) as [[n c]|] eqn:Ho.
  - pose proof (match_progress _ _ _ _ Ho min_len_startTagOpen) as Hp.
    destruct (parse_attrs_ok (S (length (html (advance n st)))) []
                (advance n st)) as (a & e & st' & -> & Hs); [lia|].
    simpl in Hs. apply shrinks_length in Hs.
    simpl. destruct e as [[en ec]|]; eexists _, _; (split; [done|]); simpl.
    + pose proof (shrinks_length _ _ (drop_shrinks en (html st'))).
      split; [right|intros _]; lia.
    + split; [right; lia|]. intros [? ?]; done.
  - eexists _, _. split; [done|]. split; [apply shrinks_refl|].
    intros [? ?]; done.
Qed.

Lemma index_of_nonempty p pat s j :
  index_of (p :: pat) s = Some j → s ≠ [].
Proof. by destruct s. Qed.

(** The scan for the end of the text ends: [textEnd] grows at each turn and
    stays within the template. *)
Lemma scan_text_ok fuel h textEnd :
  length h - textEnd < fuel →
  ∃ textEnd', scan_text fuel h textEnd = Normal textEnd'.
Proof.
  revert textEnd. induction fuel as [|fuel IH]; intros textEnd Hf; [lia|].
  simpl. destruct (text_stops (drop textEnd h)); [by eexists|].
  unfold index_of_from.
  destruct (index_of [lt] (drop 1 (drop textEnd h))) as [j|] eqn:Hj;
    simpl; [|by eexists].
  apply IH. apply index_of_nonempty in Hj.
  assert (length (drop 1 (drop textEnd h)) ≠ 0) as Hl
    by (by destruct (drop 1 (drop textEnd h))).
  rewrite !length_drop in Hl. lia.
Qed.

Lemma text_part_ok textEnd st :
  ∃ st', text_part textEnd st = Normal st' ∧ shrinks (html st') (html st).
Proof.
  unfold text_part. destruct textEnd as [textEnd|].
  - destruct (scan_text_ok (S (length (html st))) (html st) textEnd)
      as [textEnd' ->]; [lia|].
    simpl. eexists. split; [done|]. rewrite html_emit_if.
    case_bool_decide; [apply shrinks_refl|apply drop_shrinks].
  - simpl. eexists. split; [done|]. rewrite html_emit_if.
    case_bool_decide; [apply shrinks_refl|apply drop_shrinks].
Qed.

(** What the proofs below establish of a part of an iteration begun in
    [st]: it completes, the template has not grown, and it is shorter after
    a [continue]. *)
Definition advances (st : State) (r : Completion (State * bool)) : Prop :=
  ∃ st' c, r = Normal (st', c) ∧ shrinks (html st') (html st) ∧
           (c = true → length (html st') < length (html st)).

Lemma open_start_tag_ok st : advances st (open_start_tag st).
Proof.
  unfold open_start_tag.
  destruct (parseStartTag_ok st) as (m & st' & -> & Hs & Hm). simpl.
  destruct m as [m|].
  - specialize (Hm ltac:(eauto)).
    assert (length (html (handleStartTag m st')) < length (html st))
      by (by rewrite html_handleStartTag).
    eexists _, _. split; [done|].
    destruct (shouldIgnoreFirstNewline _ _); simpl.
    + pose proof (shrinks_length _ _
                    (drop_shrinks 1 (html (handleStartTag m st')))).
      split; [right|intros _]; lia.
    + split; [right|intros _]; lia.
  - eexists _, _. split; [done|]. split; [done|]. done.
Qed.

Lemma open_end_tag_ok st : advances st (open_end_tag st).
Proof.
  unfold open_end_tag.
  destruct (re_match endTag (html st)) as [[n c]|] eqn:He;
    [|apply open_start_tag_ok].
  pose proof (match_progress _ _ _ _ He min_len_endTag) as Hp.
  eexists _, _. split; [done|]. rewrite html_parseEndTag. simpl.
  split; [right|intros _]; lia.
Qed.

Lemma open_doctype_ok st : advances st (open_doctype st).
Proof.
  unfold open_doctype.
  destruct (re_match doctype (html st)) as [[n c]|] eqn:He;
    [|apply open_end_tag_ok].
  pose proof (match_progress _ _ _ _ He min_len_doctype) as Hp.
  eexists _, _. split; [done|]. simpl.
  split; [right|intros _]; lia.
Qed.

Lemma emitted_advances e st r :
  advances (emit e st) r → advances st r.
Proof. done. Qed.

Lemma open_conditional_ok st :
  html st ≠ [] → advances st (open_conditional st).
Proof.
  intros Hh. unfold open_conditional.
  destruct (re_test conditionalComment (html st)); [|apply open_doctype_ok].
  simpl. destruct (index_of _ _) as [conditionalEnd|].
  - pose proof (drop_shorter (conditionalEnd + 2) (html st)
                  ltac:(lia) Hh) as Hp.
    eexists _, _. split; [done|]. simpl. split; [right|intros _]; lia.
  - apply (emitted_advances (EvLog (html st))), open_doctype_ok.
Qed.

Lemma tag_open_ok st :
  (shouldKeepComment options = true → has_comment options = true) →
  html st ≠ [] → advances st (tag_open st).
Proof.
  intros Hok Hh. unfold tag_open.
  destruct (re_test comment (html st)); [|by apply open_conditional_ok].
  destruct (index_of _ _) as [commentEnd|]; [|by apply open_conditional_ok].
  pose proof (drop_shorter (commentEnd + 3) (html st) ltac:(lia) Hh) as Hp.
  destruct (shouldKeepComment options).
  - rewrite Hok by done. eexists _, _. split; [done|]. simpl.
    split; [right|intros _]; lia.
  - eexists _, _. split; [done|]. simpl. split; [right|intros _]; lia.
Qed.

Lemma cut_shrinks off n (h : list Char) :
  shrinks (take off h ++ drop (off + n) h) h.
Proof.
  destruct n as [|n].
  - left. rewrite Nat.add_0_r. apply take_drop.
  - destruct (decide (off < length h)) as [Hlt|Hge].
    + right. rewrite length_app, length_take, length_drop. lia.
    + left. rewrite take_ge, drop_ge by lia. apply app_nil_r.
Qed.

Lemma plain_text_part_ok t st :
  shrinks (html (plain_text_part t st)) (html st).
Proof.
  unfold plain_text_part.
  destruct (re_search _ _) as [[[off n] caps]|].
  - rewrite html_parseEndTag. simpl. apply cut_shrinks.
  - rewrite html_parseEndTag. simpl. apply shrinks_refl.
Qed.

Lemma markup_part_ok st :
  (shouldKeepComment options = true → has_comment options = true) →
  html st ≠ [] → advances st (markup_part st).
Proof.
  intros Hok Hh. unfold markup_part.
  assert (advances st (if bool_decide (index_of [lt] (html st) = Some 0)
                       then tag_open st else Normal (st, false)))
    as (st1 & c & -> & Hs & Hc).
  { case_bool_decide; [by apply tag_open_ok|].
    eexists _, _. split; [done|]. split; [apply shrinks_refl|done]. }
  simpl. destruct c.
  - eexists _, _. split; [done|]. split; [done|]. done.
  - destruct (text_part_ok (index_of [lt] (html st)) st1) as (st2 & -> & Hs2).
    simpl. eexists _, _. split; [done|].
    split; [by eapply shrinks_trans|done].
Qed.

(** Every iteration completes, and leaves the template as it was or
    shorter; after a [continue] it is shorter. *)
Lemma iteration_body_ok st :
  (shouldKeepComment options = true → has_comment options = true) →
  html st ≠ [] → advances st (iteration_body st).
Proof.
  intros Hok Hh. unfold iteration_body.
  destruct (lastTag st) as [[|c t]|]; try by apply markup_part_ok.
  destruct (isPlainTextElement (c :: t)); [|by apply markup_part_ok].
  eexists _, _. split; [done|]. split; [apply plain_text_part_ok|done].
Qed.

Lemma parse_loop_ok fuel st :
  (shouldKeepComment options = true → has_comment options = true) →
  length (html st) < fuel →
  ∃ st', parse_loop fuel st = Normal st'.
Proof.
  intros Hok. revert st.
  induction fuel as [|fuel IH]; intros st Hf; [lia|].
  simpl. destruct (html st) as [|c h] eqn:Hh; [by eexists|].
  destruct (iteration_body_ok st Hok) as (st1 & k & -> & Hs & Hk);
    [by rewrite Hh|].
  rewrite Hh in Hs, Hk. simpl. destruct k.
  - apply IH. specialize (Hk eq_refl). simpl in *. lia.
  - case_bool_decide as Heq; [by eexists|].
    apply IH. destruct Hs as [?|Hs]; [done|]. simpl in *. lia.
Qed.

(** ** C9 *)

(** C9: [parseHTML] ends on every template and does not throw, provided
    [options.comment] is there when [options.shouldKeepComment] is set (the
    callbacks themselves are taken to return).  Every iteration of the main
    loop, begun with a non-empty template, completes and either leaves a
    shorter template and the loop goes on, or leaves the template as it was,
    and then the loop is left through the block of [html === last].  That
    block passes the whole remainder to [options.chars] if it is there,
    then calls [options.warn] at most once, and changes nothing else. *)
Theorem parseHTML_terminates
    (Hok : shouldKeepComment options = true → has_comment options = true)
    (template : list Char) :
  (∃ events, parseHTML template = Normal events) ∧
  (∀ st fuel, html st ≠ [] →
     ∃ st1 c, iteration_body st = Normal (st1, c) ∧
       ((length (html st1) < length (html st) ∧
         parse_loop (S fuel) st = parse_loop fuel st1) ∨
        (c = false ∧ html st1 = html st ∧
         parse_loop (S fuel) st = Normal (no_progress_exit st1)))) ∧
  (∀ st,
     html (no_progress_exit st) = html st ∧
     index (no_progress_exit st) = index st ∧
     stack (no_progress_exit st) = stack st ∧
     lastTag (no_progress_exit st) = lastTag st ∧
     trace (no_progress_exit st) =
       trace st ++
       (if has_chars options then [EvChars (html st) None] else []) ++
       (if negb production && bool_decide (stack st = []) && has_warn options
        then [EvWarn (malformatted_message (html st))
                (index st + Z.of_nat (length (html st)))%Z None]
        else [])).
Proof.
  split; [|split].
  - unfold parseHTML.
    destruct (parse_loop_ok (S (length template))
                (mkState template 0 [] None []) Hok) as [st ->];
      [simpl; lia|].
    by eexists.
  - intros st fuel Hh.
    destruct (iteration_body_ok st Hok Hh) as (st1 & c & Heq & Hs & Hc).
    exists st1, c. split; [done|].
    simpl. destruct (html st) as [|x h] eqn:Hx; [done|].
    rewrite Heq. simpl. destruct c.
    + left. split; [by apply Hc|done].
    + case_bool_decide as Hsame.
      * right. by rewrite Hsame.
      * left. split; [|done]. destruct Hs as [?|?]; [done|]. simpl in *. lia.
  - intros st. unfold no_progress_exit.
    destruct (has_chars options), (negb production), (stack st) eqn:Hst,
      (has_warn options); simpl; rewrite ?Hst; simpl;
      rewrite <- ?app_assoc, ?app_nil_r; done.
Qed.

(* --------------------------------------------------------------------- *)
(** ** Further properties of the tokenizer *)

(** *** Nesting of the [start] and [end] calls *)

(** Replays the calls on a stack of open tags: a [start] call that is not
    unary opens its tag, an [end] call must close the tag opened last.
    [None] when an [end] call finds another tag, or none, open. *)
Fixpoint nest (evs : list Event) (open : list (list Char))
    : option (list (list Char)) :=
  match evs with
  | [] => Some open
  | EvStart t _ false _ _ :: evs' => nest evs' (t :: open)
  | EvEnd t _ _ :: evs' =>
      match open with
      | t' :: open' =>
          if bool_decide (t' = t) then nest evs' open' else None
      | [] => None
      end
  | _ :: evs' => nest evs' open
  end.

Lemma nest_app evs1 evs2 open :
  nest (evs1 ++ evs2) open = nest evs1 open ≫= nest evs2.
Proof.
  revert open. induction evs1 as [|e evs1 IH]; intros open; [done|].
  destruct e as [| | t a [] s e| t s e | |]; simpl; try apply IH.
  destruct open as [|t' open']; [done|]. case_bool_decide; [apply IH|done].
Qed.

(** The calls made so far leave open exactly the tags of the stack, the top
    of the stack opened last. *)
Definition nested (st : State) : Prop :=
  nest (trace st) [] = Some (reverse (tag <$> stack st)).

Section Nesting.
Hypothesis Hstart : has_start options = true.
Hypothesis Hend : has_end options = true.

Lemma nest_emit_if b e st open :
  (∀ o, nest [e] o = Some o) →
  nest (trace st) [] = Some open →
  nest (trace (emit_if b e st)) [] = Some open.
Proof.
  intros He Hn. destruct b; [|done]. simpl. rewrite nest_app, Hn. apply He.
Qed.

Lemma trace_emit_if b e st :
  trace (emit_if b e st) = trace st ++ (if b then [e] else []).
Proof. destruct b; simpl; by rewrite ?app_nil_r. Qed.

Lemma close_tags_nest t pos start end_ closing st open :
  nest (trace st) [] = Some (((λ ie, tag ie.2) <$> closing) ++ open) →
  nest (trace (close_tags t pos start end_ closing st)) [] = Some open.
Proof.
  revert st. induction closing as [|[i e] closing IH]; intros st Hn; [done|].
  simpl. apply IH. rewrite Hend. simpl. rewrite trace_emit_if, !nest_app.
  rewrite Hn. destruct (_ && _ : bool); simpl; by rewrite bool_decide_true.
Qed.

Lemma stack_close_tags t pos start end_ closing st :
  stack (close_tags t pos start end_ closing st) = stack st.
Proof.
  revert st. induction closing as [|[i e] closing IH]; intros st; [done|].
  simpl. rewrite IH. by rewrite !stack_emit_if.
Qed.

Lemma imap_pair_snd_gen {A} (g : nat → nat) (l : list A) :
  (imap (λ i e, (g i, e)) l).*2 = l.
Proof.
  revert g. induction l as [|x l IH]; intros g; [done|].
  simpl. f_equal. apply (IH (g ∘ S)).
Qed.

Lemma imap_pair_snd {A} (l : list A) :
  (imap (λ i e, (i, e)) l).*2 = l.
Proof. apply (imap_pair_snd_gen id). Qed.

Lemma parseEndTag_nested tagName start end_ st :
  nested st → nested (parseEndTag tagName start end_ st).
Proof.
  unfold nested, parseEndTag. intros Hn.
  destruct (if _ : bool then _ else _) as [pos|].
  - simpl. rewrite stack_close_tags. apply close_tags_nest.
    rewrite Hn. f_equal.
    rewrite <- (take_drop pos (stack st)) at 1.
    rewrite fmap_app, reverse_app. f_equal.
    rewrite fmap_reverse. f_equal.
    rewrite <- (imap_pair_snd (stack st)) at 1.
    rewrite <- fmap_drop, <- list_fmap_compose. done.
  - rewrite Hstart, Hend. simpl.
    repeat case_match; simpl; rewrite ?nest_app, ?Hn; simpl;
      rewrite ?bool_decide_true by done; done.
Qed.

Lemma handleStartTag_nested m st :
  nested st → nested (handleStartTag m st).
Proof.
  intros Hn. unfold handleStartTag. rewrite Hstart.
  set (st1 := if expectHTML options then _ else st).
  assert (nested st1) as Hn1.
  { unfold st1. repeat case_match; repeat apply parseEndTag_nested; done. }
  clearbody st1. unfold nested in *.
  destruct (_ || _ : bool); simpl; rewrite nest_app.
  - by rewrite Hn1.
  - rewrite Hn1. simpl. by rewrite fmap_app, reverse_app.
Qed.

Lemma nested_ext st st' :
  trace st' = trace st → stack st' = stack st → nested st → nested st'.
Proof. unfold nested. by intros -> ->. Qed.

Lemma nested_emit_if b e st :
  (∀ o, nest [e] o = Some o) → nested st → nested (emit_if b e st).
Proof.
  intros He Hn. unfold nested. rewrite stack_emit_if, trace_emit_if, nest_app.
  rewrite Hn. destruct b; [apply He|done].
Qed.

Lemma parse_attrs_frame fuel acc st a e st' :
  parse_attrs fuel acc st = Normal (a, e, st') →
  trace st' = trace st ∧ stack st' = stack st ∧ lastTag st' = lastTag st.
Proof.
  revert acc st. induction fuel as [|fuel IH]; intros acc st; simpl;
    repeat case_match; try done; try (by intros [= <- <- <-]).
  all: intros Hrec; apply IH in Hrec; exact Hrec.
Qed.

Lemma parseStartTag_frame st m st' :
  parseStartTag st = Normal (m, st') →
  trace st' = trace st ∧ stack st' = stack st ∧ lastTag st' = lastTag st.
Proof.
  unfold parseStartTag. destruct (re_match startTagOpen (html st))
    as [[n c]|]; [|by intros [= <- <-]].
  destruct (parse_attrs _ _ _) as [[[a e] st1]| |] eqn:Ha; simpl; try done.
  apply parse_attrs_frame in Ha as (Ht & Hs & Hl).
  destruct e as [[en ec]|]; intros [= <- <-]; done.
Qed.

Lemma open_start_tag_nested st st' c :
  open_start_tag st = Normal (st', c) → nested st → nested st'.
Proof.
  unfold open_start_tag.
  destruct (parseStartTag st) as [[m st1]| |] eqn:Hp; simpl; try done.
  apply parseStartTag_frame in Hp as (Ht & Hs & _).
  intros Heq Hn. assert (nested st1) as Hn1 by (by eapply nested_ext).
  destruct m as [m|]; simplify_eq; [|done].
  destruct (shouldIgnoreFirstNewline _ _); by apply handleStartTag_nested.
Qed.

Lemma open_end_tag_nested st st' c :
  open_end_tag st = Normal (st', c) → nested st → nested st'.
Proof.
  unfold open_end_tag. destruct (re_match endTag (html st)) as [[n caps]|];
    [|apply open_start_tag_nested].
  intros [= <- <-] Hn. by apply parseEndTag_nested.
Qed.

Lemma open_doctype_nested st st' c :
  open_doctype st = Normal (st', c) → nested st → nested st'.
Proof.
  unfold open_doctype. destruct (re_match doctype (html st)) as [[n caps]|];
    [|apply open_end_tag_nested].
  by intros [= <- <-] Hn.
Qed.

Lemma open_conditional_nested st st' c :
  open_conditional st = Normal (st', c) → nested st → nested st'.
Proof.
  unfold open_conditional. intros Heq Hn.
  destruct (re_test conditionalComment (html st));
    [|by eapply open_doctype_nested].
  assert (nested (emit (EvLog (html st)) st)) as Hn'
    by (by apply (nested_emit_if true)).
  simpl in Heq. destruct (index_of _ _); [by simplify_eq|].
  by eapply open_doctype_nested.
Qed.

Lemma tag_open_nested st st' c :
  tag_open st = Normal (st', c) → nested st → nested st'.
Proof.
  unfold tag_open. intros Heq Hn.
  destruct (re_test comment (html st)); [|by eapply open_conditional_nested].
  destruct (index_of _ _) as [commentEnd|];
    [|by eapply open_conditional_nested].
  destruct (shouldKeepComment options); [destruct (has_comment options)|];
    simpl in Heq; simplify_eq; [|done].
  eapply nested_ext; [| |by apply (nested_emit_if true
    (EvComment (substring 4 commentEnd (html st)) (index st)
       (index st + Z.of_nat commentEnd + 3)%Z) st)]; done.
Qed.

Lemma text_part_nested textEnd st st' :
  text_part textEnd st = Normal st' → nested st → nested st'.
Proof.
  unfold text_part. intros Heq Hn.
  destruct (match textEnd with Some _ => _ | None => _ end) as [text| |];
    simpl in Heq; simplify_eq.
  apply nested_emit_if; [done|]. by case_bool_decide.
Qed.

Lemma plain_text_part_nested t st :
  nested st → nested (plain_text_part t st).
Proof.
  intros Hn. unfold plain_text_part.
  destruct (re_search _ _) as [[[off n] caps]|]; apply parseEndTag_nested.
  - unfold nested in *. simpl.
    rewrite stack_emit_if, trace_emit_if, nest_app, Hn.
    by destruct (has_chars options).
  - done.
Qed.

Lemma markup_part_nested st st' c :
  markup_part st = Normal (st', c) → nested st → nested st'.
Proof.
  unfold markup_part. intros Heq Hn.
  destruct (if bool_decide _ then _ else _) as [[st1 c1]| |] eqn:Ho;
    simpl in Heq; try done.
  assert (nested st1) as Hn1.
  { case_bool_decide; [by eapply tag_open_nested|by simplify_eq]. }
  destruct c1; [by simplify_eq|].
  destruct (text_part _ st1) as [st2| |] eqn:Ht; simpl in Heq; simplify_eq.
  by eapply text_part_nested.
Qed.

Lemma iteration_body_nested st st' c :
  iteration_body st = Normal (st', c) → nested st → nested st'.
Proof.
  unfold iteration_body.
  destruct (lastTag st) as [[|x t]|]; try apply markup_part_nested.
  destruct (isPlainTextElement _); [|apply markup_part_nested].
  intros [= <- <-]. apply plain_text_part_nested.
Qed.

Lemma no_progress_exit_nested st : nested st → nested (no_progress_exit st).
Proof.
  intros Hn. unfold no_progress_exit. by repeat apply nested_emit_if.
Qed.

Lemma parse_loop_nested fuel st st' :
  parse_loop fuel st = Normal st' → nested st → nested st'.
Proof.
  revert st. induction fuel as [|fuel IH]; intros st; simpl.
  - destruct (html st); [by intros [= <-]|done].
  - destruct (html st) eqn:Hh; [by intros [= <-]|].
    destruct (iteration_body st) as [[st1 k]| |] eqn:Hb; simpl; try done.
    intros Heq Hn. apply iteration_body_nested in Hb; [|done].
    destruct k; [by eapply IH|].
    case_bool_decide; [|by eapply IH].
    simplify_eq. by apply no_progress_exit_nested.
Qed.

(** With the [start] and [end] callbacks present, the parse of any
    template returns and its calls are nested: every [end] call closes the
    tag of the latest [start] call still open, and nothing is left open at
    the end. *)
Theorem parseHTML_calls_nested template :
  (shouldKeepComment options = true → has_comment options = true) →
  ∃ evs, parseHTML template = Normal evs ∧ nest evs [] = Some [].
Proof.
  intros Hok. unfold parseHTML.
  destruct (parse_loop_ok (S (length template))
              (mkState template 0 [] None []) Hok) as [st Hl]; [simpl; lia|].
  rewrite Hl. simpl. eexists. split; [done|].
  apply parse_loop_nested in Hl; [|done].
  apply (parseEndTag_nested None None None) in Hl.
  unfold nested in Hl. etrans; [exact Hl|]. done.
Qed.

End Nesting.
(** *** Templates without markup *)

Lemma index_of_absent c s : c ∉ s → index_of [c] s = None.
Proof.
  induction s as [|x s IH]; [done|]. intros [Hx Hs]%not_elem_of_cons.
  simpl. destruct (N.eqb_spec c x) as [->|]; [done|]. simpl.
  by rewrite IH.
Qed.

Lemma text_part_whole st :
  html st ≠ [] →
  text_part None st =
    Normal (emit_if (has_chars options)
              (EvChars (html st)
                 (Some (index st,
                        (index st + Z.of_nat (length (html st)))%Z)))
              (advance (length (html st)) st)).
Proof.
  intros Hh. unfold text_part. cbn [mbind Completion_bind].
  rewrite !bool_decide_false by done. rewrite andb_true_r.
  do 3 f_equal. simpl. f_equal. f_equal. lia.
Qed.

(** A template without [<] is one text: it is passed whole to
    [options.chars], with the range of the whole template, and no other
    callback is called; no callback at all for the empty template. *)
Theorem parseHTML_text_only template :
  lt ∉ template →
  parseHTML template =
    Normal (if bool_decide (template = []) then []
            else if has_chars options
                 then [EvChars template
                         (Some (0%Z, Z.of_nat (length template)))]
                 else []).
Proof.
  intros Hlt. destruct template as [|c t]; [reflexivity|].
  rewrite bool_decide_false by done.
  set (st := mkState (c :: t) 0 [] None []).
  assert (iteration_body st =
          Normal (emit_if (has_chars options)
                    (EvChars (c :: t)
                       (Some (0%Z, Z.of_nat (length (c :: t)))))
                    (advance (length (c :: t)) st), false)) as Hb.
  { unfold iteration_body, markup_part. cbn [lastTag st html].
    rewrite index_of_absent by done.
    rewrite bool_decide_false by done. cbn [mbind Completion_bind].
    rewrite text_part_whole by done. done. }
  unfold parseHTML. fold st. cbn [length parse_loop].
  change (html st) with (c :: t). rewrite Hb. cbn [mbind Completion_bind].
  assert (∀ b e, html (emit_if b e (advance (length (c :: t)) st)) = [])
    as Hnil by (intros; rewrite html_emit_if; apply drop_all).
  rewrite Hnil, bool_decide_false by done.
  assert (∀ fuel st', html st' = [] → parse_loop fuel st' = Normal st')
    as Hstop by (intros [|fuel] st' Hst'; simpl; by rewrite Hst').
  rewrite ?Hstop by apply Hnil. cbn [mbind Completion_bind]. f_equal.
  by destruct (has_chars options).
Qed.

(** *** [decodeAttr] *)

Lemma re_search_first_char p r s off n caps :
  re_search (Seq (Chr p) r) s = Some (off, n, caps) →
  ∃ c, s !! off = Some c ∧ p c = true.
Proof.
  revert off. induction s as [|x s IH]; intros off; simpl.
  - unfold re_match. simpl. done.
  - destruct (re_match (Seq (Chr p) r) (x :: s)) as [[n' c']|] eqn:Hm.
    + intros [= <- <- <-]. unfold re_match in Hm. simpl in Hm.
      destruct (p x) eqn:Hp; [|done]. by exists x.
    + destruct (re_search (Seq (Chr p) r) s) as [[[off' n'] c']|] eqn:Hs;
        simpl; [|done].
      intros [= <- <- <-]. by apply IH.
Qed.

(** A value that contains no [&] is returned unchanged. *)
Theorem decodeAttr_without_ampersand value shouldDecodeNewlines :
  38%N ∉ value → decodeAttr value shouldDecodeNewlines = value.
Proof.
  intros Hamp. unfold decodeAttr. cbn [replace_all].
  destruct (re_search _ value) as [[[off n] caps]|] eqn:Hs; [|done].
  assert (∃ c, value !! off = Some c ∧ char 38 = Chr (λ x, (x =? 38)%N) ∧
               (c =? 38)%N = true) as (c & Hc & _ & Heq).
  { destruct shouldDecodeNewlines;
      apply re_search_first_char in Hs as (c & Hc & Hp); eauto. }
  apply N.eqb_eq in Heq as ->. by apply list_elem_of_lookup_2 in Hc.
Qed.
(** *** [parseEndTag] *)

Lemma find_pos_above l above name :
  (∀ e, e ∈ above → lowerCasedTag e ≠ name) →
  find_pos (l ++ above) name (length l + length above) =
  find_pos (l ++ above) name (length l).
Proof.
  revert l. induction above as [|a above IH] using rev_ind; intros l Habove.
  - by rewrite Nat.add_0_r.
  - rewrite length_app. simpl.
    replace (length l + (length above + 1)) with (S (length l + length above))
      by lia.
    simpl. rewrite app_assoc.
    rewrite lookup_app_r by (rewrite length_app; lia).
    rewrite length_app, Nat.sub_diag. simpl.
    rewrite bool_decide_false by (apply Habove; set_solver).
    rewrite <- app_assoc.
    assert (∀ n, n ≤ length l + length above →
              find_pos (l ++ above ++ [a]) name n =
              find_pos (l ++ above) name n) as Hcut.
    { induction n as [|n IHn]; [done|]. intros Hn. simpl.
      rewrite app_assoc, lookup_app_l by (rewrite length_app; lia).
      rewrite <- app_assoc. rewrite IHn by lia. done. }
    rewrite !Hcut by lia. apply IH. intros e He. apply Habove. set_solver.
Qed.

Lemma find_pos_stray stack name n :
  (∀ e, e ∈ stack → lowerCasedTag e ≠ name) → find_pos stack name n = None.
Proof.
  intros Hs. induction n as [|n IH]; [done|]. simpl.
  destruct (stack !! n) as [e|] eqn:He; [|done].
  rewrite bool_decide_false; [done|].
  apply Hs. by eapply list_elem_of_lookup_2.
Qed.

(** What the loop over the closed entries calls for one entry. *)
Definition closing_calls (warned : bool) (start end_ : Z) (e : StackEntry)
    : list Event :=
  (if negb production && warned && has_warn options
   then [EvWarn (no_matching_end_tag (tag e)) (entry_start e)
           (Some (entry_end e))]
   else []) ++
  (if has_end options then [EvEnd (tag e) start end_] else []).

Lemma close_tags_trace t pos start end_ closing st :
  trace (close_tags t pos start end_ closing st) =
  trace st ++
  (closing ≫= λ ie, closing_calls (bool_decide (pos < ie.1) || negb t)
                       start end_ ie.2).
Proof.
  revert st. induction closing as [|[i e] closing IH]; intros st.
  - simpl. by rewrite app_nil_r.
  - simpl. rewrite IH, !trace_emit_if. unfold closing_calls. simpl.
    by rewrite <- !app_assoc.
Qed.

Lemma index_close_tags t pos start end_ closing st :
  index (close_tags t pos start end_ closing st) = index st.
Proof.
  revert st. induction closing as [|[i e] closing IH]; intros st; [done|].
  simpl. rewrite IH. by rewrite !index_emit_if.
Qed.

Lemma stack_close_tags' t pos start end_ closing st :
  stack (close_tags t pos start end_ closing st) = stack st.
Proof.
  revert st. induction closing as [|[i e] closing IH]; intros st; [done|].
  simpl. rewrite IH. by rewrite !stack_emit_if.
Qed.

Lemma bind_above (g1 : nat * StackEntry → list Event)
    (g2 : StackEntry → list Event) (l : list (nat * StackEntry)) :
  (∀ ie, ie ∈ l → g1 ie = g2 ie.2) → l ≫= g1 = l.*2 ≫= g2.
Proof.
  induction l as [|x l IH]; intros Hg; [done|]. simpl.
  rewrite Hg by set_solver. f_equal. apply IH. intros; apply Hg; set_solver.
Qed.

Lemma imap_pair_index {A} (g : nat → nat) (l : list A) ie :
  ie ∈ imap (λ i e, (g i, e)) l → ∃ i, ie.1 = g i.
Proof.
  intros (i & x & -> & _)%elem_of_lookup_imap. by exists i.
Qed.

(** An end tag closes the nearest open element of its name, compared in
    lower case, and with it every element opened after it: the entries are
    closed from the top of the stack down, with an [end] call each and, in
    a development build, a warning for each entry other than the one
    named; the stack is cut below that entry and [lastTag] becomes the tag
    of the new top. *)
Theorem parseEndTag_closes name start end_ st below e above :
  name ≠ [] →
  stack st = below ++ e :: above →
  lowerCasedTag e = toLowerCase name →
  (∀ e', e' ∈ above → lowerCasedTag e' ≠ toLowerCase name) →
  let st' := parseEndTag (Some name) start end_ st in
  let s := default (index st) start in
  let f := default (index st) end_ in
  stack st' = below ∧ lastTag st' = tag <$> last below ∧
  html st' = html st ∧ index st' = index st ∧
  trace st' =
    trace st ++ (reverse above ≫= closing_calls true s f) ++
    closing_calls false s f e.
Proof.
  intros Hname Hst He Habove.
  assert (find_pos (stack st) (toLowerCase name) (length (stack st)) =
          Some (length below)) as Hpos.
  { rewrite Hst, (cons_middle e), app_assoc.
    rewrite length_app, find_pos_above by done.
    rewrite length_app. simpl. rewrite Nat.add_1_r. simpl.
    rewrite <- app_assoc, lookup_app_r, Nat.sub_diag by lia. simpl.
    by rewrite bool_decide_true. }
  cbv zeta. unfold parseEndTag. destruct name as [|c name]; [done|].
  change (toLowerCase <$> Some (c :: name))
    with (Some (toLowerCase (c :: name))).
  cbv zeta. cbn [default]. unfold id. rewrite Hpos.
  cbn [html index stack lastTag trace].
  rewrite html_close_tags, index_close_tags, stack_close_tags',
    close_tags_trace.
  rewrite Hst at 1 2. rewrite take_app_length.
  split_and!; try done.
  - destruct below as [|b below _] using rev_ind; [done|].
    rewrite length_app, Nat.add_1_r, last_snoc.
    rewrite Hst, <- app_assoc, lookup_app_r, Nat.sub_diag by lia. done.
  - f_equal. rewrite imap_app. simpl.
    rewrite drop_app_length' by (by rewrite length_imap).
    rewrite reverse_cons, bind_app. simpl. rewrite app_nil_r.
    rewrite (bool_decide_false (length below < length below + 0)) by lia.
    simpl. f_equal.
    rewrite (bind_above _ (closing_calls true
                             (from_option (λ x, x) (index st) start)
                             (from_option (λ x, x) (index st) end_))).
    + rewrite fmap_reverse. do 2 f_equal.
      apply (imap_pair_snd_gen (λ i, length below + S i)).
    + intros ie Hie. rewrite elem_of_reverse in Hie.
      apply (imap_pair_index (λ i, length below + S i)) in Hie as [i ->].
      rewrite bool_decide_true by lia. done.
Qed.

(** An end tag with no open element of its name closes nothing.  It calls
    nothing either, except that [</br>] is reported as a unary [br] start
    tag and [</p>] as an empty [p] element. *)
Theorem parseEndTag_stray name start end_ st :
  name ≠ [] →
  (∀ e, e ∈ stack st → lowerCasedTag e ≠ toLowerCase name) →
  let s := default (index st) start in
  let f := default (index st) end_ in
  parseEndTag (Some name) start end_ st =
    if bool_decide (toLowerCase name = lit "br")
    then emit_if (has_start options) (EvStart name [] true s f) st
    else if bool_decide (toLowerCase name = lit "p")
    then emit_if (has_end options) (EvEnd name s f)
           (emit_if (has_start options) (EvStart name [] false s f) st)
    else st.
Proof.
  intros Hname Hstray. cbv zeta. unfold parseEndTag.
  destruct name as [|c name]; [done|].
  change (toLowerCase <$> Some (c :: name))
    with (Some (toLowerCase (c :: name))).
  cbv zeta. cbn [default]. unfold id. rewrite find_pos_stray by done. simpl.
  repeat case_bool_decide; simplify_eq; try done; congruence.
Qed.
(** *** Positions passed to the callbacks *)

(** Captures made while matching are pieces of what was consumed. *)
Definition caps_within (L : nat) (s : list Char) (caps : Caps) : Prop :=
  Forall (λ e, length e.2 + length s ≤ L) caps.

Lemma caps_within_mono L s s1 caps :
  length s1 ≤ length s → caps_within L s caps → caps_within L s1 caps.
Proof.
  intros Hl Hc. eapply Forall_impl; [exact Hc|]. simpl. intros e He. lia.
Qed.

Lemma star_with_caps {R} L
    (ma : list Char → Caps → (list Char → Caps → option R) → option R)
    greedy (k : list Char → Caps → option R) n s caps x :
  (∀ s caps k' y, ma s caps k' = Some y → length s ≤ L →
     caps_within L s caps →
     ∃ s1 c1, k' s1 c1 = Some y ∧ length s1 ≤ length s ∧
              caps_within L s1 c1) →
  star_with ma greedy k n s caps = Some x → length s ≤ L →
  caps_within L s caps →
  ∃ s1 c1, k s1 c1 = Some x ∧ length s1 ≤ length s ∧ caps_within L s1 c1.
Proof.
  intros Hma. revert s caps x.
  induction n as [|n IHn]; intros s caps x; simpl.
  - destruct greedy; [|destruct (k s caps) eqn:Hk]; try done.
    + intros Hk ? ?. by exists s, caps.
    + intros [= ->] ? ?. by exists s, caps.
  - assert (∀ y, ma s caps
               (λ s1 c1, if length s1 <? length s
                         then star_with ma greedy k n s1 c1 else None)
               = Some y → length s ≤ L → caps_within L s caps →
               ∃ s1 c1, k s1 c1 = Some y ∧ length s1 ≤ length s ∧
                        caps_within L s1 c1) as Hmore.
    { intros y Hy HL Hc.
      destruct (Hma _ _ _ _ Hy HL Hc) as (s1 & c1 & Hs & Hl & Hc1).
      destruct (Nat.ltb_spec (length s1) (length s)); [|done].
      apply IHn in Hs as (s2 & c2 & Hk & Hl2 & Hc2); [|lia|done].
      exists s2, c2. split; [done|]. split; [lia|done]. }
    destruct greedy.
    + destruct (ma s caps _) eqn:Hm.
      * intros [= ->]. by apply Hmore.
      * intros Hk ? ?. by exists s, caps.
    + destruct (k s caps) eqn:Hk.
      * intros [= ->] ? ?. by exists s, caps.
      * apply Hmore.
Qed.

Lemma mt_caps {R} L r s caps (k : list Char → Caps → option R) x :
  mt r s caps k = Some x → length s ≤ L → caps_within L s caps →
  ∃ s1 c1, k s1 c1 = Some x ∧ length s1 ≤ length s ∧ caps_within L s1 c1.
Proof.
  revert s caps k x.
  induction r as [|p|a IHa b IHb|a IHa b IHb|g a IHa|i a IHa];
    intros s caps k x; simpl.
  - intros Hk ? ?. by exists s, caps.
  - destruct s as [|c s']; [done|]. destruct (p c); [|done].
    intros Hk ? Hc. exists s', caps. split; [done|]. split; [simpl; lia|].
    eapply caps_within_mono; [|done]. simpl. lia.
  - intros Hm HL Hc.
    destruct (IHa _ _ _ _ Hm HL Hc) as (s1 & c1 & Hb & Hl1 & Hc1).
    destruct (IHb _ _ _ _ Hb ltac:(lia) Hc1) as (s2 & c2 & Hk & Hl2 & Hc2).
    exists s2, c2. split; [done|]. split; [lia|done].
  - destruct (mt a s caps k) eqn:Ha.
    + intros [= ->]. by apply IHa.
    + by apply IHb.
  - apply star_with_caps. intros s' caps' k' y. apply IHa.
  - intros Hm HL Hc.
    destruct (IHa _ _ _ _ Hm HL Hc) as (s1 & c1 & Hk & Hl1 & Hc1).
    eexists _, _. split; [exact Hk|]. split; [done|].
    constructor; [|done]. simpl. rewrite length_take. lia.
Qed.

Lemma cap_elem i caps w : cap i caps = Some w → (i, w) ∈ caps.
Proof.
  induction caps as [|[j s] caps IH]; [done|]. simpl.
  destruct (Nat.eqb_spec i j) as [->|].
  - intros [= ->]. by left.
  - intros ?. right. by apply IH.
Qed.

Lemma re_match_cap_length r s n caps i w :
  re_match r s = Some (n, caps) → cap i caps = Some w → length w ≤ n.
Proof.
  unfold re_match. intros Hm Hw.
  apply (mt_caps (length s)) in Hm as (s1 & c1 & [= <- <-] & Hl & Hc);
    [|done|constructor].
  apply cap_elem in Hw. eapply Forall_forall in Hc; [|done]. simpl in Hc. lia.
Qed.

Lemma re_search_cap_length r s off n caps i w :
  re_search r s = Some (off, n, caps) → cap i caps = Some w → length w ≤ n.
Proof.
  revert off. induction s as [|c s IH]; intros off; simpl.
  - destruct (re_match r []) as [[n' c']|] eqn:Hm; [|done].
    intros [= <- <- <-]. by eapply re_match_cap_length.
  - destruct (re_match r (c :: s)) as [[n' c']|] eqn:Hm.
    + intros [= <- <- <-]. by eapply re_match_cap_length.
    + destruct (re_search r s) as [[[off' n'] c']|]; simpl; [|done].
      intros [= <- <- <-]. by eapply IH.
Qed.

Lemma is_prefix_length pat l :
  is_prefix pat l = true → length pat ≤ length l.
Proof.
  revert l. induction pat as [|p pat IH]; intros l; simpl; [lia|].
  destruct l as [|x l]; [done|]. intros [_ Hp]%andb_true_iff.
  apply IH in Hp. simpl. lia.
Qed.

Lemma index_of_bound pat s j :
  index_of pat s = Some j → j + length pat ≤ length s.
Proof.
  revert j. induction s as [|c s IH]; intros j.
  - cbn [index_of]. destruct (is_prefix pat []) eqn:Hp; [|done].
    intros [= <-]. by apply is_prefix_length in Hp.
  - cbn [index_of]. destruct (is_prefix pat (c :: s)) eqn:Hp.
    + intros [= <-]. by apply is_prefix_length in Hp.
    + destruct (index_of pat s) as [j'|]; simpl; [|done].
      intros [= <-]. specialize (IH _ eq_refl). lia.
Qed.
(** A range of template offsets. *)
Definition in_range (N s e : Z) : Prop := (0 ≤ s ∧ s ≤ e ∧ e ≤ N)%Z.

(** The offsets of a call lie in the template of [N] code units; a text
    passed with its range is as long as the range. *)
Definition event_ok (N : Z) (ev : Event) : Prop :=
  match ev with
  | EvComment _ s e | EvStart _ _ _ s e | EvEnd _ s e => in_range N s e
  | EvChars text (Some (s, e)) =>
      in_range N s e ∧ (e - s = Z.of_nat (length text))%Z
  | EvChars _ None => True
  | EvWarn _ s None => in_range N s s
  | EvWarn _ s (Some e) => in_range N s e
  | EvLog _ => True
  end.

(** [index] is the offset of [html] in the template, and the offsets
    recorded so far are in range. *)
Definition positioned (N : Z) (st : State) : Prop :=
  (index st + Z.of_nat (length (html st)) = N)%Z ∧ (0 ≤ index st)%Z ∧
  Forall (λ e, in_range N (entry_start e) (entry_end e)) (stack st) ∧
  Forall (event_ok N) (trace st).

Lemma positioned_index N st :
  positioned N st → in_range N (index st) (index st).
Proof. intros (Hi & H0 & _). unfold in_range. lia. Qed.

Lemma positioned_emit_if N b e st :
  event_ok N e → positioned N st → positioned N (emit_if b e st).
Proof.
  intros He (Hi & H0 & Hs & Ht). destruct b; [|done].
  split_and!; try done. simpl. apply Forall_app. split; [done|].
  by constructor.
Qed.

Lemma positioned_advance N n st :
  n ≤ length (html st) → positioned N st → positioned N (advance n st).
Proof.
  intros Hn (Hi & H0 & Hs & Ht). split_and!; try done; simpl.
  - rewrite length_drop. lia.
  - lia.
Qed.

Lemma close_tags_positioned N t pos start end_ closing st :
  in_range N start end_ →
  Forall (λ ie, in_range N (entry_start ie.2) (entry_end ie.2)) closing →
  positioned N st → positioned N (close_tags t pos start end_ closing st).
Proof.
  intros Hr. revert st.
  induction closing as [|[i e] closing IH]; intros st Hc Hp; [done|].
  apply Forall_cons in Hc as [He Hc]. simpl. apply IH; [done|].
  by repeat apply positioned_emit_if.
Qed.

Lemma parseEndTag_positioned N tagName start end_ st :
  in_range N (default (index st) start) (default (index st) end_) →
  positioned N st → positioned N (parseEndTag tagName start end_ st).
Proof.
  intros Hr Hp. unfold parseEndTag.
  destruct (if _ : bool then _ else _) as [pos|].
  - set (st' := close_tags _ _ _ _ _ st).
    assert (positioned N st') as (Hi & H0 & Hs & Ht).
    { apply close_tags_positioned; [done| |done].
      destruct Hp as (_ & _ & Hs & _).
      apply Forall_reverse, Forall_drop.
      apply Forall_forall. intros ie (i & e & -> & Hl)%elem_of_lookup_imap.
      simpl. eapply Forall_forall in Hs; [done|].
      by eapply list_elem_of_lookup_2. }
    split_and!; try done. simpl. by apply Forall_take.
  - repeat case_match; try done; by repeat apply positioned_emit_if.
Qed.

Lemma parseEndTag_positioned_here N tagName st :
  positioned N st → positioned N (parseEndTag tagName None None st).
Proof.
  intros Hp. apply parseEndTag_positioned; [|done].
  by apply positioned_index.
Qed.

Lemma handleStartTag_positioned N m st :
  in_range N (start m) (end_ m) →
  positioned N st → positioned N (handleStartTag m st).
Proof.
  intros Hr Hp. unfold handleStartTag.
  set (st1 := if expectHTML options then _ else st).
  assert (positioned N st1) as Hp1.
  { unfold st1.
    repeat case_match; repeat apply parseEndTag_positioned_here; done. }
  clearbody st1. apply positioned_emit_if; [done|].
  destruct (negb _); [|done].
  destruct Hp1 as (Hi & H0 & Hs & Ht). split_and!; try done. simpl.
  apply Forall_app. split; [done|]. by constructor.
Qed.

Lemma parse_attrs_positioned N fuel acc st a e st' :
  parse_attrs fuel acc st = Normal (a, e, st') →
  positioned N st →
  positioned N st' ∧ (index st ≤ index st')%Z ∧
  ∀ en ec, e = Some (en, ec) → en ≤ length (html st').
Proof.
  revert acc st. induction fuel as [|fuel IH]; intros acc st; simpl.
  - destruct (re_match startTagClose (html st)) as [[en0 ec0]|] eqn:Hc.
    { intros [= <- <- <-]. split; [done|]. split; [lia|].
      intros en ec [= <- <-]. apply re_match_length in Hc. lia. }
    destruct (match re_match dynamicArgAttribute (html st) with
              | Some x => Some x | None => re_match attribute (html st)
              end) as [[n c]|]; [done|].
    intros [= <- <- <-]; split; [done|]. split; [lia|done].
  - destruct (re_match startTagClose (html st)) as [[en0 ec0]|] eqn:Hc.
    { intros [= <- <- <-]. split; [done|]. split; [lia|].
      intros en ec [= <- <-]. apply re_match_length in Hc. lia. }
    destruct (match re_match dynamicArgAttribute (html st) with
              | Some x => Some x | None => re_match attribute (html st)
              end) as [[n c]|] eqn:Hm;
      [|intros [= <- <- <-]; split; [done|]; split; [lia|done]].
    assert (n ≤ length (html st)) as Hn.
    { destruct (re_match dynamicArgAttribute (html st)) eqn:Hd;
        simplify_eq; [apply re_match_length in Hd|apply re_match_length in Hm];
        lia. }
    intros Hrec Hp. apply IH in Hrec as (Hp' & Hle & He).
    + split; [done|]. split; [|done]. simpl in Hle. lia.
    + by apply positioned_advance.
Qed.

Lemma parseStartTag_positioned N st m st' :
  parseStartTag st = Normal (m, st') → positioned N st →
  positioned N st' ∧
  ∀ m', m = Some m' → in_range N (start m') (end_ m').
Proof.
  unfold parseStartTag.
  destruct (re_match startTagOpen (html st)) as [[n c]|] eqn:Ho;
    [|intros [= <- <-]; done].
  apply re_match_length in Ho as [_ Hn].
  destruct (parse_attrs _ _ _) as [[[a e] st1]| |] eqn:Ha; simpl; try done.
  intros Heq Hp.
  apply (parse_attrs_positioned N) in Ha as (Hp1 & Hle & Hen);
    [|by apply positioned_advance].
  simpl in Hle.
  destruct e as [[en ec]|] eqn:He; simplify_eq; [|done].
  specialize (Hen _ _ eq_refl).
  split; [by apply positioned_advance|].
  intros m' [= <-]. simpl.
  destruct Hp as (Hi & H0 & _). destruct Hp1 as (Hi1 & H01 & _).
  unfold in_range. lia.
Qed.
Lemma open_start_tag_positioned N st st' c :
  open_start_tag st = Normal (st', c) → positioned N st → positioned N st'.
Proof.
  unfold open_start_tag.
  destruct (parseStartTag st) as [[m st1]| |] eqn:Hs; simpl; try done.
  intros Heq Hp. apply (parseStartTag_positioned N) in Hs as [Hp1 Hm]; [|done].
  destruct m as [m|]; simplify_eq; [|done].
  specialize (Hm _ eq_refl).
  pose proof (handleStartTag_positioned N m st1 Hm Hp1) as Hp2.
  destruct (shouldIgnoreFirstNewline _ _) eqn:Hb; [|done].
  apply positioned_advance; [|done]. unfold shouldIgnoreFirstNewline in Hb.
  apply andb_true_iff in Hb as [_ Hb%bool_decide_eq_true].
  destruct (html (handleStartTag m st1)); [done|simpl; lia].
Qed.

Lemma open_end_tag_positioned N st st' c :
  open_end_tag st = Normal (st', c) → positioned N st → positioned N st'.
Proof.
  unfold open_end_tag.
  destruct (re_match endTag (html st)) as [[n caps]|] eqn:He;
    [|apply open_start_tag_positioned].
  apply re_match_length in He as [_ Hn].
  intros [= <- <-] Hp.
  pose proof (positioned_advance N n st Hn Hp) as Hp1.
  apply parseEndTag_positioned; [|done]. simpl.
  destruct Hp as (Hi & H0 & _). destruct Hp1 as (Hi1 & _). simpl in Hi1.
  unfold in_range. lia.
Qed.

Lemma open_doctype_positioned N st st' c :
  open_doctype st = Normal (st', c) → positioned N st → positioned N st'.
Proof.
  unfold open_doctype.
  destruct (re_match doctype (html st)) as [[n caps]|] eqn:He;
    [|apply open_end_tag_positioned].
  apply re_match_length in He as [_ Hn].
  intros [= <- <-] Hp. by apply positioned_advance.
Qed.

Lemma open_conditional_positioned N st st' c :
  open_conditional st = Normal (st', c) → positioned N st → positioned N st'.
Proof.
  unfold open_conditional. intros Heq Hp.
  destruct (re_test conditionalComment (html st));
    [|by eapply open_doctype_positioned].
  assert (positioned N (emit (EvLog (html st)) st)) as Hp'
    by (by apply (positioned_emit_if N true)).
  simpl in Heq. destruct (index_of _ (html st)) as [j|] eqn:Hj.
  - apply index_of_bound in Hj. simpl in Hj. simplify_eq.
    apply positioned_advance; [simpl; lia|done].
  - by eapply open_doctype_positioned.
Qed.

Lemma tag_open_positioned N st st' c :
  tag_open st = Normal (st', c) → positioned N st → positioned N st'.
Proof.
  unfold tag_open. intros Heq Hp.
  destruct (re_test comment (html st));
    [|by eapply open_conditional_positioned].
  destruct (index_of _ (html st)) as [j|] eqn:Hj;
    [|by eapply open_conditional_positioned].
  apply index_of_bound in Hj. simpl in Hj.
  destruct (shouldKeepComment options); [destruct (has_comment options)|];
    simpl in Heq; simplify_eq.
  - apply positioned_advance; [simpl; lia|].
    apply (positioned_emit_if N true); [|done]. simpl.
    destruct Hp as (Hi & H0 & _). unfold in_range. lia.
  - apply positioned_advance; [lia|done].
Qed.

Lemma text_part_positioned N textEnd st st' :
  text_part textEnd st = Normal st' → positioned N st → positioned N st'.
Proof.
  unfold text_part. intros Heq Hp.
  destruct (match textEnd with Some _ => _ | None => _ end) as [text| |]
    eqn:Ht; simpl in Heq; simplify_eq.
  assert (length text ≤ length (html st)) as Hlen.
  { destruct textEnd as [textEnd|]; [|by simplify_eq].
    destruct (scan_text _ _ _) as [te| |]; simpl in Ht; simplify_eq.
    unfold substring. rewrite length_take, length_drop. lia. }
  case_bool_decide as Hnil; [by rewrite andb_false_r|].
  apply positioned_emit_if; [|by apply positioned_advance].
  simpl. destruct Hp as (Hi & H0 & _). unfold in_range. split; lia.
Qed.

Lemma plain_text_part_positioned N t st :
  positioned N st → positioned N (plain_text_part t st).
Proof.
  intros Hp. unfold plain_text_part.
  destruct (re_search _ (html st)) as [[[off n] caps]|] eqn:Hs.
  - pose proof (re_search_length _ _ _ _ _ Hs) as [_ Hn].
    assert (length (default [] (cap 2 caps)) ≤ n) as Hcap.
    { destruct (cap 2 caps) as [w|] eqn:Hw; simpl; [|lia].
      by eapply re_search_cap_length. }
    destruct Hp as (Hi & H0 & Hst & Htr).
    apply parseEndTag_positioned; simpl;
      rewrite ?index_emit_if, ?stack_emit_if, ?html_emit_if,
        ?length_app, ?length_take, ?length_drop.
    + unfold in_range. lia.
    + split_and!; simpl;
        rewrite ?index_emit_if, ?stack_emit_if, ?html_emit_if,
          ?length_app, ?length_take, ?length_drop; try done; try lia.
      rewrite trace_emit_if. apply Forall_app. split; [done|].
      destruct (has_chars options); by repeat constructor.
  - destruct Hp as (Hi & H0 & Hst & Htr).
    apply parseEndTag_positioned; simpl.
    + unfold in_range. lia.
    + split_and!; simpl; try done; lia.
Qed.

Lemma iteration_body_positioned N st st' c :
  iteration_body st = Normal (st', c) → positioned N st → positioned N st'.
Proof.
  assert (∀ st st' c, markup_part st = Normal (st', c) →
            positioned N st → positioned N st') as Hmarkup.
  { clear. intros st st' c. unfold markup_part. intros Heq Hp.
    destruct (if bool_decide _ then _ else _) as [[st1 c1]| |] eqn:Ho;
      simpl in Heq; try done.
    assert (positioned N st1) as Hp1.
    { case_bool_decide; [by eapply tag_open_positioned|by simplify_eq]. }
    destruct c1; [by simplify_eq|].
    destruct (text_part _ st1) as [st2| |] eqn:Ht; simpl in Heq; simplify_eq.
    by eapply text_part_positioned. }
  unfold iteration_body.
  destruct (lastTag st) as [[|x t]|]; try apply Hmarkup.
  destruct (isPlainTextElement _); [|apply Hmarkup].
  intros [= <- <-]. apply plain_text_part_positioned.
Qed.

Lemma parse_loop_positioned N fuel st st' :
  parse_loop fuel st = Normal st' → positioned N st → positioned N st'.
Proof.
  revert st. induction fuel as [|fuel IH]; intros st; simpl.
  - destruct (html st); [by intros [= <-]|done].
  - destruct (html st) eqn:Hh; [by intros [= <-]|].
    destruct (iteration_body st) as [[st1 k]| |] eqn:Hb; simpl; try done.
    intros Heq Hp. apply (iteration_body_positioned N) in Hb; [|done].
    destruct k; [by eapply IH|].
    case_bool_decide; [|by eapply IH].
    simplify_eq. unfold no_progress_exit.
    destruct Hb as (Hi & H0 & Hst & Htr).
    apply positioned_emit_if.
    + simpl. rewrite index_emit_if, html_emit_if. unfold in_range. lia.
    + by apply positioned_emit_if.
Qed.

(** The parse of any template returns, and every offset it passes to a
    callback lies in the template: the ranges of the [start], [end],
    [comment] and [chars] calls and of the warnings are ordered and within
    [0 .. template.length], and a text passed with its range has the
    length of the range. *)
Theorem parseHTML_positions_in_range template :
  (shouldKeepComment options = true → has_comment options = true) →
  ∃ evs, parseHTML template = Normal evs ∧
         Forall (event_ok (Z.of_nat (length template))) evs.
Proof.
  intros Hok. unfold parseHTML.
  destruct (parse_loop_ok (S (length template))
              (mkState template 0 [] None []) Hok) as [st Hl]; [simpl; lia|].
  rewrite Hl. simpl. eexists. split; [done|].
  apply (parse_loop_positioned (Z.of_nat (length template))) in Hl.
  - apply (parseEndTag_positioned_here _ None) in Hl. apply Hl.
  - split_and!; simpl; try done; lia.
Qed.
End Parser.

(** ** Runs *)

(** Lower-casing of ASCII letters. *)
Definition lower (c : Char) : Char :=
  if (65 <=? c)%N && (c <=? 90)%N then (c + 32)%N else c.

Definition run_options : Options :=
  mkOptions true
    (Some (λ t, bool_decide (t ∈ lit <$> ["br"; "hr"; "img"; "input"])))
    (Some (λ t, bool_decide (t ∈ lit <$> ["li"; "p"; "td"])))
    true false false false true true true true true.

(** [parseHTML] in a development build with the options above. *)
Definition run (template : string) : Completion (list Event) :=
  parseHTML false (λ _, false) (fmap lower)
    (λ t, bool_decide (t ∈ lit <$> ["div"; "ul"; "li"; "h1"]))
    run_options (lit template).

(** A well-formed template. *)
Example run_element :
  run "<div id=a>x</div>" =
  Normal [EvStart (lit "div") [mkAttr (lit "id") (lit "a") None None] false
            0 10;
          EvChars (lit "x") (Some (10, 11)%Z);
          EvEnd (lit "div") 11 17].
Proof. vm_compute. reflexivity. Qed.

(** A lone [<] makes no progress: it is passed to [chars] and warned
    about. *)
Example run_lone_bracket :
  run "a<" =
  Normal [EvChars (lit "a") (Some (0, 1)%Z);
          EvChars (lit "<") None;
          EvWarn (malformatted_message (lit "<")) 2 None].
Proof. vm_compute. reflexivity. Qed.

(** An unterminated start tag is consumed by [parseStartTag]: the iteration
    shortens the template and nothing is emitted. *)
Example run_unterminated_tag : run "<div id=a" = Normal [].
Proof. vm_compute. reflexivity. Qed.

(** The content of [textarea] without its end tag makes no progress
    either: [parseEndTag] closes the element, then the exit block passes
    the content to [chars] and warns. *)
Example run_unterminated_textarea :
  run "<textarea>b" =
  Normal [EvStart (lit "textarea") [] false 0 10;
          EvEnd (lit "textarea") 10 10;
          EvChars (lit "b") None;
          EvWarn (malformatted_message (lit "b")) 11 None].
Proof. vm_compute. reflexivity. Qed.

Lemma parseHTML_terminates_witness :
  ∃ events, run "<p>a<b" = Normal events.
Proof.
  destruct (parseHTML_terminates false (λ _, false) (fmap lower)
              (λ t, bool_decide (t ∈ lit <$> ["div"; "ul"; "li"; "h1"]))
              run_options (λ _, eq_refl) (lit "<p>a<b")) as [Hrun _].
  exact Hrun.
Defined.

(** A template whose [p] is closed by the [div] end tag. *)
Lemma parseHTML_calls_nested_witness :
  ∃ evs, run "<div><p>a</div><br>" = Normal evs ∧ nest evs [] = Some [].
Proof.
  apply (parseHTML_calls_nested false (λ _, false) (fmap lower)
           (λ t, bool_decide (t ∈ lit <$> ["div"; "ul"; "li"; "h1"]))
           run_options eq_refl eq_refl (lit "<div><p>a</div><br>")
           (λ _, eq_refl)).
Defined.

Lemma parseHTML_text_only_witness :
  run "hello" = Normal [EvChars (lit "hello") (Some (0, 5)%Z)].
Proof.
  apply (parseHTML_text_only false (λ _, false) (fmap lower)
           (λ t, bool_decide (t ∈ lit <$> ["div"; "ul"; "li"; "h1"]))
           run_options (lit "hello")).
  apply (bool_decide_unpack _). vm_compute. exact I.
Defined.

Lemma decodeAttr_without_ampersand_witness :
  decodeAttr (lit "a < b") true = lit "a < b".
Proof.
  apply decodeAttr_without_ampersand.
  apply (bool_decide_unpack _). vm_compute. exact I.
Defined.

(** Entities are decoded in one pass, left to right. *)
Example decodeAttr_entities :
  decodeAttr (lit "a&lt;b&amp;lt;&#10;") false = lit "a<b&lt;&#10;" ∧
  decodeAttr (lit "a&lt;b&amp;lt;&#10;") true =
    lit "a<b&lt;" ++ [10%N].
Proof. split; vm_compute; reflexivity. Qed.

(** A stack with an open [div] and, inside it, an open [p]. *)
Definition entry (t : string) (s e : Z) : StackEntry :=
  mkEntry (lit t) (lit t) [] s e.
Definition open_state : State :=
  mkState (lit "</DIV>") 12 [entry "div" 0 5; entry "p" 5 8]
    (Some (lit "p")) [].

Lemma parseEndTag_closes_witness :
  let st' := parseEndTag false (fmap lower) run_options (Some (lit "DIV"))
               (Some 12%Z) (Some 18%Z) open_state in
  stack st' = [] ∧ lastTag st' = None ∧
  trace st' =
    [EvWarn (no_matching_end_tag (lit "p")) 5 (Some 8%Z);
     EvEnd (lit "p") 12 18; EvEnd (lit "div") 12 18].
Proof.
  destruct (parseEndTag_closes false (fmap lower) (λ _, false) run_options
              (lit "DIV")
              (Some 12%Z) (Some 18%Z) open_state [] (entry "div" 0 5)
              [entry "p" 5 8]) as (Hs & Hl & _ & _ & Ht).
  - done.
  - reflexivity.
  - reflexivity.
  - intros e' ->%list_elem_of_singleton. vm_compute. congruence.
  - split; [exact Hs|]. split; [exact Hl|exact Ht].
Defined.

Lemma parseEndTag_stray_witness :
  parseEndTag false (fmap lower) run_options (Some (lit "span")) None None
    open_state = open_state.
Proof.
  assert (lit "span" ≠ []) as Hname by done.
  assert (∀ e, e ∈ stack open_state →
               lowerCasedTag e ≠ lower <$> lit "span") as Hstray.
  { intros e He. apply (bool_decide_unpack _).
    revert e He. apply Forall_forall. repeat constructor. }
  exact (parseEndTag_stray false (fmap lower) run_options (lit "span") None
           None open_state Hname Hstray).
Defined.

Lemma parseHTML_positions_in_range_witness :
  ∃ evs, run "<ul><li>a<li>b</ul><!--c--><" = Normal evs ∧
         Forall (event_ok 28) evs.
Proof.
  apply (parseHTML_positions_in_range false (λ _, false) (fmap lower)
           (λ t, bool_decide (t ∈ lit <$> ["div"; "ul"; "li"; "h1"]))
           run_options (lit "<ul><li>a<li>b</ul><!--c--><")
           (λ _, eq_refl)).
Defined.

End HtmlParser.

(* ===================================================================== *)
(** * core/vdom/helpers/extract-props.js *)
(* ===================================================================== *)

Module ExtractProps.

Section ExtractProps.
(** The values of props and attributes; they are only copied. *)
Context {V : Type}.
(** [process.env.NODE_ENV === 'production'] *)
Variable production : bool.
(** [hyphenate] and [formatComponentName] of core/util, which are not part
    of the sources, and [String.prototype.toLowerCase]. *)
Variable hyphenate : string → string.
Variable toLowerCase : string → string.
Variable formatComponentName : string → string.

(** [attrs], [props] and the result are objects used as maps from names to
    values. *)
Local Notation Hash := (gmap string V).

(** [checkProp(res, hash, key, altKey, preserve)]: the result [res], the
    object [hash] as the call leaves it, and the value returned. *)
Definition checkProp (res : Hash) (hash : option Hash) (key altKey : string)
    (preserve : bool) : Hash * option Hash * bool :=
  match hash with
  | Some h =>
      match h !! key with
      | Some v =>
          (<[key := v]> res,
           Some (if preserve then h else delete key h), true)
      | None =>
          match h !! altKey with
          | Some v =>
              (<[key := v]> res,
               Some (if preserve then h else delete altKey h), true)
          | None => (res, hash, false)
          end
      end
  | None => (res, hash, false)
  end.

(** The tip given for a prop declared in camel case and passed in lower
    case. *)
Definition tip_message (keyInLowerCase component key altKey : string)
    : string :=
  "Prop " +:+ dquote +:+ keyInLowerCase +:+ dquote +:+
  " is passed to component " +:+ component +:+
  ", but the declared prop name is " +:+ dquote +:+ key +:+ dquote +:+ ". " +:+
  "Note that HTML attributes are case-insensitive and camelCased " +:+
  "props need to use their kebab-case equivalents when using in-DOM " +:+
  "templates. You should probably use " +:+ dquote +:+ altKey +:+ dquote +:+
  " instead of " +:+ dquote +:+ key +:+ dquote +:+ ".".

(** The state of the loop of [extractPropsFromVNodeData]: the result, the
    [attrs] object of the vnode data and the tips given. *)
Record Loop := mkLoop {
  res : Hash;
  attrs : option Hash;
  tips : list string }.

(** Body of [for (const key in propOptions)]; [component] is
    [tag || Ctor]. *)
Definition extract_key (props : option Hash) (component : string)
    (key : string) (l : Loop) : Loop :=
  let altKey := hyphenate key in
  let tips :=
    if negb production &&
       negb (String.eqb key (toLowerCase key)) &&
       match attrs l with
       | Some a => bool_decide (is_Some (a !! toLowerCase key))
       | None => false
       end
    then tips l ++ [tip_message (toLowerCase key)
                      (formatComponentName component) key altKey]
    else tips l in
  match checkProp (res l) props key altKey true with
  | (res, _, true) => mkLoop res (attrs l) tips
  | (res, _, false) =>
      let '(res, attrs, _) := checkProp res (attrs l) key altKey false in
      mkLoop res attrs tips
  end.

(** [extractPropsFromVNodeData(data, Ctor, tag)].  [propOptions] is
    [Ctor.options.props], an object without inherited properties, given by
    its names in the order of [for ... in]; [attrs] and [props] are
    [data.attrs] and [data.props].  [None] is [undefined]. *)
Definition extractPropsFromVNodeData (attrs props : option Hash)
    (propOptions : option (list string)) (component : string)
    : option Loop :=
  match propOptions with
  | None => None
  | Some keys =>
      Some (if bool_decide (is_Some attrs ∨ is_Some props)
            then foldl (λ l key, extract_key props component key l)
                   (mkLoop ∅ attrs []) keys
            else mkLoop ∅ attrs [])
  end.

(* --------------------------------------------------------------------- *)
(** ** What the extraction keeps, takes and leaves *)

(** Where [checkProp] finds a declared prop in an object: under its name,
    else under the hyphenated name. *)
Definition found_in (hash : option Hash) (key : string)
    : option (string * V) :=
  match hash with
  | Some h =>
      match h !! key with
      | Some v => Some (key, v)
      | None => (λ v, (hyphenate key, v)) <$> h !! hyphenate key
      end
  | None => None
  end.

Definition lookup_in (hash : option Hash) (name : string) : option V :=
  hash ≫= (.!! name).

Lemma extract_key_found props component key l :
  let l' := extract_key props component key l in
  match found_in props key with
  | Some (_, v) => res l' = <[key := v]> (res l) ∧ attrs l' = attrs l
  | None =>
      match found_in (attrs l) key with
      | Some (name, v) =>
          res l' = <[key := v]> (res l) ∧
          attrs l' = delete name <$> attrs l
      | None => res l' = res l ∧ attrs l' = attrs l
      end
  end.
Proof.
  unfold extract_key, found_in, checkProp. simpl.
  destruct props as [p|]; simpl.
  - destruct (p !! key) as [v|]; simpl; [done|].
    destruct (p !! hyphenate key) as [v|]; simpl; [done|].
    destruct (attrs l) as [a|]; simpl; [|done].
    destruct (a !! key) as [v|]; simpl; [done|].
    by destruct (a !! hyphenate key) as [v|].
  - destruct (attrs l) as [a|]; simpl; [|done].
    destruct (a !! key) as [v|]; simpl; [done|].
    by destruct (a !! hyphenate key) as [v|].
Qed.

Lemma found_in_lookup hash key name v :
  found_in hash key = Some (name, v) →
  lookup_in hash name = Some v ∧ (name = key ∨ name = hyphenate key).
Proof.
  unfold found_in, lookup_in. destruct hash as [h|]; [|done]. simpl.
  destruct (h !! key) as [v'|] eqn:Hk.
  - intros [= <- <-]. auto.
  - destruct (h !! hyphenate key) as [v'|] eqn:Ha; simpl; [|done].
    intros [= <- <-]. auto.
Qed.

(** The loop over a list of declared names. *)
Definition extract_keys (props : option Hash) (component : string)
    (keys : list string) (l : Loop) : Loop :=
  foldl (λ l key, extract_key props component key l) l keys.

Lemma extract_keys_snoc props component keys key l :
  extract_keys props component (keys ++ [key]) l =
  extract_key props component key (extract_keys props component keys l).
Proof. unfold extract_keys. by rewrite foldl_app. Qed.

(** Invariant of the loop: the result holds declared names only, each with
    a value found in [props] or in the attributes; the attributes still
    there are as they were, and those gone were taken for a declared
    name. *)
Definition extracted (props attrs0 : option Hash) (keys : list string)
    (l : Loop) : Prop :=
  (∀ k v, res l !! k = Some v →
     k ∈ keys ∧
     (lookup_in props k = Some v ∨ lookup_in props (hyphenate k) = Some v ∨
      lookup_in attrs0 k = Some v ∨ lookup_in attrs0 (hyphenate k) = Some v)) ∧
  (∀ name v, lookup_in (attrs l) name = Some v →
             lookup_in attrs0 name = Some v) ∧
  (∀ name, lookup_in (attrs l) name = None →
     lookup_in attrs0 name = None ∨
     ∃ key, key ∈ keys ∧ (name = key ∨ name = hyphenate key)).

Lemma extract_keys_extracted props attrs0 component keys :
  extracted props attrs0 keys
    (extract_keys props component keys (mkLoop ∅ attrs0 [])).
Proof.
  induction keys as [|key keys IH] using rev_ind.
  - split_and!; simpl; [done|done|]. intros name Hn. by left.
  - rewrite extract_keys_snoc.
    set (l := extract_keys props component keys _) in *.
    destruct IH as (Hres & Hkeep & Hgone).
    pose proof (extract_key_found props component key l) as Hf.
    set (l' := extract_key props component key l) in *. simpl in Hf.
    assert (∀ k v, res l !! k = Some v →
              k ∈ keys ++ [key] ∧
              (lookup_in props k = Some v ∨
               lookup_in props (hyphenate k) = Some v ∨
               lookup_in attrs0 k = Some v ∨
               lookup_in attrs0 (hyphenate k) = Some v)) as Hres'.
    { intros k v Hk. destruct (Hres k v Hk). split; [set_solver|done]. }
    assert (∀ name, lookup_in (attrs l) name = None →
              lookup_in attrs0 name = None ∨
              ∃ key0, key0 ∈ keys ++ [key] ∧
                      (name = key0 ∨ name = hyphenate key0)) as Hgone'.
    { intros name Hn. destruct (Hgone name Hn) as [?|(k & ? & ?)]; [by left|].
      right. exists k. split; [set_solver|done]. }
    destruct (found_in props key) as [[pn pv]|] eqn:Hp.
    + destruct Hf as [Hr Ha]. apply found_in_lookup in Hp as [Hpv Hpn].
      split_and!.
      * intros k v. rewrite Hr. intros [[<- <-]|[_ Hk]]%lookup_insert_Some.
        -- split; [set_solver|]. destruct Hpn as [->| ->]; auto.
        -- by apply Hres'.
      * rewrite Ha. apply Hkeep.
      * rewrite Ha. apply Hgone'.
    + destruct (found_in (attrs l) key) as [[an av]|] eqn:Hat.
      * destruct Hf as [Hr Ha]. apply found_in_lookup in Hat as [Hav Han].
        split_and!.
        -- intros k v. rewrite Hr.
           intros [[<- <-]|[_ Hk]]%lookup_insert_Some; [|by apply Hres'].
           split; [set_solver|]. apply Hkeep in Hav.
           destruct Han as [->| ->]; auto.
        -- intros name v. rewrite Ha. unfold lookup_in.
           destruct (attrs l) as [a|]; simpl; [|done].
           intros [_ Hn]%lookup_delete_Some. by apply (Hkeep name v).
        -- intros name. rewrite Ha. unfold lookup_in.
           destruct (attrs l) as [a|] eqn:Hal; simpl.
           ++ intros [->|Hn]%lookup_delete_None.
              ** right. exists key. split; [set_solver|done].
              ** by apply Hgone'.
           ++ intros _. by apply Hgone'.
      * destruct Hf as [Hr Ha]. split_and!.
        -- rewrite Hr. apply Hres'.
        -- rewrite Ha. apply Hkeep.
        -- rewrite Ha. apply Hgone'.
Qed.

(** The result holds only declared props, each with a value that [props]
    or the attributes give under the name of the prop or its hyphenated
    form.  Attributes are only ever taken away, and only for a declared
    name: an attribute whose name is neither a declared prop nor the
    hyphenated form of one is left in [data.attrs]. *)
Theorem extractProps_declared_only attrs0 props keys component l :
  extractPropsFromVNodeData attrs0 props (Some keys) component = Some l →
  (∀ k v, res l !! k = Some v →
     k ∈ keys ∧
     (lookup_in props k = Some v ∨ lookup_in props (hyphenate k) = Some v ∨
      lookup_in attrs0 k = Some v ∨ lookup_in attrs0 (hyphenate k) = Some v)) ∧
  (∀ name v, lookup_in (attrs l) name = Some v →
             lookup_in attrs0 name = Some v) ∧
  (∀ name, (∀ key, key ∈ keys → name ≠ key ∧ name ≠ hyphenate key) →
           lookup_in (attrs l) name = lookup_in attrs0 name).
Proof.
  unfold extractPropsFromVNodeData. intros [= <-].
  assert (extracted props attrs0 keys
            (if bool_decide (is_Some attrs0 ∨ is_Some props)
             then extract_keys props component keys (mkLoop ∅ attrs0 [])
             else mkLoop ∅ attrs0 [])) as (Hres & Hkeep & Hgone).
  { case_bool_decide; [apply extract_keys_extracted|].
    split_and!; simpl; [done|done|]. intros name Hn. by left. }
  split_and!; [done|done|].
  intros name Hname.
  destruct (lookup_in (attrs _) name) as [v|] eqn:Hl.
  - symmetry. by apply Hkeep.
  - destruct (Hgone name Hl) as [?|(key & Hkey & Hn)]; [done|].
    destruct (Hname key Hkey). naive_solver.
Qed.

Lemma extract_key_other props component key l k :
  k ≠ key → res (extract_key props component key l) !! k = res l !! k.
Proof.
  intros Hk. pose proof (extract_key_found props component key l) as Hf.
  simpl in Hf.
  destruct (found_in props key) as [[pn pv]|];
    [|destruct (found_in (attrs l) key) as [[an av]|]];
    destruct Hf as [-> _]; by rewrite ?lookup_insert_ne by congruence.
Qed.

Lemma extract_keys_other props component keys l k :
  k ∉ keys → res (extract_keys props component keys l) !! k = res l !! k.
Proof.
  revert l. induction keys as [|key keys IH]; intros l; [done|].
  intros [Hk Hks]%not_elem_of_cons. simpl.
  rewrite <- (extract_key_other props component key l k) by done.
  by apply IH.
Qed.

Lemma extract_key_gone props component key l name :
  lookup_in (attrs l) name = None →
  lookup_in (attrs (extract_key props component key l)) name = None.
Proof.
  intros Hn. pose proof (extract_key_found props component key l) as Hf.
  simpl in Hf.
  destruct (found_in props key) as [[pn pv]|];
    [|destruct (found_in (attrs l) key) as [[an av]|]];
    destruct Hf as [_ ->]; try done.
  unfold lookup_in in *. destruct (attrs l) as [a|]; simpl in *; [|done].
  apply lookup_delete_None. by right.
Qed.

Lemma extract_keys_gone props component keys l name :
  lookup_in (attrs l) name = None →
  lookup_in (attrs (extract_keys props component keys l)) name = None.
Proof.
  revert l. induction keys as [|key keys IH]; intros l; [done|].
  intros Hn. simpl. by apply IH, extract_key_gone.
Qed.

Lemma extract_keys_props_first props component keys l key name v :
  key ∈ keys → found_in props key = Some (name, v) →
  res (extract_keys props component keys l) !! key = Some v.
Proof.
  intros Hkey Hp. revert l.
  induction keys as [|k keys IH] using rev_ind; intros l;
    [by apply elem_of_nil in Hkey|].
  rewrite extract_keys_snoc.
  destruct (decide (k = key)) as [->|Hne].
  - pose proof (extract_key_found props component key
                  (extract_keys props component keys l)) as Hf.
    simpl in Hf. rewrite Hp in Hf. destruct Hf as [-> _].
    by rewrite lookup_insert_eq.
  - rewrite extract_key_other by done. apply IH. set_solver.
Qed.

(** [props] come first: a declared prop that [data.props] has, under its
    name or else its hyphenated name, gets that value whatever the
    attributes are. *)
Theorem extractProps_props_first attrs0 (p : Hash) keys component key v l :
  key ∈ keys →
  match p !! key with
  | Some v' => v' = v
  | None => p !! hyphenate key = Some v
  end →
  extractPropsFromVNodeData attrs0 (Some p) (Some keys) component = Some l →
  res l !! key = Some v.
Proof.
  intros Hkey Hp. unfold extractPropsFromVNodeData. intros [= <-].
  rewrite bool_decide_true by (right; eauto).
  apply (extract_keys_props_first _ _ _ _ _
           (if p !! key then key else hyphenate key)); [done|].
  unfold found_in. destruct (p !! key); [by subst|]. by rewrite Hp.
Qed.

(** A declared prop that [props] does not give and the attributes give
    under its own name is taken from there, and the attribute is removed
    from [data.attrs] -- provided the names declared are distinct and no
    other declared name has this one as its hyphenated form. *)
Theorem extractProps_attr_taken (a : Hash) props keys component key v l :
  NoDup keys → key ∈ keys →
  (∀ key', key' ∈ keys → key' ≠ key → hyphenate key' ≠ key) →
  found_in props key = None → a !! key = Some v →
  extractPropsFromVNodeData (Some a) props (Some keys) component = Some l →
  res l !! key = Some v ∧ lookup_in (attrs l) key = None.
Proof.
  intros Hnd Hkey Hhyph Hp Ha. unfold extractPropsFromVNodeData.
  intros [= <-].
  apply list_elem_of_split in Hkey as (k1 & k2 & ->).
  apply NoDup_app in Hnd as (_ & Hk1 & [Hk2 _]%NoDup_cons).
  set (l1 := extract_keys props component k1 (mkLoop ∅ (Some a) [])).
  assert (foldl (λ l key, extract_key props component key l)
            (mkLoop ∅ (Some a) []) (k1 ++ key :: k2) =
          extract_keys props component k2
            (extract_key props component key l1)) as ->
    by (unfold l1, extract_keys; by rewrite foldl_app).
  assert (lookup_in (attrs l1) key = Some v) as Hl1.
  { destruct (extract_keys_extracted props (Some a) component k1)
      as (_ & Hkeep & Hgone). fold l1 in Hkeep, Hgone.
    destruct (lookup_in (attrs l1) key) as [v'|] eqn:Hl.
    - apply Hkeep in Hl. simpl in Hl. congruence.
    - destruct (Hgone key Hl) as [Hnone|(k & Hk & [->|Heq])].
      + simpl in Hnone. congruence.
      + exfalso. apply (Hk1 k); [done|by left].
      + exfalso. apply (Hhyph k); [set_solver| |done].
        intros ->. apply (Hk1 key); [done|by left]. }
  pose proof (extract_key_found props component key l1) as Hf.
  simpl in Hf. rewrite Hp in Hf.
  assert (found_in (attrs l1) key = Some (key, v)) as Hfa.
  { unfold found_in, lookup_in in *. destruct (attrs l1) as [a1|]; [|done].
    simpl in Hl1. by rewrite Hl1. }
  rewrite Hfa in Hf. destruct Hf as [Hr Hat]. split.
  - rewrite extract_keys_other by done. rewrite Hr. by rewrite lookup_insert_eq.
  - apply (extract_keys_gone props component k2). rewrite Hat.
    unfold lookup_in.
    destruct (attrs l1); simpl; [|done]. by rewrite lookup_delete_eq.
Qed.

End ExtractProps.

(** ** A call *)

(** [hyphenate] on the names used below. *)
Definition sample_hyphenate (s : string) : string :=
  if String.eqb s "userName" then "user-name" else s.

Definition sample_extract :=
  extractPropsFromVNodeData (V:=nat) false sample_hyphenate (λ s, s)
    (λ s, s)
    (Some {[ "user-name" := 1; "title" := 2; "id" := 3 ]})
    (Some {[ "title" := 4 ]})
    (Some ["userName"; "title"]) "<Card>".

Example sample_extract_result :
  (λ l, (map_to_list (res l), map_to_list <$> attrs l, tips l))
    <$> sample_extract =
  Some ([("userName", 1); ("title", 4)], Some [("id", 3); ("title", 2)], []).
Proof. vm_compute. reflexivity. Qed.

Lemma extractProps_declared_only_witness :
  ∃ l, sample_extract = Some l ∧ lookup_in (attrs l) "id" = Some 3.
Proof.
  eexists. split; [reflexivity|].
  destruct (extractProps_declared_only false sample_hyphenate (λ s, s)
              (λ s, s)
              (Some {[ "user-name" := 1; "title" := 2; "id" := 3 ]})
              (Some {[ "title" := 4 ]}) ["userName"; "title"] "<Card>"
              _ eq_refl) as (_ & _ & Hleft).
  assert (∀ key, key ∈ ["userName"; "title"] →
                 "id" ≠ key ∧ "id" ≠ sample_hyphenate key) as Hid.
  { intros key Hkey. split; apply (bool_decide_unpack _); revert key Hkey;
      apply Forall_forall; repeat constructor. }
  exact (eq_trans (Hleft "id" Hid) eq_refl).
Defined.

Lemma extractProps_props_first_witness :
  ∃ l, sample_extract = Some l ∧ res l !! "title" = Some 4.
Proof.
  eexists. split; [reflexivity|].
  assert ("title" ∈ ["userName"; "title"]) as Hkey
    by (apply (bool_decide_unpack _); vm_compute; exact I).
  exact (extractProps_props_first false sample_hyphenate (λ s, s) (λ s, s)
           (Some {[ "user-name" := 1; "title" := 2; "id" := 3 ]})
           {[ "title" := 4 ]} ["userName"; "title"] "<Card>" "title" 4
           _ Hkey eq_refl eq_refl).
Defined.

Lemma extractProps_attr_taken_witness :
  ∃ l, extractPropsFromVNodeData false sample_hyphenate (λ s, s) (λ s, s)
         (Some {[ "title" := 2; "size" := 5 ]}) (Some {[ "title" := 4 ]})
         (Some ["title"; "size"]) "<Card>" = Some l ∧
       res l !! "size" = Some 5 ∧ lookup_in (attrs l) "size" = None.
Proof.
  eexists. split; [reflexivity|].
  assert (NoDup ["title"; "size"]) as Hnd
    by (apply (bool_decide_unpack _); vm_compute; exact I).
  assert ("size" ∈ ["title"; "size"]) as Hkey
    by (apply (bool_decide_unpack _); vm_compute; exact I).
  assert (∀ key', key' ∈ ["title"; "size"] → key' ≠ "size" →
                  sample_hyphenate key' ≠ "size") as Hhyph.
  { intros key' [->|[->|?%elem_of_nil]%elem_of_cons]%elem_of_cons; done. }
  exact (extractProps_attr_taken false sample_hyphenate (λ s, s) (λ s, s)
           {[ "title" := 2; "size" := 5 ]} (Some {[ "title" := 4 ]})
           ["title"; "size"] "<Card>" "size" 5 _ Hnd Hkey Hhyph eq_refl
           eq_refl eq_refl).
Defined.

End ExtractProps.
